(** * nodecast-tv: source synchronisation and media proxy

    A shallow embedding of [server/services/syncService.js] and
    [server/routes/proxy.js], and the properties of the sync orchestrator,
    the batch persistence writer and the stream/manifest proxy.

    JavaScript strings are sequences of UTF-16 code units; values that the
    code stores, compares or renders are the primitives below; the SQLite
    tables are lists of rows in insertion order; thrown errors are carried
    in a result type together with the state reached when they were thrown. *)

From Stdlib Require Import ZArith NArith List String Ascii Lia Bool.
From stdpp Require Import base decidable option numbers list gmap sets pretty.
Import ListNotations.
Open Scope Z_scope.

(* ===================================================================== *)
(** ** JavaScript strings, primitive values and plain objects             *)
(* ===================================================================== *)

Module Js.

(** A string is its list of UTF-16 code units. *)
Abbreviation jsstring := (list N) (only parsing).

(** A literal of the source text (code units below 256). *)
Definition lit (s : string) : jsstring :=
  map N_of_ascii (list_ascii_of_string s).

(** [s.startsWith(p)] *)
Fixpoint startsWith (s p : jsstring) : bool :=
  match p, s with
  | [], _ => true
  | _ :: _, [] => false
  | a :: p', b :: s' => if N.eqb a b then startsWith s' p' else false
  end.

(** [s.includes(p)] *)
Fixpoint includes (s p : jsstring) : bool :=
  if startsWith s p then true
  else match s with
       | [] => false
       | _ :: s' => includes s' p
       end.

(** [s.lastIndexOf(c)] for a one-unit needle [c]; -1 when absent. The
    accumulator [i] is the index of the head of [s]. *)
Fixpoint lastIndexOf_from (i : Z) (s : jsstring) (c : N) : Z :=
  match s with
  | [] => -1
  | b :: s' =>
      let later := lastIndexOf_from (i + 1) s' c in
      if 0 <=? later then later else if N.eqb b c then i else -1
  end.

Definition lastIndexOf (s : jsstring) (c : N) : Z := lastIndexOf_from 0 s c.

(** [s.substring(0, j)]: a negative end is clamped to 0, an end past the
    length to the length. *)
Definition substring0 (s : jsstring) (j : Z) : jsstring := take (Z.to_nat j) s.

(** WhiteSpace and LineTerminator code units, the ones [trim] strips. *)
Definition is_line_terminator (c : N) : bool :=
  (N.eqb c 10 || N.eqb c 13 || N.eqb c 8232 || N.eqb c 8233)%bool.

Definition is_white_space (c : N) : bool :=
  (N.eqb c 9 || N.eqb c 11 || N.eqb c 12 || N.eqb c 32 || N.eqb c 160
   || N.eqb c 5760 || (N.leb 8192 c && N.leb c 8202) || N.eqb c 8239
   || N.eqb c 8287 || N.eqb c 12288 || N.eqb c 65279)%bool.

Definition is_trimmed (c : N) : bool :=
  (is_white_space c || is_line_terminator c)%bool.

Fixpoint drop_while {A} (p : A -> bool) (l : list A) : list A :=
  match l with
  | [] => []
  | a :: l' => if p a then drop_while p l' else l
  end.

(** [s.trim()] *)
Definition trim (s : jsstring) : jsstring :=
  rev (drop_while is_trimmed (rev (drop_while is_trimmed s))).

(** *** encodeURIComponent *)

Definition is_alnum (c : N) : bool :=
  ((N.leb 48 c && N.leb c 57) || (N.leb 65 c && N.leb c 90)
   || (N.leb 97 c && N.leb c 122))%bool.

(** The unreserved marks: - _ . ! ~ * ' ( ) *)
Definition is_mark (c : N) : bool :=
  (N.eqb c 45 || N.eqb c 95 || N.eqb c 46 || N.eqb c 33 || N.eqb c 126
   || N.eqb c 42 || N.eqb c 39 || N.eqb c 40 || N.eqb c 41)%bool.

Definition is_unreserved (c : N) : bool := (is_alnum c || is_mark c)%bool.

Definition hex_digit (n : N) : N :=
  if N.ltb n 10 then (48 + n)%N else (55 + n)%N.

(** One octet as a percent escape with upper-case digits. *)
Definition pct (b : N) : jsstring :=
  [37%N; hex_digit (b / 16); hex_digit (b mod 16)].

(** The UTF-8 octets of a code point. *)
Definition utf8 (cp : N) : list N :=
  (if cp <? 128 then [cp]
   else if cp <? 2048 then [192 + cp / 64; 128 + cp mod 64]
   else if cp <? 65536 then
     [224 + cp / 4096; 128 + (cp / 64) mod 64; 128 + cp mod 64]
   else
     [240 + cp / 262144; 128 + (cp / 4096) mod 64;
      128 + (cp / 64) mod 64; 128 + cp mod 64])%N.

Definition is_high_surrogate (c : N) : bool := (N.leb 55296 c && N.leb c 56319)%bool.
Definition is_low_surrogate (c : N) : bool := (N.leb 56320 c && N.leb c 57343)%bool.

Definition escape (cp : N) : jsstring := concat (map pct (utf8 cp)).

(** [encodeURIComponent(s)]; [None] is the URIError thrown on a lone
    surrogate. *)
Fixpoint encodeURIComponent (s : jsstring) : option jsstring :=
  match s with
  | [] => Some []
  | c :: s' =>
      if is_unreserved c then cons c <$> encodeURIComponent s'
      else if is_low_surrogate c then None
      else if is_high_surrogate c then
        match s' with
        | d :: s'' =>
            if is_low_surrogate d then
              app (escape ((c - 55296) * 1024 + (d - 56320) + 65536)%N)
                <$> encodeURIComponent s''
            else None
        | [] => None
        end
      else app (escape c) <$> encodeURIComponent s'
  end.

(** *** Primitive values

    The values the two files read from a payload, store and render. A
    number is integer-valued here (ids, timestamps); the arrays and nested
    objects a payload may carry besides are not represented. *)

Inductive jsval : Type :=
| JUndefined
| JNull
| JNum (z : Z)
| JStr (s : jsstring).

#[global] Instance jsval_eq_dec : EqDecision jsval.
Proof. solve_decision. Defined.

(** Decimal rendering of an integer-valued number. *)
Definition num_to_string (z : Z) : jsstring := lit (pretty z).

(** [String(v)], also the rendering of [v] in a template literal. *)
Definition to_string (v : jsval) : jsstring :=
  match v with
  | JUndefined => lit "undefined"
  | JNull => lit "null"
  | JNum z => num_to_string z
  | JStr s => s
  end.

(** Truthiness, as tested by [!v], [v || w] and [v ? a : b]. *)
Definition truthy (v : jsval) : bool :=
  match v with
  | JUndefined | JNull => false
  | JNum z => negb (z =? 0)
  | JStr s => match s with [] => false | _ => true end
  end.

(** [v || w] *)
Definition or_else (v w : jsval) : jsval := if truthy v then v else w.

(** *** Plain objects: properties in insertion order *)

Abbreviation jsobj := (list (list N * jsval)) (only parsing).

(** [o.k]; a missing property reads as [undefined]. *)
Fixpoint obj_get (k : jsstring) (o : jsobj) : jsval :=
  match o with
  | [] => JUndefined
  | (k', v) :: o' => if decide (k' = k) then v else obj_get k o'
  end.

(** Defining property [k] in an object literal: an existing property keeps
    its place and takes the new value, a new one goes last. *)
Fixpoint obj_set (k : jsstring) (v : jsval) (o : jsobj) : jsobj :=
  match o with
  | [] => [(k, v)]
  | (k', v') :: o' =>
      if decide (k' = k) then (k, v) :: o' else (k', v') :: obj_set k v o'
  end.

(** [JSON.parse(JSON.stringify(o))] on an object of primitives: properties
    whose value is [undefined] are left out. *)
Definition json_roundtrip (o : jsobj) : jsobj :=
  filter (fun kv => kv.2 <> JUndefined) o.

(** *** Calls that may throw

    The outcome of a call: a value, or the [message] of the Error thrown. *)
Inductive result (A : Type) : Type :=
| Ok (a : A)
| Throw (message : jsstring).
Arguments Ok {A} a.
Arguments Throw {A} message.

End Js.

(* ===================================================================== *)
(** ** The SQLite store, as the statements of the two files use it        *)
(* ===================================================================== *)

Module Db.
Import Js.

(** A column value. The table declarations ([server/db/sqlite.js]) are not
    part of the sources at hand: a column keeps the value that was bound to
    it, with its storage class (an INTEGER stays an INTEGER, a TEXT a
    TEXT). *)
Inductive sqlval : Type :=
| SNull
| SInt (z : Z)
| SText (s : jsstring).

#[global] Instance sqlval_eq_dec : EqDecision sqlval.
Proof. solve_decision. Defined.

(** A JavaScript value bound as a statement parameter: [undefined] and
    [null] are bound as NULL. *)
Definition bind (v : jsval) : sqlval :=
  match v with
  | JUndefined | JNull => SNull
  | JNum z => SInt z
  | JStr s => SText s
  end.

(** A column value in a row object returned by [.all()]. *)
Definition read (v : sqlval) : jsval :=
  match v with
  | SNull => JNull
  | SInt z => JNum z
  | SText s => JStr s
  end.

(** [column = ?] in a WHERE clause: NULL equals nothing. *)
Definition sql_eq (a b : sqlval) : bool :=
  match a, b with
  | SInt x, SInt y => x =? y
  | SText x, SText y => bool_decide (x = y)
  | _, _ => false
  end.

(** Modelled from the spec: the column default of [is_hidden] belongs to
    the missing table declarations. The read API serves freshly synced
    items without [includeHidden], so a row inserted by a sync is not
    hidden. *)
Definition is_hidden_default : Z := 0.

Record category : Type := mkCategory {
  cat_id : jsstring;
  cat_source_id : Z;
  cat_category_id : sqlval;
  cat_type : jsstring;
  cat_name : sqlval;
  cat_parent_id : sqlval;
  cat_data : jsobj;
  cat_is_hidden : Z
}.

Record playlist_item : Type := mkItem {
  pi_id : jsstring;
  pi_source_id : Z;
  pi_item_id : sqlval;
  pi_type : jsstring;
  pi_name : sqlval;
  pi_category_id : sqlval;
  pi_stream_icon : sqlval;
  pi_stream_url : sqlval;
  pi_container_extension : sqlval;
  pi_rating : sqlval;
  pi_year : sqlval;
  pi_added_at : sqlval;
  pi_data : jsobj;
  pi_is_hidden : Z
}.

(** A programme as the XMLTV parser emits it: plain properties, and the
    two Date values ([None] when the property is missing). *)
Record programme : Type := mkProgramme {
  p_props : jsobj;
  p_start : option Z;
  p_stop : option Z
}.

Record epg_program : Type := mkEpgProgram {
  ep_channel_id : sqlval;
  ep_source_id : Z;
  ep_start_time : Z;
  ep_end_time : Z;
  ep_title : sqlval;
  ep_description : sqlval;
  ep_data : programme
}.

Record sync_status_row : Type := mkSyncStatus {
  ss_source_id : Z;
  ss_type : jsstring;
  ss_last_sync : Z;
  ss_status : jsstring;
  ss_error : sqlval
}.

Record t : Type := mkDb {
  categories : list category;
  playlist_items : list playlist_item;
  epg_programs : list epg_program;
  sync_status : list sync_status_row
}.

Definition empty : t := mkDb [] [] [] [].

(** INSERT ... ON CONFLICT DO UPDATE: the first row in conflict with the new
    one is updated in place, otherwise the new row is appended. *)
Fixpoint upsert {R} (conflict : R -> R -> bool) (update : R -> R -> R)
    (new : R) (table : list R) : list R :=
  match table with
  | [] => [new]
  | old :: table' =>
      if conflict old new then update old new :: table'
      else old :: upsert conflict update new table'
  end.

(** categories: ON CONFLICT(id) DO UPDATE SET name, data *)
Definition category_conflict (old new : category) : bool :=
  bool_decide (cat_id old = cat_id new).

Definition category_update (old new : category) : category :=
  mkCategory (cat_id old) (cat_source_id old) (cat_category_id old)
    (cat_type old) (cat_name new) (cat_parent_id old) (cat_data new)
    (cat_is_hidden old).

(** playlist_items, as [saveStreams] writes them: ON CONFLICT(id) DO UPDATE
    SET name, category_id, stream_icon, container_extension, data *)
Definition item_conflict (old new : playlist_item) : bool :=
  bool_decide (pi_id old = pi_id new).

Definition item_update (old new : playlist_item) : playlist_item :=
  mkItem (pi_id old) (pi_source_id old) (pi_item_id old) (pi_type old)
    (pi_name new) (pi_category_id new) (pi_stream_icon new)
    (pi_stream_url old) (pi_container_extension new) (pi_rating old)
    (pi_year old) (pi_added_at old) (pi_data new) (pi_is_hidden old).

(** playlist_items, as [syncEpgFromUrl] writes the EPG channels:
    ON CONFLICT(id) DO UPDATE SET name, stream_icon, data *)
Definition channel_update (old new : playlist_item) : playlist_item :=
  mkItem (pi_id old) (pi_source_id old) (pi_item_id old) (pi_type old)
    (pi_name new) (pi_category_id old) (pi_stream_icon new)
    (pi_stream_url old) (pi_container_extension old) (pi_rating old)
    (pi_year old) (pi_added_at old) (pi_data new) (pi_is_hidden old).

(** sync_status: ON CONFLICT(source_id, type) DO UPDATE SET last_sync,
    status, error *)
Definition status_conflict (old new : sync_status_row) : bool :=
  bool_decide (ss_source_id old = ss_source_id new) &&
  bool_decide (ss_type old = ss_type new).

Definition status_update (old new : sync_status_row) : sync_status_row :=
  mkSyncStatus (ss_source_id old) (ss_type old) (ss_last_sync new)
    (ss_status new) (ss_error new).

Definition set_categories (f : list category -> list category) (d : t) : t :=
  mkDb (f (categories d)) (playlist_items d) (epg_programs d) (sync_status d).

Definition set_playlist_items (f : list playlist_item -> list playlist_item)
    (d : t) : t :=
  mkDb (categories d) (f (playlist_items d)) (epg_programs d) (sync_status d).

Definition set_epg_programs (f : list epg_program -> list epg_program)
    (d : t) : t :=
  mkDb (categories d) (playlist_items d) (f (epg_programs d)) (sync_status d).

Definition set_sync_status (f : list sync_status_row -> list sync_status_row)
    (d : t) : t :=
  mkDb (categories d) (playlist_items d) (epg_programs d) (f (sync_status d)).

End Db.

(* ===================================================================== *)
(** ** server/services/syncService.js                                     *)
(* ===================================================================== *)

Module SyncService.
Import Js.

(** A source record of the configuration store. *)
Record Source : Type := mkSource {
  src_id : Z;
  src_type : jsstring;
  src_name : jsstring;
  src_url : jsstring;
  src_username : jsval;
  src_password : jsval;
  src_enabled : bool
}.

(** What lies outside the service: the configuration store ([sources]) and
    the three provider adapters ([xtreamApi], [m3uParser], [epgParser]),
    each call with the outcome it has. *)
Record Env : Type := mkEnv {
  getAll : list Source;
  getLiveCategories : Source -> result (list jsobj);
  getLiveStreams : Source -> result (list jsobj);
  getVodCategories : Source -> result (list jsobj);
  getVodStreams : Source -> result (list jsobj);
  getSeriesCategories : Source -> result (list jsobj);
  getSeries : Source -> result (list jsobj);
  getXmltvUrl : Source -> result jsstring;
  epg_fetchAndParse : jsstring -> result (list jsobj * list Db.programme);
  m3u_fetchAndParse : jsstring -> result (list jsobj * list jsobj)
}.

(** [sources.getById(sourceId)] *)
Definition getById (env : Env) (sourceId : Z) : option Source :=
  find (fun s => bool_decide (src_id s = sourceId)) (getAll env).

(** The state the service works on: the module-level [activeSyncs] set,
    the database, and the clock read by [Date.now()]. *)
Record State : Type := mkState {
  activeSyncs : gset Z;
  db : Db.t;
  clock : Z
}.

(** A method of the service: it runs from a state to an outcome and the
    state reached, also when it throws. *)
Definition M (A : Type) : Type := State -> result A * State.

#[global] Instance M_ret : MRet M := fun A a st => (Ok a, st).

#[global] Instance M_bind : MBind M := fun A B f m st =>
  match m st with
  | (Ok a, st') => f a st'
  | (Throw e, st') => (Throw e, st')
  end.

Definition throw {A} (message : jsstring) : M A := fun st => (Throw message, st).

(** [await] of an adapter call: its outcome, the state untouched. *)
Definition await {A} (r : result A) : M A := fun st => (r, st).

(** [try { m } catch (err) { h err.message }] *)
Definition try_catch {A} (m : M A) (h : jsstring -> M A) : M A := fun st =>
  match m st with
  | (Ok a, st') => (Ok a, st')
  | (Throw e, st') => h e st'
  end.

(** [try { m } finally { cleanup }] for a cleanup that cannot throw. *)
Definition finally {A} (m : M A) (cleanup : State -> State) : M A := fun st =>
  let '(r, st') := m st in (r, cleanup st').

Definition modify_db (f : Db.t -> Db.t) : M unit := fun st =>
  (Ok tt, mkState (activeSyncs st) (f (db st)) (clock st)).

Definition add_active (sourceId : Z) (st : State) : State :=
  mkState ({[ sourceId ]} ∪ activeSyncs st) (db st) (clock st).

Definition delete_active (sourceId : Z) (st : State) : State :=
  mkState (activeSyncs st ∖ {[ sourceId ]}) (db st) (clock st).

(** *** updateSyncStatus *)

Definition updateSyncStatus (sourceId : Z) (type status : jsstring)
    (error : jsval) : M unit := fun st =>
  modify_db
    (Db.set_sync_status
       (Db.upsert Db.status_conflict Db.status_update
          (Db.mkSyncStatus sourceId type (clock st) status (Db.bind error))))
    st.

(** *** The batch loop shared by saveCategories and saveStreams

    Between two suspension points an async method runs atomically, so it is
    the sequence of its segments: one committed transaction per batch, and
    the [await] of [setImmediate] that follows it. *)
Inductive segment : Type :=
| Transaction (batch : list jsobj)
| Yield.

Definition BATCH_SIZE : nat := 500.

(** [l.slice(i, j)] for indices within the safe range. *)
Definition slice {A} (i j : nat) (l : list A) : list A :=
  take (j - i)%nat (drop i l).

(** [for (let i = 0; i < items.length; i += BATCH_SIZE) { insertBatch(...);
    await ... }], one unit of fuel per iteration. *)
Fixpoint batch_loop (fuel i : nat) (items : list jsobj) : list segment :=
  match fuel with
  | O => []
  | S fuel' =>
      if (i <? length items)%nat then
        Transaction (slice i (i + BATCH_SIZE) items) :: Yield
          :: batch_loop fuel' (i + BATCH_SIZE)%nat items
      else []
  end.

(** The loop advances by 500 and stops at [items.length]: [length items]
    iterations are more than it takes. *)
Definition schedule (items : list jsobj) : list segment :=
  batch_loop (length items) 0 items.

Definition run_segment (insertRow : jsobj -> Db.t -> Db.t) (s : segment)
    (d : Db.t) : Db.t :=
  match s with
  | Transaction batch => fold_left (fun d item => insertRow item d) batch d
  | Yield => d
  end.

Definition run_schedule (insertRow : jsobj -> Db.t -> Db.t)
    (sched : list segment) (d : Db.t) : Db.t :=
  fold_left (fun d s => run_segment insertRow s d) sched d.

(** [`${sourceId}:${itemId}`] *)
Definition composite_id (sourceId : Z) (itemId : jsval) : jsstring :=
  num_to_string sourceId ++ lit ":" ++ to_string itemId.

(** *** saveCategories *)

Definition category_row (sourceId : Z) (type : jsstring) (cat : jsobj)
    : Db.category :=
  let catId := obj_get (lit "category_id") cat in
  let name := obj_get (lit "category_name") cat in
  Db.mkCategory (composite_id sourceId catId) sourceId
    (Db.SText (to_string catId)) type (Db.bind name)
    (Db.bind (or_else (obj_get (lit "parent_id") cat) JNull))
    (json_roundtrip cat) Db.is_hidden_default.

Definition insertCategory (sourceId : Z) (type : jsstring) (cat : jsobj)
    : Db.t -> Db.t :=
  Db.set_categories
    (Db.upsert Db.category_conflict Db.category_update
       (category_row sourceId type cat)).

Definition saveCategories (sourceId : Z) (type : jsstring)
    (categories : list jsobj) : M unit :=
  match categories with
  | [] => mret tt
  | _ => modify_db (run_schedule (insertCategory sourceId type)
                      (schedule categories))
  end.

(** *** saveStreams *)

(** The locals of the field mapping: [container] is declared without a
    value, [rating], [year] and [added] start as [null]. *)
Record mapped : Type := mkMapped {
  m_itemId : jsval;
  m_name : jsval;
  m_catId : jsval;
  m_icon : jsval;
  m_container : jsval;
  m_rating : jsval;
  m_year : jsval;
  m_added : jsval
}.

Definition map_fields (type : jsstring) (item : jsobj) : mapped :=
  let f k := obj_get (lit k) item in
  if decide (type = lit "live") then
    mkMapped (f "stream_id") (f "name") (f "category_id") (f "stream_icon")
      JUndefined JNull JNull (f "added")
  else if decide (type = lit "movie") then
    mkMapped (f "stream_id") (f "name") (f "category_id") (f "stream_icon")
      (f "container_extension") (f "rating") JNull (f "added")
  else if decide (type = lit "series") then
    mkMapped (f "series_id") (f "name") (f "category_id") (f "cover")
      JUndefined (f "rating") (f "releaseDate") (f "last_modified")
  else
    mkMapped JUndefined JUndefined JUndefined JUndefined
      JUndefined JNull JNull JNull.

Definition stream_row (sourceId : Z) (type : jsstring) (item : jsobj)
    : Db.playlist_item :=
  let m := map_fields type item in
  Db.mkItem (composite_id sourceId (m_itemId m)) sourceId
    (Db.SText (to_string (m_itemId m))) type (Db.bind (m_name m))
    (Db.SText (to_string (m_catId m))) (Db.bind (m_icon m)) Db.SNull
    (Db.bind (m_container m)) (Db.bind (m_rating m)) (Db.bind (m_year m))
    (Db.bind (m_added m)) (json_roundtrip item) Db.is_hidden_default.

Definition insertStream (sourceId : Z) (type : jsstring) (item : jsobj)
    : Db.t -> Db.t :=
  Db.set_playlist_items
    (Db.upsert Db.item_conflict Db.item_update (stream_row sourceId type item)).

Definition saveStreams (sourceId : Z) (type : jsstring) (items : list jsobj)
    : M unit :=
  match items with
  | [] => mret tt
  | _ => modify_db (run_schedule (insertStream sourceId type) (schedule items))
  end.

(** *** syncEpgFromUrl *)

Definition channel_row (sourceId : Z) (ch : jsobj) : Db.playlist_item :=
  let chId := obj_get (lit "id") ch in
  Db.mkItem (composite_id sourceId chId) sourceId (Db.bind chId)
    (lit "epg_channel") (Db.bind (obj_get (lit "name") ch)) Db.SNull
    (Db.bind (or_else (obj_get (lit "icon") ch) JNull)) Db.SNull
    Db.SNull Db.SNull Db.SNull Db.SNull (json_roundtrip ch)
    Db.is_hidden_default.

Definition insertChannels (sourceId : Z) (channels : list jsobj)
    : Db.t -> Db.t :=
  Db.set_playlist_items (fun table =>
    fold_left
      (fun table ch =>
         Db.upsert Db.item_conflict Db.channel_update
           (channel_row sourceId ch) table)
      channels table).

(** [p.start ? p.start.getTime() : 0] *)
Definition time_or_0 (d : option Z) : Z := default 0 d.

Definition program_row (sourceId : Z) (p : Db.programme) : Db.epg_program :=
  let f k := obj_get (lit k) (Db.p_props p) in
  Db.mkEpgProgram (Db.bind (f "channelId")) sourceId
    (time_or_0 (Db.p_start p)) (time_or_0 (Db.p_stop p)) (Db.bind (f "title"))
    (Db.bind (or_else (f "description") (f "desc"))) p.

(** [DELETE FROM epg_programs WHERE source_id = ?] *)
Definition deletePrograms (sourceId : Z) : Db.t -> Db.t :=
  Db.set_epg_programs
    (filter (fun r => Db.ep_source_id r <> sourceId)).

Definition insertMany (sourceId : Z) (progs : list Db.programme)
    : Db.t -> Db.t :=
  Db.set_epg_programs (fun table => table ++ map (program_row sourceId) progs).

Definition syncEpgFromUrl (env : Env) (sourceId : Z) (url : jsstring)
    : M unit :=
  parsed ← await (epg_fetchAndParse env url);
  modify_db (insertChannels sourceId parsed.1);;
  modify_db (deletePrograms sourceId);;
  modify_db (insertMany sourceId parsed.2).

(** *** syncXtream, syncM3u, syncEpg *)

Definition syncXtream (env : Env) (source : Source) : M unit :=
  let sid := src_id source in
  liveCats ← await (getLiveCategories env source);
  saveCategories sid (lit "live") liveCats;;
  liveStreams ← await (getLiveStreams env source);
  saveStreams sid (lit "live") liveStreams;;
  vodCats ← await (getVodCategories env source);
  saveCategories sid (lit "movie") vodCats;;
  vodStreams ← await (getVodStreams env source);
  saveStreams sid (lit "movie") vodStreams;;
  seriesCats ← await (getSeriesCategories env source);
  saveCategories sid (lit "series") seriesCats;;
  series ← await (getSeries env source);
  saveStreams sid (lit "series") series;;
  try_catch
    (xmltvUrl ← await (getXmltvUrl env source);
     syncEpgFromUrl env sid xmltvUrl)
    (fun _ => mret tt).

Definition group_category (g : jsobj) : jsobj :=
  [ (lit "category_id", obj_get (lit "name") g);
    (lit "category_name", obj_get (lit "name") g);
    (lit "parent_id", JNull) ].

Definition channel_item (ch : jsobj) : jsobj :=
  [ (lit "stream_id", obj_get (lit "id") ch);
    (lit "name", obj_get (lit "name") ch);
    (lit "category_id",
       or_else (obj_get (lit "groupTitle") ch) (JStr (lit "Uncategorized")));
    (lit "stream_icon", obj_get (lit "tvgLogo") ch);
    (lit "stream_url", obj_get (lit "url") ch) ].

Definition syncM3u (env : Env) (source : Source) : M unit :=
  parsed ← await (m3u_fetchAndParse env (src_url source));
  saveCategories (src_id source) (lit "live") (map group_category parsed.2);;
  saveStreams (src_id source) (lit "live") (map channel_item parsed.1).

Definition syncEpg (env : Env) (source : Source) : M unit :=
  syncEpgFromUrl env (src_id source) (src_url source).

(** *** syncSource and syncAll *)

(** The dispatch on [source.type]; a source of another type is left alone. *)
Definition dispatch (env : Env) (source : Source) : M unit :=
  if decide (src_type source = lit "xtream") then syncXtream env source
  else if decide (src_type source = lit "m3u") then syncM3u env source
  else if decide (src_type source = lit "epg") then syncEpg env source
  else mret tt.

Definition not_found (sourceId : Z) : jsstring :=
  lit "Source " ++ num_to_string sourceId ++ lit " not found".

(** The [try] block from the dispatch on: the routine, then the success
    status. *)
Definition run_routine (env : Env) (sourceId : Z) (source : Source) : M unit :=
  dispatch env source;;
  updateSyncStatus sourceId (lit "all") (lit "success") JNull.

(** The [try] block. *)
Definition try_block (env : Env) (sourceId : Z) : M unit :=
  match getById env sourceId with
  | None => throw (not_found sourceId)
  | Some source =>
      if negb (src_enabled source) then
        fun st => (Ok tt, delete_active sourceId st)
      else
        updateSyncStatus sourceId (lit "all") (lit "syncing") JNull;;
        run_routine env sourceId source
  end.

(** [try { m } catch (err) { updateSyncStatus(.., 'error', err.message) }
    finally { activeSyncs.delete(sourceId) }] *)
Definition guarded (sourceId : Z) (m : M unit) : M unit :=
  finally
    (try_catch m
       (fun message =>
          updateSyncStatus sourceId (lit "all") (lit "error") (JStr message)))
    (delete_active sourceId).

Definition syncSource (env : Env) (sourceId : Z) : M unit := fun st =>
  if decide (sourceId ∈ activeSyncs st) then (Ok tt, st)
  else guarded sourceId (try_block env sourceId) (add_active sourceId st).

Fixpoint for_each {A} (l : list A) (body : A -> M unit) : M unit :=
  match l with
  | [] => mret tt
  | a :: l' => body a;; for_each l' body
  end.

Definition syncAll (env : Env) : M unit :=
  try_catch
    (for_each (getAll env) (fun source =>
       if src_enabled source then syncSource env (src_id source)
       else mret tt))
    (fun _ => mret tt).

(** *** Calls in flight

    The service runs on one event loop: a call of [syncSource] runs
    atomically from one [await] to the next, and calls interleave at the
    awaits only. An execution in flight is suspended either at
    [await sources.getById(..)] or inside the routine it dispatched to. The
    routine itself is resumed in one piece: it touches neither [activeSyncs]
    nor [sync_status]. *)
Inductive exec : Type :=
| AwaitSource (sourceId : Z)
| AwaitRoutine (sourceId : Z) (source : Source).

Definition exec_source (e : exec) : Z :=
  match e with
  | AwaitSource sourceId => sourceId
  | AwaitRoutine sourceId _ => sourceId
  end.

(** The head of [syncSource], up to its first [await]: [None] when the
    guard returns at once. *)
Definition enter (sourceId : Z) (st : State) : option State :=
  if decide (sourceId ∈ activeSyncs st) then None
  else Some (add_active sourceId st).

(** An execution resumed from its suspension point: the state it leaves,
    and where it is suspended next ([None] when the call has returned). *)
Definition resume (env : Env) (e : exec) (st : State) : State * option exec :=
  match e with
  | AwaitSource sourceId =>
      match getById env sourceId with
      | None => ((guarded sourceId (throw (not_found sourceId)) st).2, None)
      | Some source =>
          if negb (src_enabled source) then
            ((guarded sourceId
                (fun st => (Ok tt, delete_active sourceId st)) st).2, None)
          else
            ((updateSyncStatus sourceId (lit "all") (lit "syncing") JNull st).2,
             Some (AwaitRoutine sourceId source))
      end
  | AwaitRoutine sourceId source =>
      ((guarded sourceId (run_routine env sourceId source) st).2, None)
  end.

Record Sys : Type := mkSys {
  sys_state : State;
  sys_running : list exec
}.

(** A call of [syncSource(sourceId)] arriving. *)
Definition call (sourceId : Z) (sys : Sys) : Sys :=
  match enter sourceId (sys_state sys) with
  | None => sys
  | Some st' => mkSys st' (sys_running sys ++ [AwaitSource sourceId])
  end.

Definition set_clock (now : Z) (st : State) : State :=
  mkState (activeSyncs st) (db st) now.

Inductive step (env : Env) : Sys -> Sys -> Prop :=
| step_call sourceId sys :
    step env sys (call sourceId sys)
| step_resume st before e after :
    step env (mkSys st (before ++ e :: after))
      (mkSys (resume env e st).1
         (before ++ option_list (resume env e st).2 ++ after))
| step_tick st running now :
    step env (mkSys st running) (mkSys (set_clock now st) running).

(** The service as the module is loaded: no sync active, none in flight. *)
Definition initial (d : Db.t) (now : Z) : Sys :=
  mkSys (mkState ∅ d now) [].

Inductive reachable (env : Env) : Sys -> Prop :=
| reachable_initial d now : reachable env (initial d now)
| reachable_step sys sys' :
    reachable env sys -> step env sys sys' -> reachable env sys'.

(** How many executions of a source are in flight. *)
Definition in_flight (sourceId : Z) (sys : Sys) : nat :=
  length (filter (fun e => exec_source e = sourceId) (sys_running sys)).

End SyncService.

(* ===================================================================== *)
(** ** server/routes/proxy.js                                             *)
(* ===================================================================== *)

Module Proxy.
Import Js.
Import SyncService.

(** What a handler sends: [res.end()], [res.send(text)], [res.json(..)] of
    an object or of an array, and the guide of [GET /epg/:sourceId]. *)
Inductive guide_channels : Type :=
| Stored (rows : list Db.playlist_item)
| Fallback (ids : list jsval).

Inductive body : Type :=
| Empty
| Text (s : jsstring)
| Json (o : jsobj)
| JsonArray (l : list jsobj)
| JsonGuide (channels : guide_channels) (programmes : list jsobj).

Record response : Type := mkResponse {
  status : Z;
  headers : list (list N * list N);
  payload : body
}.

(** A query parameter ([None] when absent) as the value [req.query] holds. *)
Definition query_value (q : option jsstring) : jsval :=
  match q with
  | Some s => JStr s
  | None => JUndefined
  end.

(** [q || d] for a query or path parameter. *)
Definition param_or (q : option jsstring) (d : jsstring) : jsstring :=
  match q with
  | Some (c :: s) => c :: s
  | _ => d
  end.

(** *** getStreamsFromDb *)

Definition selected (sourceId : Z) (type : jsstring) (categoryId : jsval)
    (includeHidden : bool) (r : Db.playlist_item) : bool :=
  bool_decide (Db.pi_source_id r = sourceId)
  && bool_decide (Db.pi_type r = type)
  && (includeHidden || (Db.pi_is_hidden r =? 0))
  && (if truthy categoryId
      then Db.sql_eq (Db.pi_category_id r) (Db.bind categoryId)
      else true).

(** [{ ...data, stream_id: .., series_id: .., name: .., .. }] *)
Definition stream_object (type : jsstring) (r : Db.playlist_item) : jsobj :=
  fold_left (fun o kv => obj_set kv.1 kv.2 o)
    [ (lit "stream_id", Db.read (Db.pi_item_id r));
      (lit "series_id",
         if decide (type = lit "series") then Db.read (Db.pi_item_id r)
         else JUndefined);
      (lit "name", Db.read (Db.pi_name r));
      (lit "stream_icon", Db.read (Db.pi_stream_icon r));
      (lit "cover", Db.read (Db.pi_stream_icon r));
      (lit "added", Db.read (Db.pi_added_at r));
      (lit "rating", Db.read (Db.pi_rating r));
      (lit "container_extension", Db.read (Db.pi_container_extension r));
      (lit "category_id", Db.read (Db.pi_category_id r)) ]
    (Db.pi_data r).

Definition getStreamsFromDb (d : Db.t) (sourceId : Z) (type : jsstring)
    (categoryId : jsval) (includeHidden : bool) : list jsobj :=
  map (stream_object type)
    (filter (fun r => selected sourceId type categoryId includeHidden r)
       (Db.playlist_items d)).

(** GET /xtream/:sourceId/live_streams, [sourceId] being
    [parseInt(req.params.sourceId)]. *)
Definition live_streams (d : Db.t) (sourceId : Z)
    (category_id includeHidden : option jsstring) : response :=
  mkResponse 200 []
    (JsonArray
       (getStreamsFromDb d sourceId (lit "live") (query_value category_id)
          (bool_decide (includeHidden = Some (lit "true"))))).

(** *** GET /xtream/:sourceId, series_info, vod_info *)

Definition upstream_error (message : jsstring) : response :=
  mkResponse 502 []
    (Json [ (lit "error", JStr (lit "Upstream error"));
            (lit "details", JStr message) ]).

(** [lookup] is the outcome of [sources.getById], [cached] what [cache.get]
    holds for the key, [authenticate] the outcome of the adapter call. *)
Definition xtream_auth (lookup : result (option Source))
    (cached : option jsobj) (authenticate : result jsobj) : response :=
  match lookup with
  | Throw message => upstream_error message
  | Ok None => mkResponse 404 [] (Text (lit "Source not found"))
  | Ok (Some source) =>
      if negb (bool_decide (src_type source = lit "xtream")) then
        mkResponse 404 [] (Text (lit "Source not found"))
      else
        match cached with
        | Some data => mkResponse 200 [] (Json data)
        | None =>
            match authenticate with
            | Ok data => mkResponse 200 [] (Json data)
            | Throw message => upstream_error message
            end
        end
  end.

(** The handlers of series_info and vod_info differ in the name of the
    parameter only: [what] is ["series_id"] or ["vod_id"]. *)
Definition xtream_info (what : jsstring) (lookup : result (option Source))
    (id : option jsstring) (cached : option jsobj) (info : result jsobj)
    : response :=
  match lookup with
  | Throw message => upstream_error message
  | Ok None => mkResponse 404 [] (Text (lit "Source not found"))
  | Ok (Some source) =>
      match id with
      | None | Some [] => mkResponse 400 [] (Text (what ++ lit " required"))
      | Some _ =>
          match cached with
          | Some data => mkResponse 200 [] (Json data)
          | None =>
              match info with
              | Ok data => mkResponse 200 [] (Json data)
              | Throw message => upstream_error message
              end
          end
      end
  end.

Definition series_info := xtream_info (lit "series_id").
Definition vod_info := xtream_info (lit "vod_id").

(** *** GET /xtream/:sourceId/stream/:streamId/:type *)

(** [s.replace(/\/$/, '')] *)
Definition strip_trailing_slash (s : jsstring) : jsstring :=
  match rev s with
  | c :: r => if N.eqb c 47 then rev r else s
  | [] => s
  end.

Definition xtream_url (baseUrl path : jsstring) (source : Source)
    (streamId container : jsstring) : jsstring :=
  baseUrl ++ lit "/" ++ path ++ lit "/" ++ to_string (src_username source)
    ++ lit "/" ++ to_string (src_password source) ++ lit "/" ++ streamId
    ++ lit "." ++ container.

Definition stream_url (lookup : result (option Source))
    (streamId type : jsstring) (container : option jsstring) : response :=
  match lookup with
  | Throw _ =>
      mkResponse 500 []
        (Json [ (lit "error", JStr (lit "Failed to get stream URL")) ])
  | Ok None =>
      mkResponse 404 []
        (Json [ (lit "error", JStr (lit "Xtream source not found")) ])
  | Ok (Some source) =>
      if negb (bool_decide (src_type source = lit "xtream")) then
        mkResponse 404 []
          (Json [ (lit "error", JStr (lit "Xtream source not found")) ])
      else
        let type := param_or (Some type) (lit "live") in
        let container := param_or container (lit "m3u8") in
        let baseUrl := strip_trailing_slash (src_url source) in
        let found path :=
          mkResponse 200 []
            (Json [ (lit "url",
                     JStr (xtream_url baseUrl path source streamId container)) ])
        in
        if decide (type = lit "live") then found (lit "live")
        else if decide (type = lit "movie") then found (lit "movie")
        else if decide (type = lit "series") then found (lit "series")
        else
          mkResponse 400 []
            (Json [ (lit "error", JStr (lit "Invalid stream type")) ])
  end.

(** *** GET /epg/:sourceId *)

Definition DAY_MS : Z := 24 * 60 * 60 * 1000.

Definition in_window (sourceId windowStart windowEnd : Z)
    (r : Db.epg_program) : bool :=
  bool_decide (Db.ep_source_id r = sourceId)
  && (windowStart <? Db.ep_end_time r)
  && (Db.ep_start_time r <? windowEnd).

(** [toISOString] is the rendering of [new Date(ms).toISOString()]. *)
Definition formatted_program (toISOString : Z -> jsstring)
    (r : Db.epg_program) : jsobj :=
  [ (lit "channelId", Db.read (Db.ep_channel_id r));
    (lit "start", JStr (toISOString (Db.ep_start_time r)));
    (lit "stop", JStr (toISOString (Db.ep_end_time r)));
    (lit "title", Db.read (Db.ep_title r));
    (lit "desc", Db.read (Db.ep_description r)) ].

(** [[...new Set(l)]]: the first occurrence of each value, in order. *)
Fixpoint unique_from (seen : list jsval) (l : list jsval) : list jsval :=
  match l with
  | [] => []
  | v :: l' =>
      if decide (v ∈ seen) then unique_from seen l'
      else v :: unique_from (v :: seen) l'
  end.

(** The programme rows of the window, [now1] and [now2] being the two
    readings of [Date.now()]. *)
Definition window_programs (d : Db.t) (sourceId now1 now2 : Z)
    : list Db.epg_program :=
  filter (fun r => in_window sourceId (now1 - DAY_MS) (now2 + DAY_MS) r)
    (Db.epg_programs d).

Definition epg (toISOString : Z -> jsstring) (d : Db.t)
    (sourceId now1 now2 : Z) : response :=
  let programs := window_programs d sourceId now1 now2 in
  let storedChannels :=
    filter (fun r => bool_decide (Db.pi_source_id r = sourceId)
                     && bool_decide (Db.pi_type r = lit "epg_channel"))
      (Db.playlist_items d) in
  mkResponse 200 []
    (JsonGuide
       (match storedChannels with
        | _ :: _ => Stored storedChannels
        | [] =>
            Fallback
              (unique_from []
                 (map (fun r => Db.read (Db.ep_channel_id r)) programs))
        end)
       (map (formatted_program toISOString) programs)).

(** *** rewriteM3u8 *)

(** [content.replace(/^(?!#)(.+)$/gm, f)]: with the [m] flag a match starts
    at the start of a line and, [.] matching every unit but a line
    terminator, runs to the end of the line; it is the whole line when the
    line is not empty and does not start with [#]. [line] is the line read
    so far, last unit first; [None] when [f] throws. *)
Definition replace_line (f : jsstring -> option jsstring) (line : jsstring)
    : option jsstring :=
  match line with
  | [] => Some []
  | c :: _ => if N.eqb c 35 then Some line else f line
  end.

Fixpoint replace_lines_from (f : jsstring -> option jsstring)
    (line : jsstring) (content : jsstring) : option jsstring :=
  match content with
  | [] => replace_line f (rev line)
  | c :: content' =>
      if is_line_terminator c then
        out ← replace_line f (rev line);
        rest ← replace_lines_from f [] content';
        Some (out ++ c :: rest)
      else replace_lines_from f (c :: line) content'
  end.

Definition replace_lines (f : jsstring -> option jsstring)
    (content : jsstring) : option jsstring :=
  replace_lines_from f [] content.

(** The callback of the replacement. *)
Definition rewrite_match (m3u8Base baseUrl : jsstring) (match_ : jsstring)
    : option jsstring :=
  let chunkUrl := trim match_ in
  let chunkUrl :=
    if startsWith chunkUrl (lit "http") then chunkUrl
    else m3u8Base ++ chunkUrl in
  encoded ← encodeURIComponent chunkUrl;
  Some (baseUrl ++ lit "?url=" ++ encoded).

(** The response of [fetch]: [ok], and the text of the body. *)
Record fetched : Type := mkFetched {
  f_ok : bool;
  f_status : Z;
  f_text : jsstring
}.

(** [None] is the [null] returned from the [catch]. *)
Definition rewriteM3u8 (upstream : result fetched) (m3u8Url baseUrl : jsstring)
    : option jsstring :=
  match upstream with
  | Throw _ => None
  | Ok response =>
      if negb (f_ok response) then None
      else
        let m3u8Base := substring0 m3u8Url (lastIndexOf m3u8Url 47 + 1) in
        replace_lines (rewrite_match m3u8Base baseUrl) (f_text response)
  end.

(** *** GET /stream and GET /image *)

(** What [lib.get(url, ..)] comes to: it throws at once (a URL it cannot
    parse); the request emits ['error'] before a response; the response
    arrives and is piped through; or the response arrives and ['error']
    follows when part of it has been written. *)
Inductive relay : Type :=
| GetThrows
| RequestError (message : jsstring)
| Piped (statusCode : Z) (hs : list (list N * list N)) (data : jsstring)
| PipedThenError (statusCode : Z) (hs : list (list N * list N))
    (written : jsstring).

(** The [Range] header forwarded to the upstream is part of the request,
    not of the response. [res.send] of a string adds the charset to the
    [Content-Type] set before it, so the manifest goes out as
    [application/vnd.apple.mpegurl; charset=utf-8]. *)
Definition stream (protocol host : jsstring) (url : option jsstring)
    (manifest : result fetched) (upstream : relay) : response :=
  match url with
  | None | Some [] => mkResponse 400 [] (Text (lit "URL required"))
  | Some url =>
      let rewritten :=
        if includes url (lit ".m3u8") then
          rewriteM3u8 manifest url
            (protocol ++ lit "://" ++ host ++ lit "/api/proxy/stream")
        else None in
      match rewritten with
      | Some (c :: text) =>
          mkResponse 200
            [ (lit "Content-Type",
               lit "application/vnd.apple.mpegurl; charset=utf-8") ]
            (Text (c :: text))
      | _ =>
          match upstream with
          | GetThrows => mkResponse 500 [] Empty
          | RequestError _ => mkResponse 502 [] Empty
          | Piped statusCode hs data => mkResponse statusCode hs (Text data)
          | PipedThenError statusCode hs written =>
              mkResponse statusCode hs (Text written)
          end
      end
  end.

(** The body Express writes with a redirect is left out. *)
Definition image (url : option jsstring) (upstream : relay) : response :=
  match url with
  | None | Some [] => mkResponse 400 [] (Text (lit "URL required"))
  | Some url =>
      if negb (startsWith url (lit "http")) then
        mkResponse 302 [ (lit "Location", url) ] Empty
      else
        let relayed hs :=
          filter (fun h => h.1 <> lit "access-control-allow-origin") hs
            ++ [ (lit "Access-Control-Allow-Origin", lit "*");
                 (lit "Cache-Control", lit "public, max-age=86400") ] in
        match upstream with
        | GetThrows => mkResponse 500 [] Empty
        | RequestError _ => mkResponse 404 [] Empty
        | Piped statusCode hs data =>
            mkResponse statusCode (relayed hs) (Text data)
        | PipedThenError statusCode hs written =>
            mkResponse statusCode (relayed hs) (Text written)
        end
  end.

End Proxy.

(* ===================================================================== *)
(** ** What the specification says, in its own words                      *)
(* ===================================================================== *)

Module Spec.
Import Js.
Import SyncService.

(** A manifest is a first line followed by terminated lines: every text is
    [manifest first rest] for one choice of lines free of terminators. *)
Definition manifest (first : jsstring) (rest : list (N * list N)) : jsstring :=
  first ++ concat (map (fun tl => tl.1 :: tl.2) rest).

Definition single_line (l : jsstring) : Prop :=
  forallb (fun c => negb (is_line_terminator c)) l = true.

(** The SyncStatus row of a source (scope ["all"]). *)
Definition status_row (d : Db.t) (sourceId : Z) : option Db.sync_status_row :=
  find
    (fun r => bool_decide (Db.ss_source_id r = sourceId)
              && bool_decide (Db.ss_type r = lit "all"))
    (Db.sync_status d).


(** The programme rows of a source. *)
Definition programs_of (d : Db.t) (sourceId : Z) : list Db.epg_program :=
  filter (fun r => Db.ep_source_id r = sourceId) (Db.epg_programs d).

(** The item id column a stream item is stored under. *)
Definition item_id (type : jsstring) (item : jsobj) : jsstring :=
  to_string (m_itemId (map_fields type item)).

(** The six catalog steps of an Xtream sync, in the order they run, and
    the message of the first one that fails. *)
Definition catalog_steps (env : Env) (source : Source)
    : list (result (list jsobj)) :=
  [ getLiveCategories env source; getLiveStreams env source;
    getVodCategories env source; getVodStreams env source;
    getSeriesCategories env source; getSeries env source ].

Fixpoint first_failure (steps : list (result (list jsobj)))
    : option jsstring :=
  match steps with
  | [] => None
  | Throw message :: _ => Some message
  | Ok _ :: steps' => first_failure steps'
  end.

(** The batches a schedule commits, in order. *)
Fixpoint batches (sched : list segment) : list (list jsobj) :=
  match sched with
  | [] => []
  | Transaction batch :: sched' => batch :: batches sched'
  | Yield :: sched' => batches sched'
  end.

(** The programme list of a guide response. *)
Definition served_programmes (r : Proxy.response) : list jsobj :=
  match Proxy.payload r with
  | Proxy.JsonGuide _ programmes => programmes
  | _ => []
  end.

(** The path segment of a stream type. *)
Definition type_path (type : jsstring) : option jsstring :=
  if decide (type = lit "live") then Some (lit "live")
  else if decide (type = lit "movie") then Some (lit "movie")
  else if decide (type = lit "series") then Some (lit "series")
  else None.

End Spec.

(* ===================================================================== *)
(** ** Invariants and auxiliary notions of the proofs                     *)
(* ===================================================================== *)

Module Inv.
Import Js.
Import SyncService.

(** A method keeps the frame when it touches neither [activeSyncs] nor the
    clock. *)
Definition keeps_frame {A} (m : M A) : Prop :=
  forall st, activeSyncs (m st).2 = activeSyncs st /\ clock (m st).2 = clock st.

(** The active set is the set of the sources with a call in flight, and no
    source has two. *)
Definition consistent (sys : Sys) : Prop :=
  NoDup (exec_source <$> sys_running sys)
  /\ forall sid, sid ∈ activeSyncs (sys_state sys)
                 <-> sid ∈ exec_source <$> sys_running sys.


(** The programme table after an ingest that parsed [progs]: the rows of
    the other sources, then one row per programme. *)
Definition replaced (sid : Z) (progs : list Db.programme)
    (table : list Db.epg_program) : list Db.epg_program :=
  filter (fun r => Db.ep_source_id r <> sid) table
    ++ (program_row sid <$> progs).

(** What a run of upserts keyed by [id] makes of a stored row: the update
    by the first of the new items (the only one, when their ids differ) with
    the id of the row. *)
Definition updated_by {A} (row : A -> Db.playlist_item)
    (update : Db.playlist_item -> Db.playlist_item -> Db.playlist_item)
    (news : list A) (r : Db.playlist_item) : Db.playlist_item :=
  match find (fun a => bool_decide (Db.pi_id (row a) = Db.pi_id r)) news with
  | Some a => update r (row a)
  | None => r
  end.

(** The new items whose id is not stored yet. *)
Definition fresh_of {A} (row : A -> Db.playlist_item) (news : list A)
    (table : list Db.playlist_item) : list A :=
  filter (fun a => Db.pi_id (row a) ∉ Db.pi_id <$> table) news.

End Inv.

(* ===================================================================== *)
(** ** The scenarios of the specification                                 *)
(* ===================================================================== *)

Module Scenario.
Import Js.
Import SyncService.

Definition provider : Source :=
  mkSource 1 (lit "xtream") (lit "Provider") (lit "http://h:8080/")
    (JStr (lit "u")) (JStr (lit "p")) true.

Definition news : jsobj :=
  [ (lit "category_id", JStr (lit "1"));
    (lit "category_name", JStr (lit "News")) ].

Definition cnn : jsobj :=
  [ (lit "stream_id", JNum 10);
    (lit "name", JStr (lit "CNN"));
    (lit "category_id", JStr (lit "1")) ].

Definition nothing : Source -> result (list jsobj) := fun _ => Ok [].

(** The provider with one live category and one live stream; its XMLTV
    feed cannot be fetched. *)
Definition env : Env :=
  mkEnv [provider] (fun _ => Ok [news]) (fun _ => Ok [cnn])
    nothing nothing nothing nothing
    (fun _ => Ok (lit "http://h:8080/xmltv.php"))
    (fun _ => Throw (lit "fetch failed"))
    (fun _ => Throw (lit "fetch failed")).

(** The same provider when its VOD stream list cannot be fetched. *)
Definition env_vod_down : Env :=
  mkEnv [provider] (fun _ => Ok [news]) (fun _ => Ok [cnn])
    nothing (fun _ => Throw (lit "HTTP 500")) nothing nothing
    (fun _ => Ok (lit "http://h:8080/xmltv.php"))
    (fun _ => Throw (lit "fetch failed"))
    (fun _ => Throw (lit "fetch failed")).

(** The same provider with a series whose id is the id of the live
    stream. *)
Definition show : jsobj :=
  [ (lit "series_id", JNum 10);
    (lit "name", JStr (lit "Show"));
    (lit "category_id", JStr (lit "5")) ].

Definition env_same_id : Env :=
  mkEnv [provider] (fun _ => Ok [news]) (fun _ => Ok [cnn])
    nothing nothing nothing (fun _ => Ok [show])
    (fun _ => Ok (lit "http://h:8080/xmltv.php"))
    (fun _ => Throw (lit "fetch failed"))
    (fun _ => Throw (lit "fetch failed")).

(** A fresh process on an empty database. *)
Definition idle : State := mkState ∅ Db.empty 0.


End Scenario.

(* ===================================================================== *)
(** ** server/routes/proxy.js: the catalog routes                         *)
(* ===================================================================== *)

Module Catalog.
Import Js.
Import SyncService.
Import Proxy.

Section Ordered.

(** [ORDER BY name ASC]: the rows in the order SQLite returns them. The
    collation, and the order of rows with the same name, are SQLite's. *)
Variable order_by_name : list Db.category -> list Db.category.

(** *** getCategoriesFromDb *)

Definition category_selected (sourceId : Z) (type : jsstring)
    (includeHidden : bool) (r : Db.category) : bool :=
  bool_decide (Db.cat_source_id r = sourceId)
  && bool_decide (Db.cat_type r = type)
  && (includeHidden || (Db.cat_is_hidden r =? 0)).

(** [SELECT category_id, name as category_name, parent_id] *)
Definition category_object (r : Db.category) : jsobj :=
  [ (lit "category_id", Db.read (Db.cat_category_id r));
    (lit "category_name", Db.read (Db.cat_name r));
    (lit "parent_id", Db.read (Db.cat_parent_id r)) ].

Definition getCategoriesFromDb (d : Db.t) (sourceId : Z) (type : jsstring)
    (includeHidden : bool) : list jsobj :=
  map category_object
    (order_by_name
       (filter (fun r => category_selected sourceId type includeHidden r)
          (Db.categories d))).

(** *** The category and stream routes

    GET /xtream/:sourceId/live_categories, vod_categories and
    series_categories differ in the type only, and so do live_streams,
    vod_streams and series. *)
Definition categories_route (type : jsstring) (d : Db.t) (sourceId : Z)
    (includeHidden : option jsstring) : response :=
  mkResponse 200 []
    (JsonArray
       (getCategoriesFromDb d sourceId type
          (bool_decide (includeHidden = Some (lit "true"))))).

Definition live_categories := categories_route (lit "live").
Definition vod_categories := categories_route (lit "movie").
Definition series_categories := categories_route (lit "series").

Definition streams_route (type : jsstring) (d : Db.t) (sourceId : Z)
    (category_id includeHidden : option jsstring) : response :=
  mkResponse 200 []
    (JsonArray
       (getStreamsFromDb d sourceId type (query_value category_id)
          (bool_decide (includeHidden = Some (lit "true"))))).

Definition vod_streams := streams_route (lit "movie").
Definition series := streams_route (lit "series").

(** *** GET /m3u/:sourceId *)

(** [{ ...c, id: .., groupTitle: .., url: .., tvgLogo: .. }] *)
Definition m3u_channel (c : jsobj) : jsobj :=
  fold_left (fun o kv => obj_set kv.1 kv.2 o)
    [ (lit "id", obj_get (lit "stream_id") c);
      (lit "groupTitle",
         or_else (obj_get (lit "category_id") c) (JStr (lit "Uncategorized")));
      (lit "url", or_else (obj_get (lit "stream_url") c) (obj_get (lit "url") c));
      (lit "tvgLogo", obj_get (lit "stream_icon") c) ]
    c.

Definition m3u_group (g : jsobj) : jsobj :=
  [ (lit "id", obj_get (lit "category_id") g);
    (lit "name", obj_get (lit "category_name") g);
    (lit "channelCount", JNum 0) ].

(** The [channels] and the [groups] of the object the route answers with. *)
Definition m3u (d : Db.t) (sourceId : Z) (includeHidden : option jsstring)
    : list jsobj * list jsobj :=
  let includeHidden := bool_decide (includeHidden = Some (lit "true")) in
  ( map m3u_channel (getStreamsFromDb d sourceId (lit "live") JNull includeHidden),
    map m3u_group (getCategoriesFromDb d sourceId (lit "live") includeHidden) ).

End Ordered.

End Catalog.

(* ===================================================================== *)
(** ** What a sync keeps                                                  *)
(* ===================================================================== *)

Module Frame.
Import Js.
Import SyncService.

(** A method respects a relation between databases when the database it
    leaves, thrown or not, is related to the one it started from. *)
Definition respects (R : Db.t -> Db.t -> Prop) {A} (m : M A) : Prop :=
  forall st, R (db st) (db (m st).2).

(** The columns of a stored playlist row that no statement of the service
    updates. *)
Definition same_item (old new : Db.playlist_item) : Prop :=
  Db.pi_id new = Db.pi_id old
  /\ Db.pi_source_id new = Db.pi_source_id old
  /\ Db.pi_item_id new = Db.pi_item_id old
  /\ Db.pi_type new = Db.pi_type old
  /\ Db.pi_stream_url new = Db.pi_stream_url old
  /\ Db.pi_rating new = Db.pi_rating old
  /\ Db.pi_year new = Db.pi_year old
  /\ Db.pi_added_at new = Db.pi_added_at old
  /\ Db.pi_is_hidden new = Db.pi_is_hidden old.

(** The same for a stored category. *)
Definition same_category (old new : Db.category) : Prop :=
  Db.cat_id new = Db.cat_id old
  /\ Db.cat_source_id new = Db.cat_source_id old
  /\ Db.cat_category_id new = Db.cat_category_id old
  /\ Db.cat_type new = Db.cat_type old
  /\ Db.cat_parent_id new = Db.cat_parent_id old
  /\ Db.cat_is_hidden new = Db.cat_is_hidden old.

(** A table extends another: the rows stored are still there, in place and
    the same up to [same], and new rows follow them. *)
Definition extends {R} (same : R -> R -> Prop) (t t' : list R) : Prop :=
  exists kept more, t' = kept ++ more /\ Forall2 same t kept.

Definition catalog_grows (d d' : Db.t) : Prop :=
  extends same_category (Db.categories d) (Db.categories d')
  /\ extends same_item (Db.playlist_items d) (Db.playlist_items d').

(** The primary keys: [id] of a category and of a playlist item,
    [(source_id, type)] of a sync status. *)
Definition keys_unique (d : Db.t) : Prop :=
  NoDup (Db.cat_id <$> Db.categories d)
  /\ NoDup (Db.pi_id <$> Db.playlist_items d)
  /\ NoDup ((fun r => (Db.ss_source_id r, Db.ss_type r)) <$> Db.sync_status d).

Definition keeps_keys (d d' : Db.t) : Prop := keys_unique d -> keys_unique d'.

(** A composite id names its source: it starts with the decimal source id
    and a colon. *)
Definition keyed_by (sid : Z) (id : jsstring) : bool :=
  startsWith id (num_to_string sid ++ lit ":").

(** Every catalog row is stored under a composite id of its own source. *)
Definition well_keyed (d : Db.t) : Prop :=
  Forall (fun r => keyed_by (Db.cat_source_id r) (Db.cat_id r) = true)
    (Db.categories d)
  /\ Forall (fun r => keyed_by (Db.pi_source_id r) (Db.pi_id r) = true)
       (Db.playlist_items d).

(** The rows of the sources other than [sid], table by table. *)
Definition other_categories (sid : Z) (d : Db.t) : list Db.category :=
  filter (fun r => Db.cat_source_id r <> sid) (Db.categories d).

Definition other_items (sid : Z) (d : Db.t) : list Db.playlist_item :=
  filter (fun r => Db.pi_source_id r <> sid) (Db.playlist_items d).

Definition other_programs (sid : Z) (d : Db.t) : list Db.epg_program :=
  filter (fun r => Db.ep_source_id r <> sid) (Db.epg_programs d).

Definition other_status (sid : Z) (d : Db.t) : list Db.sync_status_row :=
  filter (fun r => Db.ss_source_id r <> sid) (Db.sync_status d).

(** What a sync of [sid] leaves alone: the programmes and the status rows
    of the other sources, and, in a well keyed store, their catalog rows. *)
Definition isolated (sid : Z) (d d' : Db.t) : Prop :=
  other_programs sid d' = other_programs sid d
  /\ other_status sid d' = other_status sid d
  /\ (well_keyed d ->
      well_keyed d'
      /\ other_categories sid d' = other_categories sid d
      /\ other_items sid d' = other_items sid d).

(** A text without surrogate code units. *)
Definition no_surrogate (s : jsstring) : Prop :=
  Forall (fun c => is_high_surrogate c = false /\ is_low_surrogate c = false) s.

(** The categories, and the stream items, of a payload all have a row
    under their composite id. *)
Definition stored_categories (sid : Z) (cats : list jsobj) (d : Db.t) : Prop :=
  forall cat, cat ∈ cats ->
    composite_id sid (obj_get (lit "category_id") cat)
    ∈ Db.cat_id <$> Db.categories d.

Definition stored_streams (sid : Z) (type : jsstring) (items : list jsobj)
    (d : Db.t) : Prop :=
  forall item, item ∈ items ->
    composite_id sid (m_itemId (map_fields type item))
    ∈ Db.pi_id <$> Db.playlist_items d.

(** Every execution that is past its source lookup belongs to an enabled
    source of the configuration, whose status row says [syncing]. *)
Definition syncing (env : Env) (sys : Sys) : Prop :=
  forall sid source,
    AwaitRoutine sid source ∈ sys_running sys ->
    getById env sid = Some source
    /\ src_enabled source = true
    /\ exists t,
         Spec.status_row (db (sys_state sys)) sid
         = Some (Db.mkSyncStatus sid (lit "all") t (lit "syncing") Db.SNull).

End Frame.

(* ===================================================================== *)
(** ** Further scenarios                                                  *)
(* ===================================================================== *)

Module Cases.
Import Js.
Import SyncService.

(** A second source, an M3U playlist that is switched off. *)
Definition backup : Source :=
  mkSource 2 (lit "m3u") (lit "Backup") (lit "http://b/list.m3u")
    JUndefined JUndefined false.

(** The provider of the specification's scenario and the backup. *)
Definition env : Env :=
  mkEnv [Scenario.provider; backup]
    (fun _ => Ok [Scenario.news]) (fun _ => Ok [Scenario.cnn])
    Scenario.nothing Scenario.nothing Scenario.nothing Scenario.nothing
    (fun _ => Ok (lit "http://h:8080/xmltv.php"))
    (fun _ => Throw (lit "fetch failed"))
    (fun _ => Throw (lit "fetch failed")).

(** An M3U playlist of one channel in one group. *)
Definition playlist : Source :=
  mkSource 3 (lit "m3u") (lit "Playlist") (lit "http://p/list.m3u")
    JUndefined JUndefined true.

Definition one : jsobj :=
  [ (lit "id", JStr (lit "ch1"));
    (lit "name", JStr (lit "One"));
    (lit "groupTitle", JStr (lit "News"));
    (lit "tvgLogo", JStr (lit "http://l/1.png"));
    (lit "url", JStr (lit "http://s/1.ts")) ].

Definition env_m3u : Env :=
  mkEnv [playlist]
    Scenario.nothing Scenario.nothing Scenario.nothing Scenario.nothing
    Scenario.nothing Scenario.nothing
    (fun _ => Throw (lit "not an Xtream source"))
    (fun _ => Throw (lit "fetch failed"))
    (fun _ => Ok ([one], [ [ (lit "name", JStr (lit "News")) ] ])).

(** A standalone guide: one channel, a bulletin from 1000 to 2000 and a
    programme without a stop time. *)
Definition guide : Source :=
  mkSource 4 (lit "epg") (lit "Guide") (lit "http://g/epg.xml")
    JUndefined JUndefined true.

Definition bulletin : Db.programme :=
  Db.mkProgramme
    [ (lit "channelId", JStr (lit "ch1")); (lit "title", JStr (lit "News")) ]
    (Some 1000) (Some 2000).

Definition open_ended : Db.programme :=
  Db.mkProgramme
    [ (lit "channelId", JStr (lit "ch1")); (lit "title", JStr (lit "Late")) ]
    (Some 3000) None.

Definition tv : jsobj :=
  [ (lit "id", JStr (lit "ch1")); (lit "name", JStr (lit "One")) ].

Definition env_epg : Env :=
  mkEnv [guide]
    Scenario.nothing Scenario.nothing Scenario.nothing Scenario.nothing
    Scenario.nothing Scenario.nothing
    (fun _ => Throw (lit "not an Xtream source"))
    (fun _ => Ok ([tv], [bulletin; open_ended]))
    (fun _ => Throw (lit "fetch failed")).

(** The guide of the provider lists a channel under the id of the live
    stream of the scenario. *)
Definition channel_10 : jsobj :=
  [ (lit "id", JStr (lit "10")); (lit "name", JStr (lit "CNN HD")) ].

Definition env_clash : Env :=
  mkEnv [Scenario.provider]
    (fun _ => Ok [Scenario.news]) (fun _ => Ok [Scenario.cnn])
    Scenario.nothing Scenario.nothing Scenario.nothing Scenario.nothing
    (fun _ => Ok (lit "http://h:8080/xmltv.php"))
    (fun _ => Ok ([channel_10], []))
    (fun _ => Throw (lit "fetch failed")).

(** A source of a type the service does not know. *)
Definition odd : Source :=
  mkSource 5 (lit "plex") (lit "Odd") (lit "http://o/") JUndefined JUndefined
    true.

Definition env_odd : Env :=
  mkEnv [odd]
    Scenario.nothing Scenario.nothing Scenario.nothing Scenario.nothing
    Scenario.nothing Scenario.nothing
    (fun _ => Throw (lit "not an Xtream source"))
    (fun _ => Throw (lit "fetch failed"))
    (fun _ => Throw (lit "fetch failed")).

(** The M3U playlist when it cannot be fetched. *)
Definition env_m3u_down : Env :=
  mkEnv [playlist]
    Scenario.nothing Scenario.nothing Scenario.nothing Scenario.nothing
    Scenario.nothing Scenario.nothing
    (fun _ => Throw (lit "not an Xtream source"))
    (fun _ => Throw (lit "fetch failed"))
    (fun _ => Throw (lit "HTTP 404")).

(** The live stream of the scenario as a later sync finds it: renamed and
    moved to another category. *)
Definition cnn_renamed : jsobj :=
  [ (lit "stream_id", JNum 10);
    (lit "name", JStr (lit "CNN International"));
    (lit "category_id", JStr (lit "2"));
    (lit "added", JStr (lit "1700000000")) ].

(** The store after the live stream of the scenario has been saved. *)
Definition synced : State :=
  (saveStreams 1 (lit "live") [Scenario.cnn] Scenario.idle).2.

End Cases.

(* ===================================================================== *)
(** ** References and their resolution, in the terms of the specification *)
(* ===================================================================== *)

(** The specification speaks of the references of a manifest as URI
    references: an absolute reference carries a scheme, any other is
    relative and is resolved against the URL of the manifest. These are the
    notions of RFC 3986 (sections 3, 4.1 and 5.2), written down from the
    RFC and not from the rewriter. *)
Module Uri.
Import Js.

Definition is_alpha (c : N) : bool :=
  ((65 <=? c) && (c <=? 90) || (97 <=? c) && (c <=? 122))%N.

Definition is_digit (c : N) : bool := ((48 <=? c) && (c <=? 57))%N.

(** scheme = ALPHA *( ALPHA / DIGIT / "+" / "-" / "." ) *)
Definition is_scheme_char (c : N) : bool :=
  (is_alpha c || is_digit c || (c =? 43) || (c =? 45) || (c =? 46))%N.

(** The text before the first unit at which [stop] holds, and the rest. *)
Fixpoint span_until (stop : N -> bool) (s : jsstring) : jsstring * jsstring :=
  match s with
  | [] => ([], [])
  | c :: s' =>
      if stop c then ([], s)
      else let '(before, rest) := span_until stop s' in (c :: before, rest)
  end.

(** The scheme of a reference and what follows its colon. *)
Definition split_scheme (s : jsstring) : option (jsstring * jsstring) :=
  match span_until (fun c => negb (is_scheme_char c)) s with
  | (a :: scheme, c :: rest) =>
      if (is_alpha a && (c =? 58))%N then Some (a :: scheme, rest) else None
  | _ => None
  end.

(** A reference is absolute when it has a scheme, relative otherwise. *)
Definition is_absolute (s : jsstring) : bool :=
  match split_scheme s with
  | Some _ => true
  | None => false
  end.

(** The five components of a reference (section 3). *)
Record t : Type := mk {
  scheme : option jsstring;
  authority : option jsstring;
  path : jsstring;
  query : option jsstring;
  fragment : option jsstring
}.

Definition is_delimiter (c : N) : bool := ((c =? 47) || (c =? 63) || (c =? 35))%N.

Definition parse_hier (scheme : option jsstring) (s : jsstring) : t :=
  let '(authority, s1) :=
    if startsWith s (lit "//") then
      let '(a, r) := span_until is_delimiter (drop 2 s) in (Some a, r)
    else (None, s) in
  let '(path, s2) := span_until (fun c => (c =? 63) || (c =? 35))%N s1 in
  let '(query, s3) :=
    match s2 with
    | c :: r =>
        if (c =? 63)%N then
          let '(q, r') := span_until (fun c => c =? 35)%N r in (Some q, r')
        else (None, s2)
    | [] => (None, s2)
    end in
  let fragment :=
    match s3 with
    | c :: r => if (c =? 35)%N then Some r else None
    | [] => None
    end in
  mk scheme authority path query fragment.

Definition parse (s : jsstring) : t :=
  match split_scheme s with
  | Some (scheme, rest) => parse_hier (Some scheme) rest
  | None => parse_hier None s
  end.

(** *** Removing dot segments (section 5.2.4) *)

(** The output buffer without its last segment and the [/] before it. *)
Definition remove_last_segment (output : jsstring) : jsstring :=
  rev (drop 1 (drop_while (fun c => negb (c =? 47)%N) (rev output))).

(** Steps A to D: the input buffer they leave, and whether the last
    segment of the output is removed; [None] when none of them applies. *)
Definition dot_step (input : jsstring) : option (jsstring * bool) :=
  if startsWith input (lit "../") then Some (drop 3 input, false)
  else if startsWith input (lit "./") then Some (drop 2 input, false)
  else if startsWith input (lit "/./") then Some (drop 2 input, false)
  else if bool_decide (input = lit "/.") then Some (lit "/", false)
  else if startsWith input (lit "/../") then Some (drop 3 input, true)
  else if bool_decide (input = lit "/..") then Some (lit "/", true)
  else if bool_decide (input = lit "." \/ input = lit "..") then Some ([], false)
  else None.

(** Step E: the first path segment of the input buffer, with its initial
    [/] if any, up to the next [/], and the rest. *)
Definition first_segment (input : jsstring) : jsstring * jsstring :=
  match input with
  | [] => ([], [])
  | c :: r =>
      let '(segment, rest) := span_until (fun c => c =? 47)%N r in
      (c :: segment, rest)
  end.

(** The loop, one unit of fuel per step. *)
Fixpoint remove_dots (fuel : nat) (input output : jsstring) : jsstring :=
  match fuel, input with
  | O, _ | _, [] => output
  | S fuel', _ :: _ =>
      match dot_step input with
      | Some (input', pop) =>
          remove_dots fuel' input'
            (if pop then remove_last_segment output else output)
      | None =>
          let '(segment, rest) := first_segment input in
          remove_dots fuel' rest (output ++ segment)
      end
  end.

(** Every step shortens the input buffer: its length is fuel enough. *)
Definition remove_dot_segments (p : jsstring) : jsstring :=
  remove_dots (length p) p [].

(** *** Resolution (section 5.2.2) and recomposition (section 5.3) *)

(** The base path up to and including its last [/]. *)
Definition directory (p : jsstring) : jsstring :=
  rev (drop_while (fun c => negb (c =? 47)%N) (rev p)).

Definition merge (base : t) (p : jsstring) : jsstring :=
  match authority base, path base with
  | Some _, [] => lit "/" ++ p
  | _, _ => directory (path base) ++ p
  end.

Definition transform (base r : t) : t :=
  match scheme r with
  | Some s =>
      mk (Some s) (authority r) (remove_dot_segments (path r)) (query r)
        (fragment r)
  | None =>
      match authority r with
      | Some a =>
          mk (scheme base) (Some a) (remove_dot_segments (path r)) (query r)
            (fragment r)
      | None =>
          match path r with
          | [] =>
              mk (scheme base) (authority base) (path base)
                (match query r with Some q => Some q | None => query base end)
                (fragment r)
          | c :: _ =>
              mk (scheme base) (authority base)
                (if (c =? 47)%N then remove_dot_segments (path r)
                 else remove_dot_segments (merge base (path r)))
                (query r) (fragment r)
          end
      end
  end.

Definition recompose (u : t) : jsstring :=
  match scheme u with Some s => s ++ lit ":" | None => [] end
  ++ match authority u with Some a => lit "//" ++ a | None => [] end
  ++ path u
  ++ match query u with Some q => lit "?" ++ q | None => [] end
  ++ match fragment u with Some f => lit "#" ++ f | None => [] end.

(** A reference resolved against a base URL. *)
Definition resolve (base reference : jsstring) : jsstring :=
  recompose (transform (parse base) (parse reference)).

(** *** The manifest line the specification asks for *)

(** The target of a reference of the manifest at [m3u8Url]: the reference
    itself when it is absolute, the reference resolved against the URL of
    the manifest otherwise. *)
Definition target (m3u8Url reference : jsstring) : jsstring :=
  if is_absolute reference then reference else resolve m3u8Url reference.

(** A comment (and an empty line) as it is; a reference as the proxy base
    with the percent-encoded target as its [url] parameter. *)
Definition expected_line (m3u8Url proxyBase line : jsstring)
    : option jsstring :=
  match line with
  | [] => Some []
  | c :: _ =>
      if (c =? 35)%N then Some line
      else
        payload ← encodeURIComponent (target m3u8Url line);
        Some (proxyBase ++ lit "?url=" ++ payload)
  end.

(** *** Plain references

    The manifest URLs and the lines on which prefixing the manifest URL up
    to its last [/] is resolution: a URL of a scheme, an authority and a
    path without dot segments, query or fragment; and a line that is empty,
    a comment, an absolute reference that starts with [http], or a relative
    path that neither starts with [/] or [http] nor holds a dot segment, a
    query or a fragment. *)

(** A path segment that is no dot segment. *)
Definition segment (s : jsstring) : Prop :=
  Forall (fun c => is_delimiter c = false) s /\ s <> lit "." /\ s <> lit "..".

(** [/s1/s2/../sn] *)
Definition join (segments : list jsstring) : jsstring :=
  concat (map (cons 47%N) segments).

Inductive plain_url : jsstring -> Prop :=
| plain_url_intro a scheme authority dirs file :
    is_alpha a = true ->
    Forall (fun c => is_scheme_char c = true) scheme ->
    Forall (fun c => is_delimiter c = false) authority ->
    Forall segment dirs ->
    Forall (fun c => is_delimiter c = false) file ->
    plain_url
      ((a :: scheme) ++ lit "://" ++ authority ++ join dirs ++ lit "/" ++ file).

Inductive plain_line : jsstring -> Prop :=
| plain_empty : plain_line []
| plain_comment l : plain_line (35%N :: l)
| plain_absolute l :
    startsWith l (lit "http") = true ->
    is_absolute l = true ->
    trim l = l ->
    plain_line l
| plain_relative first more :
    first <> [] ->
    Forall segment (first :: more) ->
    is_absolute (first ++ join more) = false ->
    startsWith (first ++ join more) (lit "http") = false ->
    trim (first ++ join more) = first ++ join more ->
    plain_line (first ++ join more).

End Uri.

(* ===================================================================== *)
(** * Properties                                                         *)
(* ===================================================================== *)

Import Js SyncService Proxy Spec Inv.

(** ** Lists *)

Lemma filter_none {A} (P : A -> Prop) `{forall x, Decision (P x)} (l : list A) :
  Forall (fun x => ~ P x) l -> filter P l = [].
Proof.
  induction 1 as [|x l Hx _ IH]; [done|].
  by rewrite filter_cons, decide_False.
Qed.

Lemma filter_all {A} (P : A -> Prop) `{forall x, Decision (P x)} (l : list A) :
  Forall P l -> filter P l = l.
Proof.
  induction 1 as [|x l Hx _ IH]; [done|].
  by rewrite filter_cons, decide_True, IH.
Qed.

Lemma filter_ext_elem {A} (P Q : A -> Prop) `{forall x, Decision (P x)}
    `{forall x, Decision (Q x)} (l : list A) :
  (forall x, x ∈ l -> P x <-> Q x) -> filter P l = filter Q l.
Proof.
  induction l as [|a l IH]; intros Hiff; [done|].
  rewrite !filter_cons.
  rewrite IH by (intros x Hx; apply Hiff; by apply list_elem_of_further).
  apply decide_ext, Hiff, list_elem_of_here.
Qed.

Lemma filter_key_absent {A K} `{EqDecision K} (key : A -> K) (l : list A) k :
  k ∉ key <$> l -> filter (fun y => key y = k) l = [].
Proof.
  induction l as [|a l IH]; [done|].
  rewrite fmap_cons, not_elem_of_cons. intros [Hne Hnotin].
  rewrite filter_cons, decide_False by done. by apply IH.
Qed.

Lemma filter_key_singleton {A K} `{EqDecision K} (key : A -> K) (l : list A) x :
  NoDup (key <$> l) -> x ∈ l -> filter (fun y => key y = key x) l = [x].
Proof.
  induction l as [|a l IH]; [by intros _ ?%elem_of_nil|].
  rewrite fmap_cons, NoDup_cons. intros [Ha Hnd] Hx.
  rewrite filter_cons.
  apply elem_of_cons in Hx as [->|Hx].
  - rewrite decide_True by done. f_equal. by apply filter_key_absent.
  - rewrite decide_False; [by apply IH|].
    intros Heq. apply Ha. rewrite Heq. apply list_elem_of_fmap. by exists x.
Qed.

Lemma NoDup_fmap_elem_inj {A K} (key : A -> K) (l : list A) x y :
  NoDup (key <$> l) -> x ∈ l -> y ∈ l -> key x = key y -> x = y.
Proof.
  induction l as [|a l IH]; [by intros _ ?%elem_of_nil|].
  rewrite fmap_cons, NoDup_cons. intros [Ha Hnd] Hx Hy Heq.
  apply elem_of_cons in Hx as [->|Hx]; apply elem_of_cons in Hy as [->|Hy].
  - done.
  - exfalso. apply Ha. rewrite Heq. apply list_elem_of_fmap. by exists y.
  - exfalso. apply Ha. rewrite <- Heq. apply list_elem_of_fmap. by exists x.
  - by apply IH.
Qed.

Lemma filter_fmap_key {A B K} `{EqDecision K} (key : B -> K) (f : A -> B)
    (l : list A) k :
  filter (fun b => key b = k) (f <$> l) = f <$> filter (fun a => key (f a) = k) l.
Proof.
  induction l as [|a l IH]; [done|].
  rewrite fmap_cons, !filter_cons. case_decide; by rewrite ?fmap_cons, IH.
Qed.

(** ** The manifest rewriter *)

Section Manifest.
Variable f : list N -> option (list N).

Lemma replace_lines_from_line line acc content :
  single_line line ->
  replace_lines_from f acc (line ++ content)
  = replace_lines_from f (rev line ++ acc) content.
Proof.
  unfold single_line. revert acc.
  induction line as [|c line IH]; intros acc Hl; simpl in *; [done|].
  apply andb_prop in Hl as [Hc Hl].
  destruct (is_line_terminator c); [done|].
  rewrite IH by done. by rewrite <- app_assoc.
Qed.

Lemma replace_lines_manifest first rest :
  Forall single_line (first :: rest.*2) ->
  Forall (fun t => is_line_terminator t = true) rest.*1 ->
  replace_lines f (manifest first rest)
  = (first' ← replace_line f first;
     rest' ← mapM (fun tl => pair tl.1 <$> replace_line f tl.2) rest;
     Some (manifest first' rest')).
Proof.
  unfold replace_lines, manifest. revert first.
  induction rest as [|[t l] rest IH]; intros first Hl Ht.
  - simpl. rewrite app_nil_r.
    rewrite <- (app_nil_r first) at 1.
    rewrite replace_lines_from_line by (by inversion Hl).
    simpl. rewrite app_nil_r, rev_involutive.
    destruct (replace_line f first); simpl; [|done]. by rewrite app_nil_r.
  - inversion Hl as [|? ? Hfirst Hrest]; subst.
    inversion Ht as [|? ? Hterm Hts]; subst. simpl in *.
    rewrite replace_lines_from_line by done.
    simpl. rewrite Hterm, app_nil_r, rev_involutive.
    destruct (replace_line f first) as [first'|]; simpl; [|done].
    rewrite IH by done.
    destruct (replace_line f l) as [l'|]; simpl; [|done].
    destruct (mapM _ rest) as [rest'|]; simpl; [|done].
    done.
Qed.
End Manifest.

(** C4. The rewriter does not resolve references: it takes a line for
    absolute when its text starts with [http], and otherwise puts the
    manifest URL up to its last [/] in front of it. Under the manifest
    [http://h/path/live.m3u8] the reference [/seg1.ts], which resolves to
    [http://h/seg1.ts], is rewritten to a proxy URL for
    [http://h/path//seg1.ts]; the relative reference [httpdocs/c.ts] is
    taken for absolute and left unresolved; the absolute reference
    [HTTP://cdn/x.ts] is taken for relative and has the base put in front;
    and when the query of the manifest URL holds a [/], as in
    [http://h/path/live.m3u8?token=a/b], the base of [seg1.ts] is cut
    inside the query. A reference with white space around it is trimmed
    first, and a code unit beyond ASCII is encoded as its UTF-8 octets. *)
Theorem rewriteM3u8_unresolved_references (proxyBase : list N) (code : Z) :
  rewriteM3u8 (Ok (mkFetched true code (lit "/seg1.ts")))
    (lit "http://h/path/live.m3u8") proxyBase
  = Some (proxyBase ++ lit "?url=http%3A%2F%2Fh%2Fpath%2F%2Fseg1.ts")
  /\ lit "http%3A%2F%2Fh%2Fpath%2F%2Fseg1.ts" <> lit "http%3A%2F%2Fh%2Fseg1.ts"
  /\ rewriteM3u8 (Ok (mkFetched true code (lit "httpdocs/c.ts")))
       (lit "http://h/path/live.m3u8") proxyBase
     = Some (proxyBase ++ lit "?url=httpdocs%2Fc.ts")
  /\ lit "httpdocs%2Fc.ts" <> lit "http%3A%2F%2Fh%2Fpath%2Fhttpdocs%2Fc.ts"
  /\ rewriteM3u8 (Ok (mkFetched true code (lit "HTTP://cdn/x.ts")))
       (lit "http://h/path/live.m3u8") proxyBase
     = Some (proxyBase
             ++ lit "?url=http%3A%2F%2Fh%2Fpath%2FHTTP%3A%2F%2Fcdn%2Fx.ts")
  /\ lit "http%3A%2F%2Fh%2Fpath%2FHTTP%3A%2F%2Fcdn%2Fx.ts"
     <> lit "HTTP%3A%2F%2Fcdn%2Fx.ts"
  /\ rewriteM3u8 (Ok (mkFetched true code (lit "seg1.ts")))
       (lit "http://h/path/live.m3u8?token=a/b") proxyBase
     = Some (proxyBase
             ++ lit "?url=http%3A%2F%2Fh%2Fpath%2Flive.m3u8%3Ftoken%3Da%2Fseg1.ts")
  /\ lit "http%3A%2F%2Fh%2Fpath%2Flive.m3u8%3Ftoken%3Da%2Fseg1.ts"
     <> lit "http%3A%2F%2Fh%2Fpath%2Fseg1.ts"
  /\ rewriteM3u8
       (Ok (mkFetched true code (lit " /caf" ++ [233%N] ++ lit ".ts ")))
       (lit "http://h/path/live.m3u8") proxyBase
     = Some (proxyBase ++ lit "?url=http%3A%2F%2Fh%2Fpath%2F%2Fcaf%C3%A9.ts").
Proof.
  repeat split; first [reflexivity | discriminate].
Qed.

(** ** The monad of the service *)

Lemma keeps_frame_ret {A} (a : A) : keeps_frame (mret a).
Proof. by intros st. Qed.

Lemma keeps_frame_await {A} (r : result A) : keeps_frame (await r).
Proof. by intros st. Qed.

Lemma keeps_frame_modify_db f : keeps_frame (modify_db f).
Proof. by intros st. Qed.

Lemma keeps_frame_bind {A B} (m : M A) (k : A -> M B) :
  keeps_frame m -> (forall a, keeps_frame (k a)) -> keeps_frame (m ≫= k).
Proof.
  intros Hm Hk st. unfold mbind, M_bind.
  destruct (Hm st) as [Ha Hc]. destruct (m st) as [[a|e] st']; simpl in *.
  - destruct (Hk a st') as [Ha' Hc']. split; congruence.
  - done.
Qed.

Lemma keeps_frame_try_catch {A} (m : M A) h :
  keeps_frame m -> (forall e, keeps_frame (h e)) -> keeps_frame (try_catch m h).
Proof.
  intros Hm Hh st. unfold try_catch.
  destruct (Hm st) as [Ha Hc]. destruct (m st) as [[a|e] st']; simpl in *.
  - done.
  - destruct (Hh e st') as [Ha' Hc']. split; congruence.
Qed.

Lemma keeps_frame_updateSyncStatus sid type status err :
  keeps_frame (updateSyncStatus sid type status err).
Proof. by intros st. Qed.

Lemma keeps_frame_saveCategories sid type cats :
  keeps_frame (saveCategories sid type cats).
Proof. by destruct cats. Qed.

Lemma keeps_frame_saveStreams sid type items :
  keeps_frame (saveStreams sid type items).
Proof. by destruct items. Qed.

Create HintDb frame.
#[local] Hint Resolve keeps_frame_ret keeps_frame_await keeps_frame_modify_db
  keeps_frame_updateSyncStatus keeps_frame_saveCategories
  keeps_frame_saveStreams : frame.

Ltac frame :=
  repeat first
    [ apply keeps_frame_bind; [|intros ?]
    | apply keeps_frame_try_catch; [|intros ?]
    | solve [eauto with frame] ].

Lemma keeps_frame_syncEpgFromUrl env sid url :
  keeps_frame (syncEpgFromUrl env sid url).
Proof. unfold syncEpgFromUrl. frame. Qed.
#[local] Hint Resolve keeps_frame_syncEpgFromUrl : frame.

Lemma keeps_frame_dispatch env source : keeps_frame (dispatch env source).
Proof.
  unfold dispatch, syncXtream, syncM3u, syncEpg.
  repeat case_decide; frame.
Qed.
#[local] Hint Resolve keeps_frame_dispatch : frame.

Lemma keeps_frame_run_routine env sid source :
  keeps_frame (run_routine env sid source).
Proof. unfold run_routine. frame. Qed.

(** ** SyncStatus *)

Lemma status_row_upsert new table :
  Db.ss_type new = lit "all" ->
  find
    (fun r => bool_decide (Db.ss_source_id r = Db.ss_source_id new)
              && bool_decide (Db.ss_type r = lit "all"))
    (Db.upsert Db.status_conflict Db.status_update new table)
  = Some new.
Proof.
  intros Hall. induction table as [|old table IH]; simpl.
  - rewrite Hall. by rewrite !bool_decide_eq_true_2 by done.
  - unfold Db.status_conflict at 1. rewrite Hall.
    destruct (bool_decide (Db.ss_source_id old = Db.ss_source_id new)
              && bool_decide (Db.ss_type old = lit "all")) eqn:E; simpl.
    + apply andb_prop in E as [E1 E2].
      apply bool_decide_eq_true in E1, E2. rewrite E1, E2.
      rewrite !bool_decide_eq_true_2 by done. simpl.
      f_equal. unfold Db.status_update. destruct new; simpl in *.
      by rewrite E1, E2, Hall.
    + by rewrite E.
Qed.

Lemma status_row_updateSyncStatus sid status err st :
  status_row (db (updateSyncStatus sid (lit "all") status err st).2) sid
  = Some (Db.mkSyncStatus sid (lit "all") (clock st) status (Db.bind err)).
Proof.
  unfold status_row, updateSyncStatus. simpl.
  by rewrite (status_row_upsert
                (Db.mkSyncStatus sid (lit "all") (clock st) status (Db.bind err))).
Qed.

(** ** syncSource *)

Lemma guarded_ok sid m st : (guarded sid m st).1 = Ok tt.
Proof.
  unfold guarded, finally, try_catch.
  destruct (m st) as [[[]|e] st']; simpl; done.
Qed.

Lemma guarded_active sid m st :
  keeps_frame m ->
  activeSyncs (guarded sid m st).2 = activeSyncs st ∖ {[ sid ]}.
Proof.
  intros Hm. unfold guarded, finally, try_catch.
  destruct (Hm st) as [Ha _].
  destruct (m st) as [[[]|e] st']; simpl in *; by rewrite Ha.
Qed.

Lemma syncSource_ok env sid st : (syncSource env sid st).1 = Ok tt.
Proof.
  unfold syncSource. case_decide; [done|apply guarded_ok].
Qed.

Lemma try_block_active env sid st :
  activeSyncs (try_block env sid st).2 = activeSyncs st
  \/ activeSyncs (try_block env sid st).2 = activeSyncs st ∖ {[ sid ]}.
Proof.
  unfold try_block. destruct (getById env sid) as [source|]; [|by left].
  destruct (src_enabled source); simpl; [|by right].
  left. apply keeps_frame_bind; [frame|intros ?].
  apply keeps_frame_run_routine.
Qed.

Lemma syncSource_releases env sid st :
  sid ∉ activeSyncs st ->
  activeSyncs (syncSource env sid st).2 = activeSyncs st.
Proof.
  intros Hsid. unfold syncSource. rewrite decide_False by done.
  unfold guarded, finally, try_catch.
  destruct (try_block_active env sid (add_active sid st)) as [Ha|Ha];
  destruct (try_block env sid (add_active sid st)) as [[[]|e] st'];
    simpl in *; rewrite Ha; apply set_eq; intros x;
    rewrite ?elem_of_difference, elem_of_union, elem_of_singleton;
    intuition congruence.
Qed.

(** ** Calls in flight *)

Lemma resume_spec env e st :
  (activeSyncs (resume env e st).1 = activeSyncs st
   /\ exists e', (resume env e st).2 = Some e' /\ exec_source e' = exec_source e)
  \/ (activeSyncs (resume env e st).1 = activeSyncs st ∖ {[ exec_source e ]}
      /\ (resume env e st).2 = None).
Proof.
  destruct e as [sid|sid source]; unfold resume.
  - destruct (getById env sid) as [source|].
    + destruct (src_enabled source); cbn [negb fst snd].
      * left. split; [done|]. by eexists.
      * right. split; [|done]. cbn.
        apply set_eq; intros x. rewrite !elem_of_difference. tauto.
    + right. cbn [fst snd]. split; [|done]. by apply guarded_active.
  - right. cbn [fst snd]. split; [|done].
    apply guarded_active, keeps_frame_run_routine.
Qed.

Lemma consistent_initial d now : consistent (initial d now).
Proof.
  split; simpl; [constructor|].
  intros sid. rewrite elem_of_empty, elem_of_nil. done.
Qed.

Lemma consistent_call sid sys : consistent sys -> consistent (call sid sys).
Proof.
  intros [Hnd Hiff]. unfold call, enter.
  case_decide as Hin; [done|].
  split; simpl.
  - rewrite fmap_app. apply NoDup_app. split; [done|]. split.
    + intros x Hx ->%list_elem_of_singleton. by apply Hin, Hiff.
    + apply NoDup_singleton.
  - intros x. rewrite fmap_app, elem_of_app, elem_of_union, elem_of_singleton.
    simpl. rewrite list_elem_of_singleton, Hiff. tauto.
Qed.

Lemma consistent_resume env st before e after :
  consistent (mkSys st (before ++ e :: after)) ->
  consistent
    (mkSys (resume env e st).1
       (before ++ option_list (resume env e st).2 ++ after)).
Proof.
  intros [Hnd Hiff]. simpl in *.
  destruct (resume_spec env e st) as [[Ha (e' & -> & He')]|[Ha ->]];
    split; simpl; rewrite ?Ha.
  - revert Hnd. by rewrite !fmap_app, !fmap_cons, He'.
  - intros x. rewrite Hiff. by rewrite !fmap_app, !fmap_cons, He'.
  - revert Hnd. rewrite !fmap_app, fmap_cons.
    rewrite !NoDup_app, NoDup_cons. setoid_rewrite elem_of_cons.
    intros (Hb & Hdisj & Hne & Ha'). split; [done|]. split; [|done].
    intros y Hy Hy'. apply (Hdisj y Hy). by right.
  - intros x. rewrite elem_of_difference, elem_of_singleton, Hiff.
    revert Hnd. rewrite !fmap_app, fmap_cons.
    rewrite NoDup_app, NoDup_cons, !elem_of_app, elem_of_cons.
    setoid_rewrite elem_of_cons.
    intros (Hb & Hdisj & Hne & Ha').
    split.
    + intros [[Hx|[Hx|Hx]] Hxe]; [by left|done|by right].
    + intros [Hx|Hx]; (split; [tauto|]); intros ->.
      * apply (Hdisj _ Hx). by left.
      * done.
Qed.

Lemma reachable_consistent env sys : reachable env sys -> consistent sys.
Proof.
  induction 1 as [d now|sys sys' _ IH Hstep]; [apply consistent_initial|].
  destruct Hstep.
  - by apply consistent_call.
  - by apply consistent_resume.
  - done.
Qed.

Lemma filter_source_nil sid (l : list exec) :
  sid ∉ exec_source <$> l -> filter (fun e => exec_source e = sid) l = [].
Proof.
  induction l as [|e l IH]; [done|].
  rewrite fmap_cons, not_elem_of_cons. intros [Hne Hl].
  rewrite filter_cons, decide_False by done. auto.
Qed.

Lemma in_flight_le_1 sid sys : consistent sys -> (in_flight sid sys <= 1)%nat.
Proof.
  intros [Hnd _]. unfold in_flight. revert Hnd.
  induction (sys_running sys) as [|e l IH]; simpl; [lia|].
  rewrite NoDup_cons. intros [Hnotin Hnd].
  rewrite filter_cons. case_decide as He; simpl; [|auto].
  subst sid. rewrite filter_source_nil by done. simpl. lia.
Qed.

Lemma in_flight_active sid sys :
  consistent sys -> sid ∈ activeSyncs (sys_state sys) -> in_flight sid sys = 1%nat.
Proof.
  intros Hc Hin. pose proof (in_flight_le_1 sid sys Hc) as Hle.
  destruct Hc as [_ Hiff]. apply Hiff in Hin.
  unfold in_flight in *.
  destruct (filter (fun e => exec_source e = sid) (sys_running sys)) eqn:E;
    simpl in *; [|lia].
  exfalso. apply list_elem_of_fmap in Hin as (e & -> & He).
  assert (e ∈ filter (fun e0 => exec_source e0 = exec_source e) (sys_running sys))
    as Hf by (by apply list_elem_of_filter).
  rewrite E in Hf. by apply elem_of_nil in Hf.
Qed.

(** C1. In every state the service can reach, a call of [syncSource] for a
    source whose id is in the active set returns at once without an error
    and leaves the whole state, [sync_status] included, as it was; exactly
    one execution of that source is in flight, and no source ever has more
    than one. *)
Theorem syncSource_at_most_once (env : Env) (sys : Sys) (sourceId : Z)
    (Hreach : reachable env sys)
    (Hactive : sourceId ∈ activeSyncs (sys_state sys)) :
  syncSource env sourceId (sys_state sys) = (Ok tt, sys_state sys)
  /\ call sourceId sys = sys
  /\ in_flight sourceId sys = 1%nat
  /\ forall s, (in_flight s sys <= 1)%nat.
Proof.
  pose proof (reachable_consistent env sys Hreach) as Hc.
  split; [|split; [|split]].
  - unfold syncSource. by rewrite decide_True.
  - unfold call, enter. by rewrite decide_True.
  - by apply in_flight_active.
  - intros s. by apply in_flight_le_1.
Qed.

(** ** Running the service *)

Lemma bind_await_ok {A B} (v : A) (k : A -> M B) st :
  (await (Ok v) ≫= k) st = k v st.
Proof. done. Qed.

Lemma bind_await_throw {A B} e (k : A -> M B) st :
  (await (Throw e) ≫= k) st = (Throw e, st).
Proof. done. Qed.

Lemma bind_ok {B} (m : M unit) (k : unit -> M B) st :
  (m st).1 = Ok tt -> (m ≫= k) st = k tt (m st).2.
Proof.
  unfold mbind, M_bind. destruct (m st) as [r st']. simpl. by intros ->.
Qed.

(** A call of [syncSource] that nothing interleaves with is its head
    followed by its resumptions: the executions in flight are executions of
    the method. *)
Lemma syncSource_by_steps env sid st :
  (syncSource env sid st).2
  = match enter sid st with
    | None => st
    | Some st1 =>
        match (resume env (AwaitSource sid) st1).2 with
        | None => (resume env (AwaitSource sid) st1).1
        | Some e => (resume env e (resume env (AwaitSource sid) st1).1).1
        end
    end.
Proof.
  unfold syncSource, enter. case_decide; [done|].
  unfold try_block. cbv beta iota delta [resume].
  destruct (getById env sid) as [source|]; [|reflexivity].
  destruct (src_enabled source); cbn [negb fst snd]; [|reflexivity].
  unfold guarded, finally, try_catch. by rewrite bind_ok.
Qed.

Lemma saveCategories_ok sid type cats st :
  (saveCategories sid type cats st).1 = Ok tt.
Proof. by destruct cats. Qed.

Lemma saveStreams_ok sid type items st :
  (saveStreams sid type items st).1 = Ok tt.
Proof. by destruct items. Qed.

Lemma try_catch_swallow (m : M unit) st :
  (try_catch m (fun _ => mret tt) st).1 = Ok tt.
Proof. unfold try_catch. by destruct (m st) as [[[]|e] st']. Qed.

Ltac catalog_step r :=
  destruct r as [?|?];
  [ rewrite bind_await_ok;
    rewrite bind_ok by first [apply saveCategories_ok | apply saveStreams_ok]
  | by rewrite bind_await_throw ].

(** The outcome of the Xtream routine is the outcome of its six catalog
    steps: what the EPG step does is not seen. *)
Lemma syncXtream_outcome env source st :
  (syncXtream env source st).1
  = match first_failure (catalog_steps env source) with
    | Some message => Throw message
    | None => Ok tt
    end.
Proof.
  unfold syncXtream, catalog_steps. cbn [first_failure].
  catalog_step (getLiveCategories env source).
  catalog_step (getLiveStreams env source).
  catalog_step (getVodCategories env source).
  catalog_step (getVodStreams env source).
  catalog_step (getSeriesCategories env source).
  catalog_step (getSeries env source).
  apply try_catch_swallow.
Qed.

Lemma dispatch_xtream env source :
  src_type source = lit "xtream" -> dispatch env source = syncXtream env source.
Proof. intros H. unfold dispatch. by rewrite decide_True. Qed.

Lemma syncSource_run env sid source st :
  sid ∉ activeSyncs st ->
  getById env sid = Some source ->
  src_enabled source = true ->
  syncSource env sid st
  = guarded sid (run_routine env sid source)
      (updateSyncStatus sid (lit "all") (lit "syncing") JNull
         (add_active sid st)).2.
Proof.
  intros Hsid Hsrc Hen. unfold syncSource. rewrite decide_False by done.
  unfold try_block. rewrite Hsrc, Hen. cbn [negb].
  unfold guarded, finally, try_catch. by rewrite bind_ok.
Qed.

Lemma run_routine_throw env sid source st e :
  (dispatch env source st).1 = Throw e ->
  run_routine env sid source st = (Throw e, (dispatch env source st).2).
Proof.
  unfold run_routine, mbind, M_bind.
  destruct (dispatch env source st) as [[r|e'] st']; simpl; [done|].
  by intros [= ->].
Qed.

Lemma run_routine_ok env sid source st :
  (dispatch env source st).1 = Ok tt ->
  run_routine env sid source st
  = updateSyncStatus sid (lit "all") (lit "success") JNull
      (dispatch env source st).2.
Proof. intros H. unfold run_routine. by rewrite bind_ok. Qed.

(** The status a sync leaves: the outcome of the routine decides. *)
Lemma syncSource_status env sid source st :
  sid ∉ activeSyncs st ->
  getById env sid = Some source ->
  src_enabled source = true ->
  let st1 := (updateSyncStatus sid (lit "all") (lit "syncing") JNull
                (add_active sid st)).2 in
  status_row (db (syncSource env sid st).2) sid
  = Some (Db.mkSyncStatus sid (lit "all") (clock st)
            (match (dispatch env source st1).1 with
             | Ok _ => lit "success" | Throw _ => lit "error" end)
            (match (dispatch env source st1).1 with
             | Ok _ => Db.SNull | Throw e => Db.SText e end)).
Proof.
  intros Hsid Hsrc Hen st1.
  rewrite (syncSource_run env sid source) by done. fold st1.
  destruct (keeps_frame_dispatch env source st1) as [_ Hc].
  unfold guarded, finally, try_catch.
  destruct (dispatch env source st1) as [[[]|e] st2] eqn:E; cbn [fst] in *.
  - rewrite run_routine_ok by (by rewrite E). rewrite E. cbn [fst snd].
    change (clock st) with (clock st1). rewrite <- Hc.
    apply (status_row_updateSyncStatus sid (lit "success") JNull st2).
  - rewrite (run_routine_throw _ _ _ _ e) by (by rewrite E). rewrite E.
    cbn [fst snd]. change (clock st) with (clock st1). rewrite <- Hc.
    apply (status_row_updateSyncStatus sid (lit "error") (JStr e) st2).
Qed.

Lemma for_each_total {A} (body : A -> M unit) (l : list A) :
  (forall a st, (body a st).1 = Ok tt) ->
  forall st,
    for_each l body st = (Ok tt, fold_left (fun st a => (body a st).2) l st).
Proof.
  intros Hbody. induction l as [|a l IH]; intros st; [done|].
  cbn [for_each fold_left]. rewrite bind_ok by apply Hbody. apply IH.
Qed.

(** C7. When the routine [syncSource] dispatched to throws, [syncSource]
    itself returns normally, the SyncStatus row of the source has status
    [error] with the message thrown, and the source is no longer in the
    active set; [syncSource] never throws and always leaves the active set
    without the source it was started for, and [syncAll] runs [syncSource]
    for every enabled source in turn, whatever the earlier ones did. *)
Theorem syncSource_records_failure (env : Env) (st : State) (sourceId : Z)
    (source : Source) (message : list N)
    (Hidle : sourceId ∉ activeSyncs st)
    (Hsource : getById env sourceId = Some source)
    (Henabled : src_enabled source = true)
    (Hthrows :
       (dispatch env source
          (updateSyncStatus sourceId (lit "all") (lit "syncing") JNull
             (add_active sourceId st)).2).1 = Throw message) :
  (syncSource env sourceId st).1 = Ok tt
  /\ status_row (db (syncSource env sourceId st).2) sourceId
     = Some (Db.mkSyncStatus sourceId (lit "all") (clock st) (lit "error")
               (Db.SText message))
  /\ (sourceId ∉ activeSyncs (syncSource env sourceId st).2)
  /\ (forall env' st' s,
        (syncSource env' s st').1 = Ok tt
        /\ (s ∉ activeSyncs st' -> s ∉ activeSyncs (syncSource env' s st').2))
  /\ (forall env' st',
        syncAll env' st'
        = (Ok tt,
           fold_left
             (fun st0 src =>
                if src_enabled src then (syncSource env' (src_id src) st0).2
                else st0)
             (getAll env') st')).
Proof.
  split; [apply syncSource_ok|].
  split.
  { rewrite (syncSource_status env sourceId source) by done.
    cbv zeta. by rewrite Hthrows. }
  split; [by rewrite syncSource_releases|].
  split.
  { intros env' st' s. split; [apply syncSource_ok|].
    intros Hs. by rewrite syncSource_releases. }
  intros env' st'. unfold syncAll, try_catch.
  rewrite for_each_total.
  - f_equal. revert st'.
    induction (getAll env') as [|src l IH]; intros st'; [done|].
    cbn [fold_left]. rewrite <- IH. by destruct (src_enabled src).
  - intros src st0. destruct (src_enabled src); [apply syncSource_ok|done].
Qed.

(** C10. A call of [syncSource] for an id that no source record has
    returns normally: the SyncStatus row of that id is upserted with status
    [error] and the message [Source <id> not found], the id is not in the
    active set afterwards, and the catalog tables are untouched. *)
Theorem syncSource_unknown_source (env : Env) (st : State) (sourceId : Z)
    (Hidle : sourceId ∉ activeSyncs st)
    (Hmissing : getById env sourceId = None) :
  let st' := (syncSource env sourceId st).2 in
  (syncSource env sourceId st).1 = Ok tt
  /\ status_row (db st') sourceId
     = Some (Db.mkSyncStatus sourceId (lit "all") (clock st) (lit "error")
               (Db.SText
                  (lit "Source " ++ num_to_string sourceId ++ lit " not found")))
  /\ (sourceId ∉ activeSyncs st')
  /\ activeSyncs st' = activeSyncs st
  /\ Db.categories (db st') = Db.categories (db st)
  /\ Db.playlist_items (db st') = Db.playlist_items (db st)
  /\ Db.epg_programs (db st') = Db.epg_programs (db st).
Proof.
  intros st'.
  split; [apply syncSource_ok|].
  assert (activeSyncs st' = activeSyncs st) as Ha
    by (by apply syncSource_releases).
  split; [|split; [by rewrite Ha|split; [done|]]].
  - subst st'. unfold syncSource. rewrite decide_False by done.
    unfold try_block. rewrite Hmissing.
    apply (status_row_updateSyncStatus sourceId (lit "error")
             (JStr (not_found sourceId)) (add_active sourceId st)).
  - subst st'. unfold syncSource. rewrite decide_False by done.
    unfold try_block. by rewrite Hmissing.
Qed.

(** C6. The Xtream routine throws exactly when one of its six catalog
    steps does, with the message of the first that fails, whatever the EPG
    step does; a sync of an enabled Xtream source records status [success]
    when the six steps succeed and status [error] with that message
    otherwise. *)
Theorem syncXtream_epg_best_effort (env : Env) (st : State) (sourceId : Z)
    (source : Source)
    (Hidle : sourceId ∉ activeSyncs st)
    (Hsource : getById env sourceId = Some source)
    (Henabled : src_enabled source = true)
    (Hxtream : src_type source = lit "xtream") :
  (forall st0,
     (syncXtream env source st0).1
     = match first_failure (catalog_steps env source) with
       | Some message => Throw message
       | None => Ok tt
       end)
  /\ (syncSource env sourceId st).1 = Ok tt
  /\ status_row (db (syncSource env sourceId st).2) sourceId
     = Some
         (match first_failure (catalog_steps env source) with
          | Some message =>
              Db.mkSyncStatus sourceId (lit "all") (clock st) (lit "error")
                (Db.SText message)
          | None =>
              Db.mkSyncStatus sourceId (lit "all") (clock st) (lit "success")
                Db.SNull
          end).
Proof.
  split; [intros st0; apply syncXtream_outcome|].
  split; [apply syncSource_ok|].
  rewrite (syncSource_status env sourceId source) by done. cbv zeta.
  rewrite dispatch_xtream by done. rewrite syncXtream_outcome.
  by destruct (first_failure (catalog_steps env source)).
Qed.

(** ** The batch loop *)

Lemma batch_loop_done fuel i items :
  (length items <= i)%nat -> batch_loop fuel i items = [].
Proof.
  intros H. destruct fuel; [done|]. simpl.
  by rewrite (proj2 (Nat.ltb_ge i (length items))).
Qed.

Lemma batch_loop_step fuel i items :
  (i < length items)%nat ->
  batch_loop (S fuel) i items
  = Transaction (slice i (i + BATCH_SIZE) items) :: Yield
      :: batch_loop fuel (i + BATCH_SIZE) items.
Proof.
  intros H. simpl. by rewrite (proj2 (Nat.ltb_lt i (length items))).
Qed.

(** The fuel does not run out: the batches are the items from [i] on. *)
Lemma batch_loop_concat fuel : forall i items,
  (length items <= i + fuel)%nat ->
  concat (batches (batch_loop fuel i items)) = drop i items.
Proof.
  induction fuel as [|fuel IH]; intros i items Hfuel.
  - simpl. rewrite drop_ge; [done|lia].
  - destruct (decide (i < length items)%nat) as [Hlt|Hge].
    + rewrite batch_loop_step by done. cbn [batches concat].
      rewrite IH by (unfold BATCH_SIZE; lia).
      unfold slice.
      replace (i + BATCH_SIZE - i)%nat with BATCH_SIZE by lia.
      rewrite <- drop_drop. apply take_drop.
    + rewrite batch_loop_done by lia. simpl. rewrite drop_ge; [done|lia].
Qed.

Lemma schedule_concat items : concat (batches (schedule items)) = items.
Proof. unfold schedule. by rewrite batch_loop_concat by lia. Qed.



Lemma run_schedule_batches insertRow sched d :
  run_schedule insertRow sched d
  = fold_left (fun d item => insertRow item d) (concat (batches sched)) d.
Proof.
  unfold run_schedule. revert d.
  induction sched as [|[batch|] sched IH]; intros d; cbn [fold_left batches concat].
  - done.
  - rewrite IH. simpl. by rewrite fold_left_app.
  - rewrite IH. done.
Qed.

(** ** Upserts of new rows *)

Lemma upsert_fresh {R} (conflict : R -> R -> bool) update new table :
  (forall old, old ∈ table -> conflict old new = false) ->
  Db.upsert conflict update new table = table ++ [new].
Proof.
  induction table as [|old table IH]; intros Hfresh; [done|].
  simpl. rewrite Hfresh by apply list_elem_of_here.
  f_equal. apply IH. intros r Hr. apply Hfresh. by apply list_elem_of_further.
Qed.

Lemma upsert_all_fresh {A} (row : A -> Db.playlist_item) update items :
  forall table,
  NoDup (Db.pi_id ∘ row <$> items) ->
  (forall old item, old ∈ table -> item ∈ items ->
     Db.pi_id old <> Db.pi_id (row item)) ->
  fold_left (fun table item => Db.upsert Db.item_conflict update (row item) table)
    items table
  = table ++ (row <$> items).
Proof.
  induction items as [|a items IH]; intros table Hnd Hfresh.
  - by rewrite app_nil_r.
  - rewrite fmap_cons, NoDup_cons in Hnd. destruct Hnd as [Ha Hnd].
    cbn [fold_left]. rewrite upsert_fresh.
    + rewrite IH; [by rewrite <- app_assoc|done|].
      intros old item [Hold|Hold%list_elem_of_singleton]%elem_of_app Hitem.
      * apply Hfresh; [done|by apply list_elem_of_further].
      * subst old. intros Heq. apply Ha.
        apply list_elem_of_fmap. exists item. by split.
    + intros old Hold. unfold Db.item_conflict.
      apply bool_decide_eq_false. apply Hfresh; [done|apply list_elem_of_here].
Qed.

Lemma fold_insertStream sid type items d :
  fold_left (fun d item => insertStream sid type item d) items d
  = Db.set_playlist_items
      (fun table =>
         fold_left
           (fun table item =>
              Db.upsert Db.item_conflict Db.item_update
                (stream_row sid type item) table)
           items table)
      d.
Proof.
  revert d. induction items as [|a items IH]; intros d; [by destruct d|].
  cbn [fold_left]. by rewrite IH.
Qed.

Lemma composite_id_inj sid v w :
  composite_id sid v = composite_id sid w -> to_string v = to_string w.
Proof.
  unfold composite_id. intros H.
  apply app_inv_head in H. by apply app_inv_head in H.
Qed.

Lemma stream_ids_distinct sid type items :
  NoDup (item_id type <$> items) ->
  NoDup (Db.pi_id ∘ stream_row sid type <$> items).
Proof.
  induction items as [|a items IH]; [constructor|].
  rewrite !fmap_cons, !NoDup_cons. intros [Ha Hnd]. split; [|auto].
  intros (b & Heq & Hb)%list_elem_of_fmap. apply Ha.
  apply list_elem_of_fmap. exists b. split; [|done].
  by apply (composite_id_inj sid).
Qed.

(** What [saveStreams] leaves in [playlist_items] when no item is stored
    yet and the item ids differ: one new row per item, in order. *)
Lemma saveStreams_appends sid type items st :
  NoDup (item_id type <$> items) ->
  (forall old item, old ∈ Db.playlist_items (db st) -> item ∈ items ->
     Db.pi_id old <> composite_id sid (m_itemId (map_fields type item))) ->
  Db.playlist_items (db (saveStreams sid type items st).2)
  = Db.playlist_items (db st) ++ (stream_row sid type <$> items).
Proof.
  intros Hnd Hfresh. destruct items as [|a items]; [by rewrite app_nil_r|].
  unfold saveStreams, modify_db. cbn [snd db].
  rewrite run_schedule_batches, schedule_concat, fold_insertStream.
  cbn [Db.set_playlist_items Db.playlist_items].
  apply upsert_all_fresh; [by apply stream_ids_distinct|done].
Qed.



(** ** Objects *)

Lemma obj_get_set_eq k v o : obj_get k (obj_set k v o) = v.
Proof.
  induction o as [|[k' v'] o IH]; simpl.
  - by rewrite decide_True.
  - destruct (decide (k' = k)) as [->|Hne]; simpl.
    + by rewrite decide_True.
    + by rewrite decide_False.
Qed.

Lemma obj_get_set_ne k k' v o :
  k <> k' -> obj_get k (obj_set k' v o) = obj_get k o.
Proof.
  intros Hne. induction o as [|[k'' v''] o IH]; simpl.
  - by rewrite decide_False.
  - destruct (decide (k'' = k')) as [->|Hne']; simpl.
    + by rewrite !decide_False.
    + destruct (decide (k'' = k)); [done|apply IH].
Qed.

Ltac obj_get :=
  repeat first
    [ rewrite obj_get_set_eq
    | rewrite obj_get_set_ne by (vm_compute; discriminate) ].

(** The identifying fields of the object served for a stored row. *)
Lemma stream_object_fields type r :
  obj_get (lit "stream_id") (stream_object type r) = Db.read (Db.pi_item_id r)
  /\ obj_get (lit "name") (stream_object type r) = Db.read (Db.pi_name r)
  /\ obj_get (lit "category_id") (stream_object type r)
     = Db.read (Db.pi_category_id r).
Proof. unfold stream_object. cbn [fold_left fst snd]. by obj_get. Qed.

Lemma getStreamsFromDb_saveStreams sid type items st :
  Db.playlist_items (db (saveStreams sid type items st).2)
  = Db.playlist_items (db st) ++ (stream_row sid type <$> items) ->
  getStreamsFromDb (db (saveStreams sid type items st).2) sid type JUndefined false
  = getStreamsFromDb (db st) sid type JUndefined false
    ++ ((fun item => stream_object type (stream_row sid type item)) <$> items).
Proof.
  intros Heq. unfold getStreamsFromDb. rewrite Heq, filter_app, map_app.
  f_equal. rewrite filter_all.
  - by rewrite <- list_fmap_compose.
  - apply Forall_fmap, Forall_forall. intros item _.
    unfold selected. simpl. by rewrite !bool_decide_eq_true_2.
Qed.

(** ** Upserts in general *)

Section Upsert.
Context {A : Type} (row : A -> Db.playlist_item).
Variable update : Db.playlist_item -> Db.playlist_item -> Db.playlist_item.
Hypothesis update_id : forall old new, Db.pi_id (update old new) = Db.pi_id old.

Lemma upsert_absent new table :
  Db.pi_id new ∉ Db.pi_id <$> table ->
  Db.upsert Db.item_conflict update new table = table ++ [new].
Proof.
  induction table as [|old table IH]; [done|].
  rewrite fmap_cons, not_elem_of_cons. intros [Hne Hnotin]. simpl.
  unfold Db.item_conflict at 1. rewrite bool_decide_eq_false_2 by done.
  f_equal. by apply IH.
Qed.

Lemma upsert_present new table :
  NoDup (Db.pi_id <$> table) ->
  Db.pi_id new ∈ Db.pi_id <$> table ->
  Db.upsert Db.item_conflict update new table
  = (fun r => if decide (Db.pi_id r = Db.pi_id new) then update r new else r)
      <$> table.
Proof.
  induction table as [|old table IH]; [by intros _ ?%elem_of_nil|].
  rewrite fmap_cons, NoDup_cons. intros [Hhead Hnd] Hin. simpl.
  unfold Db.item_conflict at 1.
  destruct (decide (Db.pi_id old = Db.pi_id new)) as [Heq|Hne].
  - rewrite bool_decide_eq_true_2 by done. f_equal.
    rewrite <- (list_fmap_id table) at 1. apply list_fmap_ext.
    intros i r Hr. simpl. rewrite decide_False; [done|].
    intros Hr'. apply Hhead. rewrite Heq, <- Hr'.
    apply list_elem_of_fmap. exists r. split; [done|].
    by eapply list_elem_of_lookup_2.
  - rewrite bool_decide_eq_false_2 by done. f_equal. apply IH; [done|].
    apply elem_of_cons in Hin as [Hin|Hin]; [congruence|done].
Qed.

Lemma find_none_key (news : list A) r :
  Db.pi_id r ∉ Db.pi_id ∘ row <$> news ->
  find (fun a => bool_decide (Db.pi_id (row a) = Db.pi_id r)) news = None.
Proof.
  induction news as [|a news IH]; [done|].
  rewrite fmap_cons, not_elem_of_cons. intros [Hne Hnotin]. simpl.
  rewrite bool_decide_eq_false_2 by (simpl in Hne; congruence). by apply IH.
Qed.

(** A run of upserts of items with different ids on a table with a primary
    key: the stored rows updated, then the rows of the new ids. *)
Lemma upsert_all (news : list A) : forall table,
  NoDup (Db.pi_id <$> table) ->
  NoDup (Db.pi_id ∘ row <$> news) ->
  fold_left (fun table a => Db.upsert Db.item_conflict update (row a) table)
    news table
  = (updated_by row update news <$> table) ++ (row <$> fresh_of row news table).
Proof.
  induction news as [|a news IH]; intros table Hkey Hnd.
  - simpl. unfold updated_by. simpl. by rewrite list_fmap_id, app_nil_r.
  - rewrite fmap_cons, NoDup_cons in Hnd. destruct Hnd as [Ha Hnd].
    cbn [fold_left]. unfold fresh_of. rewrite filter_cons.
    destruct (decide (Db.pi_id (row a) ∈ Db.pi_id <$> table)) as [Hin|Hnotin].
    + rewrite upsert_present by done.
      assert (Db.pi_id <$>
                ((fun r => if decide (Db.pi_id r = Db.pi_id (row a))
                           then update r (row a) else r) <$> table)
              = Db.pi_id <$> table) as Hkeys.
      { rewrite <- list_fmap_compose. apply list_fmap_ext. intros i r _. simpl.
        case_decide; [apply update_id|done]. }
      rewrite IH by (by rewrite ?Hkeys).
      rewrite decide_False by (by intros ?).
      unfold fresh_of. rewrite Hkeys. f_equal.
      rewrite <- list_fmap_compose. apply list_fmap_ext. intros i r _. simpl.
      unfold updated_by. simpl.
      destruct (decide (Db.pi_id r = Db.pi_id (row a))) as [Heq|Hne].
      * rewrite bool_decide_eq_true_2 by done.
        rewrite find_none_key; [done|]. rewrite update_id, Heq. exact Ha.
      * by rewrite bool_decide_eq_false_2 by done.
    + rewrite upsert_absent by done.
      rewrite IH.
      * rewrite decide_True by done. rewrite fmap_app, fmap_cons, <- app_assoc.
        f_equal.
        { apply list_fmap_ext. intros i r Hr. unfold updated_by. simpl.
          rewrite bool_decide_eq_false_2; [done|].
          intros Heq. apply Hnotin. rewrite Heq.
          apply list_elem_of_fmap. exists r. split; [done|].
          by eapply list_elem_of_lookup_2. }
        simpl. f_equal.
        { unfold updated_by. by rewrite find_none_key. }
        f_equal. apply filter_ext_elem. intros a0 Ha0.
        rewrite fmap_app, not_elem_of_app. simpl.
        rewrite not_elem_of_cons. split; [tauto|]. intros Hfresh.
        split; [done|]. split; [|apply not_elem_of_nil].
        intros Heq. apply Ha.
        apply list_elem_of_fmap. exists a0. split; [simpl; congruence|done].
      * rewrite fmap_app. apply NoDup_app. split; [done|]. simpl. split.
        { intros k Hk ->%list_elem_of_singleton. by apply Hnotin. }
        apply NoDup_singleton.
      * done.
Qed.

End Upsert.

Lemma find_key {A} (row : A -> Db.playlist_item) (news : list A) a r :
  NoDup (Db.pi_id ∘ row <$> news) ->
  a ∈ news ->
  Db.pi_id (row a) = Db.pi_id r ->
  find (fun a => bool_decide (Db.pi_id (row a) = Db.pi_id r)) news = Some a.
Proof.
  intros Hnd Ha Hid. induction news as [|b news IH]; [by apply elem_of_nil in Ha|].
  simpl. case_bool_decide as Hb.
  - f_equal. apply (NoDup_fmap_elem_inj (Db.pi_id ∘ row) (b :: news));
      [done|apply list_elem_of_here|done|simpl; congruence].
  - apply IH.
    + rewrite fmap_cons, NoDup_cons in Hnd. tauto.
    + apply elem_of_cons in Ha as [->|Ha]; [done|done].
Qed.

Lemma updated_by_id {A} (row : A -> Db.playlist_item) update (news : list A) r :
  (forall old new, Db.pi_id (update old new) = Db.pi_id old) ->
  Db.pi_id (updated_by row update news r) = Db.pi_id r.
Proof.
  intros Hupd. unfold updated_by. by destruct (find _ news).
Qed.

Lemma item_update_id old new :
  Db.pi_id (Db.item_update old new) = Db.pi_id old.
Proof. done. Qed.

(** The table [saveStreams] leaves, on a table with a primary key and for
    items with different ids. *)
Lemma saveStreams_table sid type items st :
  NoDup (Db.pi_id <$> Db.playlist_items (db st)) ->
  NoDup (item_id type <$> items) ->
  Db.playlist_items (db (saveStreams sid type items st).2)
  = (updated_by (stream_row sid type) Db.item_update items
       <$> Db.playlist_items (db st))
    ++ (stream_row sid type
          <$> fresh_of (stream_row sid type) items (Db.playlist_items (db st))).
Proof.
  intros Hkey Hnd. destruct items as [|a items].
  - simpl. unfold updated_by. simpl. by rewrite list_fmap_id, app_nil_r.
  - unfold saveStreams, modify_db. cbn [snd db].
    rewrite run_schedule_batches, schedule_concat, fold_insertStream.
    cbn [Db.set_playlist_items Db.playlist_items].
    apply upsert_all; [apply item_update_id|done|by apply stream_ids_distinct].
Qed.

(** The one row stored under the composite id of an item saved. *)
Lemma saveStreams_row sid type items st item :
  NoDup (Db.pi_id <$> Db.playlist_items (db st)) ->
  NoDup (item_id type <$> items) ->
  item ∈ items ->
  filter (fun r => Db.pi_id r = Db.pi_id (stream_row sid type item))
    (Db.playlist_items (db (saveStreams sid type items st).2))
  = [ match
        filter (fun r => Db.pi_id r = Db.pi_id (stream_row sid type item))
          (Db.playlist_items (db st))
      with
      | old :: _ => Db.item_update old (stream_row sid type item)
      | [] => stream_row sid type item
      end ].
Proof.
  intros Hkey Hnd Hitem.
  pose proof (stream_ids_distinct sid type items Hnd) as Hids.
  rewrite saveStreams_table by done.
  set (row := stream_row sid type) in *.
  set (table := Db.playlist_items (db st)) in *.
  rewrite filter_app, !filter_fmap_key.
  destruct (decide (Db.pi_id (row item) ∈ Db.pi_id <$> table)) as [Hin|Hnotin].
  - apply list_elem_of_fmap in Hin as (old & Hold & Hin).
    rewrite (filter_ext_elem _ (fun r => Db.pi_id r = Db.pi_id old) table)
      by (intros r _; rewrite updated_by_id by apply item_update_id;
          by rewrite Hold).
    rewrite (filter_key_singleton Db.pi_id table old) by done.
    rewrite (filter_none _ (fresh_of row items table)).
    + rewrite Hold, (filter_key_singleton Db.pi_id table old) by done.
      simpl. unfold updated_by.
      by rewrite (find_key row items item old) by done.
    + apply Forall_forall. intros a [Ha _]%list_elem_of_filter Heq.
      apply Ha. rewrite Heq, Hold. apply list_elem_of_fmap. by exists old.
  - rewrite (filter_none _ table).
    + simpl. rewrite (filter_key_absent Db.pi_id table) by done.
      rewrite (filter_key_singleton (Db.pi_id ∘ row) (fresh_of row items table) item).
      * done.
      * eapply sublist_NoDup; [exact Hids|].
        apply fmap_sublist, sublist_filter.
      * by apply list_elem_of_filter.
    + apply Forall_forall. intros r Hr Heq. apply Hnotin.
      rewrite <- Heq, updated_by_id by apply item_update_id.
      apply list_elem_of_fmap. by exists r.
Qed.

(** C5, as amended. On a table with a primary key and for items with
    different ids, an item saved is stored in exactly one row under its
    composite id; when no such row was stored before, or the one stored was
    a visible row of the same source and type with the text of the item id,
    the stream read path serves that row, with [stream_id] and
    [category_id] the texts [String(itemId)] and [String(catId)] of the
    fields the mapping extracted and [name] the name extracted ([null] for
    a missing one). When none of the items was stored before, the read path
    returns what it returned before followed by one object per item. *)
Theorem saveStreams_read_back (sourceId : Z) (type : list N)
    (items : list (list (list N * jsval))) (st : State)
    (item : list (list N * jsval))
    (Hkey : NoDup (Db.pi_id <$> Db.playlist_items (db st)))
    (Hdistinct : NoDup (item_id type <$> items))
    (Hitem : item ∈ items)
    (Hold : forall old,
        old ∈ Db.playlist_items (db st) ->
        Db.pi_id old = composite_id sourceId (m_itemId (map_fields type item)) ->
        Db.pi_source_id old = sourceId /\ Db.pi_type old = type
        /\ Db.pi_item_id old = Db.SText (item_id type item)
        /\ Db.pi_is_hidden old = 0) :
  let st' := (saveStreams sourceId type items st).2 in
  let m := map_fields type item in
  (exists r,
     filter (fun r => Db.pi_id r = composite_id sourceId (m_itemId m))
       (Db.playlist_items (db st')) = [r]
     /\ stream_object type r
        ∈ getStreamsFromDb (db st') sourceId type JUndefined false
     /\ obj_get (lit "stream_id") (stream_object type r)
        = JStr (to_string (m_itemId m))
     /\ obj_get (lit "name") (stream_object type r) = Db.read (Db.bind (m_name m))
     /\ obj_get (lit "category_id") (stream_object type r)
        = JStr (to_string (m_catId m)))
  /\ ((forall old item',
         old ∈ Db.playlist_items (db st) -> item' ∈ items ->
         Db.pi_id old
         <> composite_id sourceId (m_itemId (map_fields type item'))) ->
      getStreamsFromDb (db st') sourceId type JUndefined false
      = getStreamsFromDb (db st) sourceId type JUndefined false
        ++ ((fun item' => stream_object type (stream_row sourceId type item'))
              <$> items)).
Proof.
  intros st' m. split.
  - pose proof (saveStreams_row sourceId type items st item Hkey Hdistinct Hitem)
      as Hrow.
    fold st' in Hrow.
    change (Db.pi_id (stream_row sourceId type item))
      with (composite_id sourceId (m_itemId m)) in Hrow.
    set (cid := composite_id sourceId (m_itemId m)) in *.
    destruct (filter (fun r => Db.pi_id r = cid) (Db.playlist_items (db st)))
      as [|old rest] eqn:Hstored.
    + exists (stream_row sourceId type item). split; [done|].
      split; [|apply stream_object_fields].
      unfold getStreamsFromDb. apply list_elem_of_fmap_2, list_elem_of_filter.
      split.
      * unfold selected. simpl. by rewrite !bool_decide_eq_true_2.
      * eapply (proj1 (list_elem_of_filter _ _ _)). rewrite Hrow.
        apply list_elem_of_here.
    + assert (old ∈ filter (fun r => Db.pi_id r = cid) (Db.playlist_items (db st)))
        as [Hid Hin]%list_elem_of_filter by (rewrite Hstored; apply list_elem_of_here).
      destruct (Hold old Hin Hid) as (Hsource & Htype & Hitem_id & Hhidden).
      exists (Db.item_update old (stream_row sourceId type item)).
      split; [done|]. split.
      * unfold getStreamsFromDb. apply list_elem_of_fmap_2, list_elem_of_filter.
        split.
        -- unfold selected. simpl. rewrite Hsource, Htype, Hhidden.
           by rewrite !bool_decide_eq_true_2.
        -- eapply (proj1 (list_elem_of_filter _ _ _)). rewrite Hrow.
           apply list_elem_of_here.
      * destruct (stream_object_fields type
                    (Db.item_update old (stream_row sourceId type item)))
          as (Hs & Hn & Hc).
        rewrite Hs, Hn, Hc. simpl. by rewrite Hitem_id.
  - intros Hfresh. apply getStreamsFromDb_saveStreams.
    by apply saveStreams_appends.
Qed.

(** ** EPG ingestion *)

Lemma syncEpgFromUrl_programs env sid url st :
  Db.epg_programs (db (syncEpgFromUrl env sid url st).2)
  = match epg_fetchAndParse env url with
    | Ok parsed => replaced sid parsed.2 (Db.epg_programs (db st))
    | Throw _ => Db.epg_programs (db st)
    end.
Proof.
  unfold syncEpgFromUrl.
  destruct (epg_fetchAndParse env url) as [[channels progs]|e]; [|done].
  done.
Qed.

Lemma replaced_replaced sid progs table :
  replaced sid progs (replaced sid progs table) = replaced sid progs table.
Proof.
  unfold replaced. rewrite filter_app. rewrite list_filter_filter.
  rewrite (filter_none _ (program_row sid <$> progs)).
  - rewrite app_nil_r. f_equal. apply list_filter_iff. tauto.
  - apply Forall_fmap, Forall_forall. intros p _. simpl. tauto.
Qed.

Lemma programs_of_replaced sid progs table :
  filter (fun r => Db.ep_source_id r = sid) (replaced sid progs table)
  = program_row sid <$> progs.
Proof.
  unfold replaced. rewrite filter_app.
  rewrite (filter_none _ (filter _ table)).
  - simpl. apply filter_all, Forall_fmap, Forall_forall. by intros p _.
  - apply Forall_forall. intros r Hr%list_elem_of_filter. tauto.
Qed.

(** C2. Ingesting the same EPG feed a second time leaves the programme
    table, the programme rows of the window and the programmes served by
    [GET /epg/:sourceId] as they were after the first ingest; after an ingest
    the programme rows of the source are the rows of the programmes parsed,
    one each and in order, and a feed that cannot be fetched changes
    nothing. *)
Theorem syncEpgFromUrl_idempotent (env : Env) (sourceId : Z) (url : list N)
    (st : State) (toISOString : Z -> list N) (now1 now2 : Z) :
  let once := (syncEpgFromUrl env sourceId url st).2 in
  let twice := (syncEpgFromUrl env sourceId url once).2 in
  Db.epg_programs (db twice) = Db.epg_programs (db once)
  /\ window_programs (db twice) sourceId now1 now2
     = window_programs (db once) sourceId now1 now2
  /\ served_programmes (epg toISOString (db twice) sourceId now1 now2)
     = served_programmes (epg toISOString (db once) sourceId now1 now2)
  /\ match epg_fetchAndParse env url with
     | Ok parsed =>
         programs_of (db once) sourceId = program_row sourceId <$> parsed.2
     | Throw _ => once = st
     end.
Proof.
  intros once twice.
  assert (Db.epg_programs (db twice) = Db.epg_programs (db once)) as Heq.
  { subst twice once. rewrite !syncEpgFromUrl_programs.
    destruct (epg_fetchAndParse env url) as [parsed|e]; [|done].
    apply replaced_replaced. }
  split; [done|].
  split; [unfold window_programs; by rewrite Heq|].
  split; [unfold epg, served_programmes, window_programs; simpl; by rewrite Heq|].
  subst once. unfold programs_of. rewrite syncEpgFromUrl_programs.
  unfold syncEpgFromUrl.
  destruct (epg_fetchAndParse env url) as [parsed|e]; [|done].
  apply programs_of_replaced.
Qed.

(** *** The channels of the guide *)

Lemma channel_update_id old new :
  Db.pi_id (Db.channel_update old new) = Db.pi_id old.
Proof. done. Qed.

Lemma channel_update_twice r new :
  Db.channel_update (Db.channel_update r new) new = Db.channel_update r new.
Proof. done. Qed.

Lemma channel_update_self r : Db.channel_update r r = r.
Proof. by destruct r. Qed.

Lemma updated_by_twice {A} (row : A -> Db.playlist_item) (news : list A) r :
  updated_by row Db.channel_update news
    (updated_by row Db.channel_update news r)
  = updated_by row Db.channel_update news r.
Proof.
  unfold updated_by.
  destruct (find (fun a => bool_decide (Db.pi_id (row a) = Db.pi_id r)) news)
    as [a|] eqn:E.
  - rewrite channel_update_id, E. apply channel_update_twice.
  - by rewrite E.
Qed.

(** The EPG channels of a feed with different channel ids, upserted again
    on a table with a primary key, change nothing. *)
Lemma insertChannels_idempotent sid channels d :
  NoDup (Db.pi_id <$> Db.playlist_items d) ->
  NoDup (Db.pi_id ∘ channel_row sid <$> channels) ->
  insertChannels sid channels (insertChannels sid channels d)
  = insertChannels sid channels d.
Proof.
  intros Hkey Hnd. unfold insertChannels. destruct d as [cats table progs stat].
  unfold Db.set_playlist_items. cbn [Db.playlist_items Db.categories
    Db.epg_programs Db.sync_status] in *. f_equal.
  set (row := channel_row sid) in *.
  rewrite (upsert_all row Db.channel_update channel_update_id channels table)
    by done.
  set (table' := (updated_by row Db.channel_update channels <$> table)
                 ++ (row <$> fresh_of row channels table)).
  assert (Db.pi_id <$> table'
          = (Db.pi_id <$> table)
            ++ (Db.pi_id ∘ row <$> fresh_of row channels table)) as Hkeys.
  { subst table'. rewrite fmap_app, <- !list_fmap_compose. f_equal.
    apply list_fmap_ext. intros i r _. simpl.
    apply updated_by_id, channel_update_id. }
  assert (NoDup (Db.pi_id <$> table')) as Hkey'.
  { rewrite Hkeys. apply NoDup_app. split; [done|]. split.
    - intros k Hk (a & -> & [Ha _]%list_elem_of_filter)%list_elem_of_fmap.
      by apply Ha.
    - eapply sublist_NoDup; [exact Hnd|]. apply fmap_sublist, sublist_filter. }
  rewrite (upsert_all row Db.channel_update channel_update_id channels table')
    by done.
  assert (fresh_of row channels table' = []) as ->.
  { apply filter_none, Forall_forall. intros a Ha Hfresh. apply Hfresh.
    rewrite Hkeys, elem_of_app.
    destruct (decide (Db.pi_id (row a) ∈ Db.pi_id <$> table)) as [Hin|Hnotin];
      [by left|right].
    apply list_elem_of_fmap. exists a. split; [done|].
    by apply list_elem_of_filter. }
  simpl. rewrite app_nil_r. subst table'. rewrite fmap_app. f_equal.
  - rewrite <- list_fmap_compose. apply list_fmap_ext. intros i r _. simpl.
    apply updated_by_twice.
  - rewrite <- list_fmap_compose. apply list_fmap_ext. intros i a Ha. simpl.
    apply list_elem_of_lookup_2 in Ha. apply list_elem_of_filter in Ha as [_ Ha].
    unfold updated_by. rewrite (find_key row channels a (row a)) by done.
    apply channel_update_self.
Qed.

(** With a primary key on [playlist_items] and a feed whose channel ids
    differ, a second ingest of the same feed leaves the whole state, and so
    the whole guide served, as the first left it. *)
Lemma syncEpgFromUrl_idempotent_state env sid url st toISOString now1 now2 :
  NoDup (Db.pi_id <$> Db.playlist_items (db st)) ->
  match epg_fetchAndParse env url with
  | Ok parsed => NoDup (Db.pi_id ∘ channel_row sid <$> parsed.1)
  | Throw _ => True
  end ->
  let once := (syncEpgFromUrl env sid url st).2 in
  let twice := (syncEpgFromUrl env sid url once).2 in
  twice = once
  /\ epg toISOString (db twice) sid now1 now2
     = epg toISOString (db once) sid now1 now2.
Proof.
  intros Hkey Hnd once twice.
  assert (twice = once) as ->; [|done].
  subst twice once. unfold syncEpgFromUrl.
  destruct (epg_fetchAndParse env url) as [[channels progs]|e]; [|done].
  unfold mbind, M_bind, await, modify_db. cbn [fst snd].
  destruct st as [active d now]. cbn [activeSyncs db clock] in *. f_equal.
  pose proof (insertChannels_idempotent sid channels d Hkey Hnd) as Hchannels.
  apply (f_equal Db.playlist_items) in Hchannels.
  destruct d as [cats table tprogs stat].
  unfold insertMany, deletePrograms, insertChannels, Db.set_epg_programs,
    Db.set_playlist_items in *.
  cbn [Db.playlist_items Db.categories Db.epg_programs Db.sync_status] in *.
  f_equal; [exact Hchannels|].
  apply (replaced_replaced sid progs tprogs).
Qed.

(** ** The routes *)

Lemma strip_trailing_slash_slash base :
  strip_trailing_slash (base ++ lit "/") = base.
Proof.
  unfold strip_trailing_slash. rewrite rev_app_distr. simpl.
  apply rev_involutive.
Qed.

Lemma strip_trailing_slash_other base c :
  c <> 47%N -> strip_trailing_slash (base ++ [c]) = base ++ [c].
Proof.
  intros Hc. unfold strip_trailing_slash. rewrite rev_app_distr. simpl.
  by rewrite (proj2 (N.eqb_neq c 47)).
Qed.

Lemma param_or_given (s d : list N) : s <> [] -> param_or (Some s) d = s.
Proof. by destruct s. Qed.

(** C9, as amended. For a source of type [xtream], a stream id, a type and
    a container that is not empty, the stream-URL endpoint answers 200 with
    the URL [base/path/username/password/streamId.container], [path] being
    [live], [movie] or [series] as the type says and [base] the source URL
    without its trailing slash; another type is answered 400, and a missing
    source or a source of another type 404. A container that is absent or
    empty is answered as the container [m3u8]. *)
Theorem stream_url_pattern (source : Source)
    (streamId type container : list N)
    (Htype : type <> [])
    (Hcontainer : container <> []) :
  stream_url (Ok (Some source)) streamId type (Some container)
  = (if decide (src_type source = lit "xtream") then
       match type_path type with
       | Some path =>
           mkResponse 200 []
             (Json [ (lit "url",
                      JStr (strip_trailing_slash (src_url source) ++ lit "/"
                            ++ path ++ lit "/"
                            ++ to_string (src_username source) ++ lit "/"
                            ++ to_string (src_password source) ++ lit "/"
                            ++ streamId ++ lit "." ++ container)) ])
       | None =>
           mkResponse 400 []
             (Json [ (lit "error", JStr (lit "Invalid stream type")) ])
       end
     else
       mkResponse 404 []
         (Json [ (lit "error", JStr (lit "Xtream source not found")) ]))
  /\ stream_url (Ok None) streamId type (Some container)
     = mkResponse 404 []
         (Json [ (lit "error", JStr (lit "Xtream source not found")) ])
  /\ (forall base, strip_trailing_slash (base ++ lit "/") = base)
  /\ (forall base c,
        c <> 47%N -> strip_trailing_slash (base ++ [c]) = base ++ [c])
  /\ (forall lookup,
        stream_url lookup streamId type None
        = stream_url lookup streamId type (Some (lit "m3u8"))
        /\ stream_url lookup streamId type (Some [])
           = stream_url lookup streamId type (Some (lit "m3u8"))).
Proof.
  split; [|split; [done|split; [|split]]].
  - unfold stream_url, type_path.
    rewrite !param_or_given by done.
    destruct (decide (src_type source = lit "xtream")) as [Hx|Hx].
    + rewrite bool_decide_eq_true_2 by done. cbn [negb].
      repeat case_decide; done.
    + by rewrite bool_decide_eq_false_2 by done.
  - apply strip_trailing_slash_slash.
  - apply strip_trailing_slash_other.
  - done.
Qed.

(** A request with an empty container, [?container=], is answered with the
    container [m3u8], not with the empty one. *)
Lemma stream_url_empty_container :
  stream_url (Ok (Some Scenario.provider)) (lit "10") (lit "live") (Some [])
  = mkResponse 200 []
      (Json [ (lit "url", JStr (lit "http://h:8080/live/u/p/10.m3u8")) ])
  /\ lit "http://h:8080/live/u/p/10.m3u8" <> lit "http://h:8080/live/u/p/10.".
Proof. split; [reflexivity|discriminate]. Qed.

(** C8, as amended. An upstream failure is answered with status 502 and a
    JSON message by the Xtream authenticate, series-info and vod-info
    endpoints, and with status 502 and an empty body by the raw stream relay
    when the upstream request fails before any response (the manifest, when
    one was asked for, could not be fetched either). *)
Theorem upstream_failure_status (source : Source)
    (message id url protocol host : list N)
    (Hxtream : src_type source = lit "xtream")
    (Hid : id <> [])
    (Hurl : url <> []) :
  let bad_gateway :=
    mkResponse 502 []
      (Json [ (lit "error", JStr (lit "Upstream error"));
              (lit "details", JStr message) ]) in
  xtream_auth (Ok (Some source)) None (Throw message) = bad_gateway
  /\ series_info (Ok (Some source)) (Some id) None (Throw message) = bad_gateway
  /\ vod_info (Ok (Some source)) (Some id) None (Throw message) = bad_gateway
  /\ (forall failure,
        stream protocol host (Some url) (Throw failure) (RequestError message)
        = mkResponse 502 [] Empty).
Proof.
  intros bad_gateway.
  assert (exists c url', url = c :: url') as (c & url' & ->)
    by (destruct url; [done|by eauto]).
  split; [|split; [|split]].
  - unfold xtream_auth. by rewrite bool_decide_eq_true_2.
  - unfold series_info, xtream_info. by destruct id.
  - unfold vod_info, xtream_info. by destruct id.
  - intros failure. unfold stream, rewriteM3u8.
    by destruct (includes (c :: url') (lit ".m3u8")).
Qed.

(** The image proxy answers a failed upstream fetch with status 404, and
    the 502 of the stream relay has no body. *)
Lemma image_upstream_failure_is_404 :
  status (image (Some (lit "http://h/logo.png")) (RequestError (lit "ECONNREFUSED")))
  = 404
  /\ 404 <> 502
  /\ payload
       (stream (lit "http") (lit "localhost") (Some (lit "http://h/live.ts"))
          (Throw (lit "fetch failed")) (RequestError (lit "ECONNREFUSED")))
     = Empty.
Proof. split; [reflexivity|]. split; [discriminate|reflexivity]. Qed.

(** ** The scenarios *)

Lemma lit_inj s1 s2 : lit s1 = lit s2 -> s1 = s2.
Proof.
  unfold lit. intros H.
  rewrite <- (string_of_list_ascii_of_string s1),
          <- (string_of_list_ascii_of_string s2).
  f_equal. revert H.
  generalize (list_ascii_of_string s1) (list_ascii_of_string s2).
  induction l as [|a l IH]; intros [|b l'] H; simplify_eq/=; [done|].
  f_equal; [|by apply IH].
  rewrite <- (ascii_N_embedding a), <- (ascii_N_embedding b). by f_equal.
Qed.

Lemma num_to_string_inj z1 z2 : num_to_string z1 = num_to_string z2 -> z1 = z2.
Proof. intros H%lit_inj. by apply (inj pretty). Qed.


Lemma idle_is_idle sid : sid ∉ activeSyncs Scenario.idle.
Proof. apply not_elem_of_empty. Qed.

Lemma idle_is_empty (old : Db.playlist_item) :
  old ∉ Db.playlist_items (db Scenario.idle).
Proof. apply not_elem_of_nil. Qed.

(** The first call on a fresh process is in flight; a second call for the
    same source changes nothing. *)
Lemma syncSource_at_most_once_witness :
  in_flight 1 (call 1 (initial Db.empty 0)) = 1%nat
  /\ call 1 (call 1 (initial Db.empty 0)) = call 1 (initial Db.empty 0).
Proof.
  assert (reachable Scenario.env (call 1 (initial Db.empty 0))) as Hreach
    by (eapply reachable_step; [apply reachable_initial|apply step_call]).
  assert (1 ∈ activeSyncs (sys_state (call 1 (initial Db.empty 0)))) as Hactive
    by (apply elem_of_union_l, elem_of_singleton; reflexivity).
  destruct (syncSource_at_most_once Scenario.env _ 1 Hreach Hactive)
    as (_ & Hcall & Hone & _).
  exact (conj Hone Hcall).
Defined.

(** The provider whose VOD stream list cannot be fetched. *)
Lemma syncSource_records_failure_witness :
  status_row (db (syncSource Scenario.env_vod_down 1 Scenario.idle).2) 1
  = Some (Db.mkSyncStatus 1 (lit "all") 0 (lit "error")
            (Db.SText (lit "HTTP 500")))
  /\ 1 ∉ activeSyncs (syncSource Scenario.env_vod_down 1 Scenario.idle).2.
Proof.
  assert (getById Scenario.env_vod_down 1 = Some Scenario.provider) as Hsource
    by reflexivity.
  assert (src_enabled Scenario.provider = true) as Henabled by reflexivity.
  assert ((dispatch Scenario.env_vod_down Scenario.provider
             (updateSyncStatus 1 (lit "all") (lit "syncing") JNull
                (add_active 1 Scenario.idle)).2).1 = Throw (lit "HTTP 500"))
    as Hthrows by (vm_compute; reflexivity).
  destruct (syncSource_records_failure Scenario.env_vod_down Scenario.idle 1
              Scenario.provider (lit "HTTP 500") (idle_is_idle 1) Hsource
              Henabled Hthrows) as (_ & Hstatus & Hreleased & _).
  exact (conj Hstatus Hreleased).
Defined.

(** A sync asked for source 99, which does not exist. *)
Lemma syncSource_unknown_source_witness :
  status_row (db (syncSource Scenario.env 99 Scenario.idle).2) 99
  = Some (Db.mkSyncStatus 99 (lit "all") 0 (lit "error")
            (Db.SText (lit "Source 99 not found")))
  /\ 99 ∉ activeSyncs (syncSource Scenario.env 99 Scenario.idle).2.
Proof.
  assert (getById Scenario.env 99 = None) as Hmissing by reflexivity.
  destruct (syncSource_unknown_source Scenario.env Scenario.idle 99
              (idle_is_idle 99) Hmissing) as (_ & Hstatus & Hreleased & _).
  exact (conj Hstatus Hreleased).
Defined.

(** The provider whose XMLTV feed cannot be fetched: the sync succeeds. *)
Lemma syncXtream_epg_best_effort_witness :
  epg_fetchAndParse Scenario.env (lit "http://h:8080/xmltv.php")
  = Throw (lit "fetch failed")
  /\ status_row (db (syncSource Scenario.env 1 Scenario.idle).2) 1
     = Some (Db.mkSyncStatus 1 (lit "all") 0 (lit "success") Db.SNull).
Proof.
  assert (getById Scenario.env 1 = Some Scenario.provider) as Hsource
    by reflexivity.
  assert (src_enabled Scenario.provider = true) as Henabled by reflexivity.
  assert (src_type Scenario.provider = lit "xtream") as Hxtream by reflexivity.
  destruct (syncXtream_epg_best_effort Scenario.env Scenario.idle 1
              Scenario.provider (idle_is_idle 1) Hsource Henabled Hxtream)
    as (_ & _ & Hstatus).
  exact (conj eq_refl Hstatus).
Defined.


(** One live stream saved to an empty database and read back. *)
Lemma saveStreams_read_back_witness :
  getStreamsFromDb (db (saveStreams 1 (lit "live") [Scenario.cnn] Scenario.idle).2)
    1 (lit "live") JUndefined false
  = [ stream_object (lit "live") (stream_row 1 (lit "live") Scenario.cnn) ]
  /\ obj_get (lit "stream_id")
       (stream_object (lit "live") (stream_row 1 (lit "live") Scenario.cnn))
     = JStr (lit "10").
Proof.
  assert (NoDup (Db.pi_id <$> Db.playlist_items (db Scenario.idle))) as Hkey
    by constructor.
  assert (NoDup (item_id (lit "live") <$> [Scenario.cnn])) as Hdistinct
    by (apply NoDup_singleton).
  assert (Scenario.cnn ∈ [Scenario.cnn]) as Hitem by (apply list_elem_of_here).
  assert (forall old,
            old ∈ Db.playlist_items (db Scenario.idle) ->
            Db.pi_id old
            = composite_id 1 (m_itemId (map_fields (lit "live") Scenario.cnn)) ->
            Db.pi_source_id old = 1 /\ Db.pi_type old = lit "live"
            /\ Db.pi_item_id old = Db.SText (item_id (lit "live") Scenario.cnn)
            /\ Db.pi_is_hidden old = 0)
    as Hold by (intros old Hin; destruct (idle_is_empty old Hin)).
  destruct (saveStreams_read_back 1 (lit "live") [Scenario.cnn] Scenario.idle
              Scenario.cnn Hkey Hdistinct Hitem Hold) as (_ & Hread).
  assert (forall old item',
            old ∈ Db.playlist_items (db Scenario.idle) ->
            item' ∈ [Scenario.cnn] ->
            Db.pi_id old
            <> composite_id 1 (m_itemId (map_fields (lit "live") item')))
    as Hfresh by (intros old item' Hin; destruct (idle_is_empty old Hin)).
  exact (conj (Hread Hfresh) eq_refl).
Defined.

(** The scenario of the specification: after the sync the one live item
    has the stream id ["10"], a text, where the payload had the number 10. *)
Lemma live_stream_id_is_read_back_as_text :
  getById Scenario.env 1 = Some Scenario.provider
  /\ getLiveStreams Scenario.env Scenario.provider = Ok [Scenario.cnn]
  /\ (fun o => (obj_get (lit "stream_id") o, obj_get (lit "name") o,
                obj_get (lit "category_id") o))
       <$> getStreamsFromDb (db (syncSource Scenario.env 1 Scenario.idle).2)
             1 (lit "live") JUndefined false
     = [ (JStr (lit "10"), JStr (lit "CNN"), JStr (lit "1")) ]
  /\ JStr (lit "10") <> JNum 10.
Proof.
  split; [reflexivity|]. split; [reflexivity|].
  split; [vm_compute; reflexivity|discriminate].
Qed.

(** The composite id does not carry the type: a series saved after a live
    stream of the same id updates the row of the live stream, and the
    series read path returns nothing. *)
Lemma series_id_of_a_live_stream :
  getStreamsFromDb (db (syncSource Scenario.env_same_id 1 Scenario.idle).2)
    1 (lit "series") JUndefined false
  = []
  /\ (fun o => (obj_get (lit "stream_id") o, obj_get (lit "name") o,
                obj_get (lit "category_id") o))
       <$> getStreamsFromDb
             (db (syncSource Scenario.env_same_id 1 Scenario.idle).2)
             1 (lit "live") JUndefined false
     = [ (JStr (lit "10"), JStr (lit "Show"), JStr (lit "5")) ].
Proof. split; vm_compute; reflexivity. Qed.

(** A movie of the provider. *)
Lemma stream_url_pattern_witness :
  stream_url (Ok (Some Scenario.provider)) (lit "10") (lit "movie")
    (Some (lit "mkv"))
  = mkResponse 200 []
      (Json [ (lit "url", JStr (lit "http://h:8080/movie/u/p/10.mkv")) ]).
Proof.
  assert (lit "movie" <> []) as Htype by discriminate.
  assert (lit "mkv" <> []) as Hcontainer by discriminate.
  destruct (stream_url_pattern Scenario.provider (lit "10") (lit "movie")
              (lit "mkv") Htype Hcontainer) as (Hurl & _).
  exact Hurl.
Defined.

(** The provider and a transport stream, both unreachable. *)
Lemma upstream_failure_status_witness :
  xtream_auth (Ok (Some Scenario.provider)) None (Throw (lit "ECONNREFUSED"))
  = mkResponse 502 []
      (Json [ (lit "error", JStr (lit "Upstream error"));
              (lit "details", JStr (lit "ECONNREFUSED")) ])
  /\ stream (lit "http") (lit "localhost") (Some (lit "http://h/live.ts"))
       (Throw (lit "fetch failed")) (RequestError (lit "ECONNREFUSED"))
     = mkResponse 502 [] Empty.
Proof.
  assert (src_type Scenario.provider = lit "xtream") as Hxtream by reflexivity.
  assert (lit "7" <> []) as Hid by discriminate.
  assert (lit "http://h/live.ts" <> []) as Hurl by discriminate.
  destruct (upstream_failure_status Scenario.provider (lit "ECONNREFUSED")
              (lit "7") (lit "http://h/live.ts") (lit "http") (lit "localhost")
              Hxtream Hid Hurl) as (Hauth & _ & _ & Hstream).
  exact (conj Hauth (Hstream (lit "fetch failed"))).
Defined.

(* ===================================================================== *)
(** * Further properties of the two files                                *)
(* ===================================================================== *)

Import Frame.

(** ** Relations a sync respects *)

Lemma getById_id env sid source : getById env sid = Some source -> src_id source = sid.
Proof.
  unfold getById. intros H. apply find_some in H as [_ H].
  by apply bool_decide_eq_true in H.
Qed.

Lemma insertChannels_fold sid channels d :
  insertChannels sid channels d
  = fold_left
      (fun d ch =>
         Db.set_playlist_items
           (Db.upsert Db.item_conflict Db.channel_update (channel_row sid ch)) d)
      channels d.
Proof.
  unfold insertChannels. revert d.
  induction channels as [|ch channels IH]; intros d; [by destruct d|].
  cbn [fold_left]. by rewrite <- IH.
Qed.

Section Respects.
Variable R : Db.t -> Db.t -> Prop.
Variable sid : Z.
Hypothesis R_refl : forall d, R d d.
Hypothesis R_trans : forall d1 d2 d3, R d1 d2 -> R d2 d3 -> R d1 d3.
Hypothesis R_category : forall type cat d, R d (insertCategory sid type cat d).
Hypothesis R_stream : forall type item d, R d (insertStream sid type item d).
Hypothesis R_channel : forall ch d,
  R d (Db.set_playlist_items
         (Db.upsert Db.item_conflict Db.channel_update (channel_row sid ch)) d).
Hypothesis R_delete : forall d, R d (deletePrograms sid d).
Hypothesis R_insert : forall progs d, R d (insertMany sid progs d).
Hypothesis R_status : forall type now status err d,
  R d (Db.set_sync_status
         (Db.upsert Db.status_conflict Db.status_update
            (Db.mkSyncStatus sid type now status err)) d).

Lemma respects_ret {A} (a : A) : respects R (mret a).
Proof. intros st. apply R_refl. Qed.

Lemma respects_await {A} (r : result A) : respects R (await r).
Proof. intros st. apply R_refl. Qed.

Lemma respects_throw {A} e : respects R (@throw A e).
Proof. intros st. apply R_refl. Qed.

Lemma respects_bind {A B} (m : M A) (k : A -> M B) :
  respects R m -> (forall a, respects R (k a)) -> respects R (m ≫= k).
Proof.
  intros Hm Hk st. unfold mbind, M_bind.
  pose proof (Hm st) as H1. destruct (m st) as [[a|e] st']; simpl in *; [|done].
  eapply R_trans; [exact H1|apply Hk].
Qed.

Lemma respects_try_catch {A} (m : M A) h :
  respects R m -> (forall e, respects R (h e)) -> respects R (try_catch m h).
Proof.
  intros Hm Hh st. unfold try_catch.
  pose proof (Hm st) as H1. destruct (m st) as [[a|e] st']; simpl in *; [done|].
  eapply R_trans; [exact H1|apply Hh].
Qed.

Lemma respects_fold {A} (f : A -> Db.t -> Db.t) (l : list A) :
  (forall a d, R d (f a d)) ->
  forall d, R d (fold_left (fun d a => f a d) l d).
Proof.
  intros Hf. induction l as [|a l IH]; intros d; [apply R_refl|].
  cbn [fold_left]. eapply R_trans; [apply Hf|apply IH].
Qed.

Lemma respects_modify_db f : (forall d, R d (f d)) -> respects R (modify_db f).
Proof. intros Hf st. apply Hf. Qed.

Lemma respects_run_schedule insertRow sched :
  (forall item d, R d (insertRow item d)) ->
  forall d, R d (run_schedule insertRow sched d).
Proof.
  intros Hrow d. rewrite run_schedule_batches. by apply respects_fold.
Qed.

Lemma respects_saveCategories type cats : respects R (saveCategories sid type cats).
Proof.
  destruct cats as [|c cats]; [apply respects_ret|].
  apply respects_modify_db, respects_run_schedule, R_category.
Qed.

Lemma respects_saveStreams type items : respects R (saveStreams sid type items).
Proof.
  destruct items as [|c items]; [apply respects_ret|].
  apply respects_modify_db, respects_run_schedule, R_stream.
Qed.

Lemma respects_updateSyncStatus type status err :
  respects R (updateSyncStatus sid type status err).
Proof. intros st. apply R_status. Qed.

Lemma respects_syncEpgFromUrl env url : respects R (syncEpgFromUrl env sid url).
Proof.
  unfold syncEpgFromUrl.
  apply respects_bind; [apply respects_await|intros parsed].
  apply respects_bind; [|intros _].
  { apply respects_modify_db. intros d. rewrite insertChannels_fold.
    apply respects_fold, R_channel. }
  apply respects_bind; [|intros _].
  { apply respects_modify_db, R_delete. }
  apply respects_modify_db, R_insert.
Qed.

Lemma respects_dispatch env source :
  src_id source = sid -> respects R (dispatch env source).
Proof.
  intros Hid. unfold dispatch, syncXtream, syncM3u, syncEpg. rewrite Hid.
  repeat case_decide;
    repeat first
      [ apply respects_ret
      | apply respects_await
      | apply respects_saveCategories
      | apply respects_saveStreams
      | apply respects_syncEpgFromUrl
      | apply respects_bind; [|intros ?]
      | apply respects_try_catch; [|intros ?] ].
Qed.

Lemma respects_guarded m : respects R m -> respects R (guarded sid m).
Proof.
  intros Hm st. unfold guarded, finally.
  pose proof (respects_try_catch m
                (fun message =>
                   updateSyncStatus sid (lit "all") (lit "error") (JStr message))
                Hm (fun e => respects_updateSyncStatus _ _ _) st) as H.
  by destruct (try_catch m _ st) as [r st'].
Qed.

Lemma respects_syncSource env : respects R (syncSource env sid).
Proof.
  assert (respects R (try_block env sid)) as Htry.
  { unfold try_block. destruct (getById env sid) as [source|] eqn:Hsource;
      [|apply respects_throw].
    destruct (src_enabled source); cbn [negb]; [|intros st; apply R_refl].
    apply respects_bind; [apply respects_updateSyncStatus|intros _].
    unfold run_routine.
    apply respects_bind; [|intros _; apply respects_updateSyncStatus].
    apply respects_dispatch. by eapply getById_id. }
  intros st. unfold syncSource. case_decide; [apply R_refl|].
  exact (respects_guarded (try_block env sid) Htry (add_active sid st)).
Qed.

Lemma respects_run_routine env source :
  src_id source = sid -> respects R (run_routine env sid source).
Proof.
  intros Hid. unfold run_routine.
  apply respects_bind; [|intros _; apply respects_updateSyncStatus].
  by apply respects_dispatch.
Qed.

(** An execution in flight, resumed. *)
Lemma respects_resume env e st :
  exec_source e = sid ->
  (forall source, e = AwaitRoutine sid source -> src_id source = sid) ->
  R (db st) (db (resume env e st).1).
Proof.
  intros He Hsource. destruct e as [s|s source]; cbn [exec_source] in He;
    subst s; cbv beta iota delta [resume].
  - destruct (getById env sid) as [source|].
    + destruct (src_enabled source); cbn [negb fst].
      * apply respects_updateSyncStatus.
      * apply (respects_guarded (fun st => (Ok tt, delete_active sid st))).
        intros st0. apply R_refl.
    + cbn [fst]. apply (respects_guarded (throw (not_found sid))).
      apply respects_throw.
  - cbn [fst]. apply (respects_guarded (run_routine env sid source)).
    apply respects_run_routine. by apply Hsource.
Qed.

End Respects.

Lemma respects_for_each R {A} (l : list A) (body : A -> M unit) :
  (forall d, R d d) ->
  (forall d1 d2 d3, R d1 d2 -> R d2 d3 -> R d1 d3) ->
  (forall a, respects R (body a)) ->
  respects R (for_each l body).
Proof.
  intros Hrefl Htrans Hbody. induction l as [|a l IH]; [intros st; apply Hrefl|].
  cbn [for_each]. apply (respects_bind R Htrans); auto.
Qed.

Lemma respects_syncAll R env :
  (forall d, R d d) ->
  (forall d1 d2 d3, R d1 d2 -> R d2 d3 -> R d1 d3) ->
  (forall sid, respects R (syncSource env sid)) ->
  respects R (syncAll env).
Proof.
  intros Hrefl Htrans Hsync. unfold syncAll.
  apply (respects_try_catch R Htrans); [|intros e st; apply Hrefl].
  apply respects_for_each; [done|done|].
  intros source. destruct (src_enabled source); [apply Hsync|].
  intros st. apply Hrefl.
Qed.

(** ** Rows are never removed *)

Lemma extends_refl {T} (same : T -> T -> Prop) t :
  (forall r, same r r) -> extends same t t.
Proof.
  intros Hrefl. exists t, []. split; [by rewrite app_nil_r|].
  induction t; constructor; auto.
Qed.

Lemma extends_trans {T} (same : T -> T -> Prop) t1 t2 t3 :
  (forall r1 r2 r3, same r1 r2 -> same r2 r3 -> same r1 r3) ->
  extends same t1 t2 -> extends same t2 t3 -> extends same t1 t3.
Proof.
  intros Htrans (kept & more & -> & H12) (kept' & more' & -> & H23).
  apply Forall2_app_inv_l in H23 as (k1 & k2 & Hk1 & Hk2 & ->).
  exists k1, (k2 ++ more'). split; [by rewrite app_assoc|].
  revert k1 Hk1. induction H12 as [|r1 r2 t1 kept Hr _ IH]; intros k1 Hk1.
  - inversion Hk1. constructor.
  - inversion Hk1 as [|? r3 ? k1' Hr' Hk1']; subst. constructor; eauto.
Qed.

Lemma extends_upsert {T} (same : T -> T -> Prop) conflict update new t :
  (forall r, same r r) ->
  (forall old, same old (update old new)) ->
  extends same t (Db.upsert conflict update new t).
Proof.
  intros Hrefl Hupd. induction t as [|old t IH]; simpl.
  - exists [], [new]. split; [done|constructor].
  - destruct (conflict old new).
    + exists (update old new :: t), []. split; [by rewrite app_nil_r|].
      constructor; [apply Hupd|]. clear IH. induction t; constructor; auto.
    + destruct IH as (kept & more & -> & Hkept).
      exists (old :: kept), more. split; [done|]. by constructor.
Qed.

Lemma same_item_refl r : same_item r r.
Proof. by repeat split. Qed.

Lemma same_item_trans r1 r2 r3 : same_item r1 r2 -> same_item r2 r3 -> same_item r1 r3.
Proof. unfold same_item. intros H1 H2. repeat split; intuition congruence. Qed.

Lemma same_category_refl r : same_category r r.
Proof. by repeat split. Qed.

Lemma same_category_trans r1 r2 r3 :
  same_category r1 r2 -> same_category r2 r3 -> same_category r1 r3.
Proof. unfold same_category. intros H1 H2. repeat split; intuition congruence. Qed.

Lemma catalog_grows_refl d : catalog_grows d d.
Proof.
  split; apply extends_refl;
    [apply same_category_refl|apply same_item_refl].
Qed.

Lemma catalog_grows_trans d1 d2 d3 :
  catalog_grows d1 d2 -> catalog_grows d2 d3 -> catalog_grows d1 d3.
Proof.
  intros [Hc Hi] [Hc' Hi']. split.
  - eapply extends_trans; eauto using same_category_trans.
  - eapply extends_trans; eauto using same_item_trans.
Qed.

Lemma catalog_grows_syncSource env sid :
  respects catalog_grows (syncSource env sid).
Proof.
  assert (forall d d' : Db.t,
            Db.categories d' = Db.categories d ->
            Db.playlist_items d' = Db.playlist_items d ->
            catalog_grows d d') as Hsame.
  { intros d d' Hc Hi. unfold catalog_grows. rewrite Hc, Hi.
    apply catalog_grows_refl. }
  apply respects_syncSource;
    [apply catalog_grows_refl|apply catalog_grows_trans| | |
    |intros; by apply Hsame..].
  - intros type cat d. split; [|apply extends_refl, same_item_refl].
    apply extends_upsert; [apply same_category_refl|by intros old].
  - intros type item d. split; [apply extends_refl, same_category_refl|].
    apply extends_upsert; [apply same_item_refl|by intros old].
  - intros ch d. split; [apply extends_refl, same_category_refl|].
    apply extends_upsert; [apply same_item_refl|by intros old].
Qed.

Lemma extends_lookup {T} (same : T -> T -> Prop) t t' i old :
  extends same t t' -> t !! i = Some old ->
  exists new, t' !! i = Some new /\ same old new.
Proof.
  intros (kept & more & -> & Hkept) Hi.
  destruct (Forall2_lookup_l _ _ _ _ _ Hkept Hi) as (new & Hnew & Hsame).
  exists new. split; [|done]. by apply lookup_app_l_Some.
Qed.

(** X1. A sync of one source, and a sync of all of them, whether it fails
    or not, removes no category and no playlist item and moves none: every
    row stored before is still at its place afterwards, with the id, the
    source, the item or category id, the type and the hidden flag it had
    (and, for a playlist item, its stream URL, rating, year and date
    added); the rows the sync adds come after them. *)
Theorem sync_keeps_stored_rows (env : Env) (sourceId : Z) (st : State) :
  catalog_grows (db st) (db (syncSource env sourceId st).2)
  /\ catalog_grows (db st) (db (syncAll env st).2).
Proof.
  split; [apply catalog_grows_syncSource|].
  apply respects_syncAll;
    [apply catalog_grows_refl|apply catalog_grows_trans|].
  intros sid. apply catalog_grows_syncSource.
Qed.

(** ** Primary keys *)

Section UpsertKeys.
Context {T K : Type} (key : T -> K).
Variable conflict : T -> T -> bool.
Variable update : T -> T -> T.
Hypothesis conflict_key : forall old new, conflict old new = true <-> key old = key new.
Hypothesis update_key : forall old new, key (update old new) = key old.

Lemma upsert_keys_elem new t k :
  k ∈ key <$> Db.upsert conflict update new t -> k ∈ key <$> t \/ k = key new.
Proof.
  induction t as [|old t IH]; cbn [Db.upsert].
  - intros ->%list_elem_of_singleton. by right.
  - destruct (conflict old new).
    + rewrite !fmap_cons, update_key. by left.
    + rewrite !fmap_cons, !elem_of_cons. intros [->|H]; [by left; left|].
      destruct (IH H); [left; by right|by right].
Qed.

Lemma upsert_keys_NoDup new t :
  NoDup (key <$> t) -> NoDup (key <$> Db.upsert conflict update new t).
Proof.
  induction t as [|old t IH]; cbn [Db.upsert];
    [intros _; apply NoDup_singleton|].
  rewrite fmap_cons, NoDup_cons. intros [Hold Hnd].
  destruct (conflict old new) eqn:E.
  - rewrite fmap_cons, update_key. by apply NoDup_cons.
  - rewrite fmap_cons. apply NoDup_cons. split; [|by apply IH].
    intros [H|Heq]%upsert_keys_elem; [done|].
    assert (conflict old new = true) as E' by (by apply conflict_key).
    congruence.
Qed.

Lemma upsert_all_fresh_key {A} (row : A -> T) (items : list A) : forall table,
  NoDup (key ∘ row <$> items) ->
  (forall old item, old ∈ table -> item ∈ items -> key old <> key (row item)) ->
  fold_left (fun table item => Db.upsert conflict update (row item) table)
    items table
  = table ++ (row <$> items).
Proof.
  induction items as [|a items IH]; intros table Hnd Hfresh.
  - by rewrite app_nil_r.
  - rewrite fmap_cons, NoDup_cons in Hnd. destruct Hnd as [Ha Hnd].
    cbn [fold_left]. rewrite upsert_fresh.
    + rewrite IH; [by rewrite <- app_assoc|done|].
      intros old item [Hold|Hold%list_elem_of_singleton]%elem_of_app Hitem.
      * apply Hfresh; [done|by apply list_elem_of_further].
      * subst old. intros Heq. apply Ha.
        apply list_elem_of_fmap. exists item. by split.
    + intros old Hold. destruct (conflict old (row a)) eqn:E; [|done].
      apply conflict_key in E. exfalso.
      by apply (Hfresh old a); [|apply list_elem_of_here|].
Qed.

Lemma upsert_keys_in new t : key new ∈ key <$> Db.upsert conflict update new t.
Proof.
  induction t as [|old t IH]; cbn [Db.upsert]; [apply list_elem_of_here|].
  destruct (conflict old new) eqn:E; rewrite fmap_cons.
  - rewrite update_key. apply conflict_key in E. rewrite E.
    apply list_elem_of_here.
  - by apply list_elem_of_further.
Qed.

Lemma upsert_keys_mono new t k :
  k ∈ key <$> t -> k ∈ key <$> Db.upsert conflict update new t.
Proof.
  induction t as [|old t IH]; cbn [Db.upsert]; [by intros ?%elem_of_nil|].
  rewrite fmap_cons, elem_of_cons. intros [->|Hk].
  - destruct (conflict old new); rewrite fmap_cons, ?update_key;
      apply list_elem_of_here.
  - destruct (conflict old new); rewrite fmap_cons.
    + by apply list_elem_of_further.
    + by apply list_elem_of_further, IH.
Qed.

Lemma fold_upsert_keys_in {A} (row : A -> T) (items : list A) a : forall table,
  a ∈ items ->
  key (row a)
  ∈ key <$> fold_left (fun table item =>
                         Db.upsert conflict update (row item) table)
              items table.
Proof.
  assert (forall (l : list A) table k,
            k ∈ key <$> table ->
            k ∈ key <$> fold_left (fun table item =>
                                     Db.upsert conflict update (row item) table)
                          l table) as Hmono.
  { induction l as [|b l IH]; intros table k Hk; [done|].
    cbn [fold_left]. by apply IH, upsert_keys_mono. }
  induction items as [|b items IH]; intros table Ha;
    [by apply elem_of_nil in Ha|].
  cbn [fold_left]. apply elem_of_cons in Ha as [->|Ha].
  - apply Hmono, upsert_keys_in.
  - by apply IH.
Qed.

End UpsertKeys.

Lemma item_conflict_key old new :
  Db.item_conflict old new = true <-> Db.pi_id old = Db.pi_id new.
Proof. unfold Db.item_conflict. by rewrite bool_decide_eq_true. Qed.

Lemma category_conflict_key old new :
  Db.category_conflict old new = true <-> Db.cat_id old = Db.cat_id new.
Proof. unfold Db.category_conflict. by rewrite bool_decide_eq_true. Qed.

Lemma status_conflict_key old new :
  Db.status_conflict old new = true
  <-> (Db.ss_source_id old, Db.ss_type old) = (Db.ss_source_id new, Db.ss_type new).
Proof.
  unfold Db.status_conflict.
  rewrite andb_true_iff, !bool_decide_eq_true. split; [by intros [-> ->]|].
  by intros [= -> ->].
Qed.

Lemma keeps_keys_syncSource env sid : respects keeps_keys (syncSource env sid).
Proof.
  apply respects_syncSource.
  - intros d H. exact H.
  - intros d1 d2 d3 H12 H23 H. auto.
  - intros type cat [cats items progs stat] (Hc & Hi & Hs).
    split; [|done]. cbn.
    by apply (upsert_keys_NoDup Db.cat_id _ _ category_conflict_key).
  - intros type item [cats items progs stat] (Hc & Hi & Hs).
    split; [done|split; [|done]]. cbn.
    by apply (upsert_keys_NoDup Db.pi_id _ _ item_conflict_key).
  - intros ch [cats items progs stat] (Hc & Hi & Hs).
    split; [done|split; [|done]]. cbn.
    by apply (upsert_keys_NoDup Db.pi_id _ _ item_conflict_key).
  - intros [cats items progs stat] H. exact H.
  - intros progs [cats items progs' stat] H. exact H.
  - intros type now status err [cats items progs stat] (Hc & Hi & Hs).
    split; [done|split; [done|]]. cbn.
    by apply (upsert_keys_NoDup
                (fun r => (Db.ss_source_id r, Db.ss_type r)) _ _
                status_conflict_key).
Qed.

(** X2. The upserts keep the primary keys: when no two categories share an
    id, no two playlist items share an id and no two sync status rows share
    a source and scope, the same holds after a sync of one source and after
    a sync of all of them, failed or not. *)
Theorem sync_keeps_primary_keys (env : Env) (sourceId : Z) (st : State)
    (Hkeys : keys_unique (db st)) :
  keys_unique (db (syncSource env sourceId st).2)
  /\ keys_unique (db (syncAll env st).2).
Proof.
  split; [by apply keeps_keys_syncSource|].
  apply (respects_syncAll keeps_keys env);
    [intros d H; exact H| |apply keeps_keys_syncSource|done].
  intros d1 d2 d3 H12 H23 H. auto.
Qed.

Lemma sync_keeps_primary_keys_witness :
  keys_unique (db Scenario.idle)
  /\ keys_unique (db (syncSource Scenario.env 1 Scenario.idle).2)
  /\ keys_unique (db (syncAll Scenario.env Scenario.idle).2).
Proof.
  assert (keys_unique (db Scenario.idle)) as H by (repeat split; constructor).
  split; [exact H|].
  exact (sync_keeps_primary_keys Scenario.env 1 Scenario.idle H).
Defined.

(** ** A source that is switched off *)

Lemma active_add_delete sid (active : gset Z) :
  sid ∉ active -> ({[ sid ]} ∪ active) ∖ {[ sid ]} ∖ {[ sid ]} = active.
Proof.
  intros Hsid. apply set_eq. intros x.
  rewrite !elem_of_difference, elem_of_union, elem_of_singleton.
  split; [tauto|]. intros Hx. split; [split; [tauto|]|]; congruence.
Qed.

(** X3. A sync of a source that is switched off does nothing at all: it
    returns normally and leaves the active set, every table (no status row
    is written) and the clock as they were; and when every source is
    switched off, so does a sync of all of them. *)
Theorem syncSource_disabled (env : Env) (sourceId : Z) (source : Source)
    (st : State)
    (Hsource : getById env sourceId = Some source)
    (Hdisabled : src_enabled source = false) :
  syncSource env sourceId st = (Ok tt, st)
  /\ (Forall (fun s => src_enabled s = false) (getAll env) ->
      syncAll env st = (Ok tt, st)).
Proof.
  split.
  - unfold syncSource. case_decide as Hactive; [done|].
    unfold guarded, finally, try_catch, try_block.
    rewrite Hsource, Hdisabled. cbn [negb]. f_equal.
    destruct st as [active d now]. unfold delete_active, add_active.
    cbn [activeSyncs db clock] in *. f_equal. by apply active_add_delete.
  - intros Hall. unfold syncAll, try_catch.
    induction Hall as [|s l Hs _ IH]; [done|].
    cbn [for_each]. rewrite Hs. unfold mbind, M_bind, mret, M_ret in *.
    by destruct (for_each l _ st) as [[[]|e] st'].
Qed.

Lemma syncSource_disabled_witness :
  syncSource Cases.env 2 Scenario.idle = (Ok tt, Scenario.idle).
Proof.
  exact (proj1 (syncSource_disabled Cases.env 2 Cases.backup Scenario.idle
                  eq_refl eq_refl)).
Defined.

(** ** One source at a time *)

Lemma startsWith_app p s : startsWith (p ++ s) p = true.
Proof.
  induction p as [|a p IH]; [by destruct s|]. simpl. by rewrite N.eqb_refl.
Qed.

Lemma startsWith_prefix s p : startsWith s p = true -> exists rest, s = p ++ rest.
Proof.
  revert s. induction p as [|a p IH]; intros s; [by exists s|].
  destruct s as [|b s]; cbn [startsWith]; [done|].
  destruct (N.eqb_spec a b) as [->|]; [|done].
  intros (rest & ->)%IH. by exists rest.
Qed.

Lemma separator_prefix (c : N) a b x y :
  c ∉ a -> c ∉ b -> a ++ c :: x = b ++ c :: y -> a = b.
Proof.
  revert b. induction a as [|a0 a IH]; intros [|b0 b] Ha Hb Heq;
    simplify_eq/=; [done|..].
  - exfalso. apply Hb. apply list_elem_of_here.
  - exfalso. apply Ha. apply list_elem_of_here.
  - f_equal. apply IH; [| |done].
    + intros H. apply Ha. by apply list_elem_of_further.
    + intros H. apply Hb. by apply list_elem_of_further.
Qed.

Lemma pretty_N_go_chars (P : ascii -> Prop) x s :
  (forall d, P (pretty_N_char d)) ->
  Forall P (list_ascii_of_string s) ->
  Forall P (list_ascii_of_string (pretty_N_go x s)).
Proof.
  intros Hdigit. revert s.
  induction (N.lt_wf_0 x) as [x _ IH]; intros s Hs.
  assert (x = 0 \/ 0 < x)%N as [->|Hpos] by lia; [by rewrite pretty_N_go_0|].
  rewrite pretty_N_go_step by done. apply IH; [by apply N.div_lt|].
  simpl. by constructor.
Qed.

Lemma pretty_Z_chars (P : ascii -> Prop) (z : Z) :
  (forall d, P (pretty_N_char d)) -> P "-"%char ->
  Forall P (list_ascii_of_string (pretty z)).
Proof.
  intros Hdigit Hdash.
  assert (forall p : positive,
            Forall P (list_ascii_of_string (pretty (N.pos p)))) as Hpos.
  { intros p. unfold pretty, pretty_N. rewrite decide_False by done.
    apply pretty_N_go_chars; [done|constructor]. }
  destruct z as [|p|p]; unfold pretty, pretty_Z.
  - simpl. constructor; [apply (Hdigit 0%N)|constructor].
  - apply Hpos.
  - simpl. constructor; [done|apply Hpos].
Qed.

(** The decimal rendering of a source id has no colon. *)
Lemma num_to_string_no_colon z : 58%N ∉ num_to_string z.
Proof.
  unfold num_to_string, lit.
  intros (a & Ha & Hin)%list_elem_of_In%in_map_iff.
  pose proof (pretty_Z_chars (fun a => N_of_ascii a <> 58%N) z) as H.
  rewrite Forall_forall in H.
  eapply H; [| |apply list_elem_of_In, Hin|exact Ha].
  - intros d. unfold pretty_N_char. by repeat case_match.
  - done.
Qed.

Lemma keyed_by_composite sid v : keyed_by sid (composite_id sid v) = true.
Proof.
  unfold keyed_by, composite_id. rewrite (app_assoc _ (lit ":")).
  apply startsWith_app.
Qed.

(** No id is a composite id of two sources. *)
Lemma keyed_by_inj sid sid' id :
  keyed_by sid id = true -> keyed_by sid' id = true -> sid = sid'.
Proof.
  unfold keyed_by. intros (x & ->)%startsWith_prefix (y & Heq)%startsWith_prefix.
  apply num_to_string_inj. rewrite <- !app_assoc in Heq.
  by apply (separator_prefix 58%N _ _ x y); [apply num_to_string_no_colon..|].
Qed.

Lemma upsert_filter_other {T} (P : T -> Prop) `{forall x, Decision (P x)}
    conflict update (new : T) t :
  ~ P new ->
  (forall old, old ∈ t -> conflict old new = true ->
     ~ P old /\ ~ P (update old new)) ->
  filter P (Db.upsert conflict update new t) = filter P t.
Proof.
  intros Hnew. induction t as [|old t IH]; intros Hold; cbn [Db.upsert].
  - by rewrite filter_cons_False.
  - destruct (conflict old new) eqn:E.
    + destruct (Hold old) as [H1 H2]; [apply list_elem_of_here|done|].
      by rewrite !filter_cons_False.
    + rewrite !filter_cons, IH; [done|].
      intros r Hr. apply Hold. by apply list_elem_of_further.
Qed.

Lemma upsert_Forall {T} (Q : T -> Prop) conflict update (new : T) t :
  Q new -> (forall old, Q old -> Q (update old new)) ->
  Forall Q t -> Forall Q (Db.upsert conflict update new t).
Proof.
  intros Hnew Hupd. induction 1 as [|old t Hold Ht IH]; cbn [Db.upsert].
  - by constructor.
  - destruct (conflict old new); constructor; auto.
Qed.

Lemma filter_idem {T} (P : T -> Prop) `{forall x, Decision (P x)} (l : list T) :
  filter P (filter P l) = filter P l.
Proof. rewrite list_filter_filter. apply list_filter_iff. tauto. Qed.

Lemma isolated_refl sid d : isolated sid d d.
Proof. split; [done|split; [done|]]. by intros H. Qed.

Lemma isolated_trans sid d1 d2 d3 :
  isolated sid d1 d2 -> isolated sid d2 d3 -> isolated sid d1 d3.
Proof.
  intros (Hp & Hs & Hk) (Hp' & Hs' & Hk').
  split; [congruence|split; [congruence|]].
  intros Hd. destruct (Hk Hd) as (Hd2 & Hc & Hi).
  destruct (Hk' Hd2) as (Hd3 & Hc' & Hi').
  split; [done|split; congruence].
Qed.

Lemma isolated_item sid update (new : Db.playlist_item) d :
  Db.pi_source_id new = sid ->
  keyed_by sid (Db.pi_id new) = true ->
  (forall old, Db.pi_id (update old new) = Db.pi_id old
               /\ Db.pi_source_id (update old new) = Db.pi_source_id old) ->
  isolated sid d
    (Db.set_playlist_items (Db.upsert Db.item_conflict update new) d).
Proof.
  intros Hsource Hkeyed Hupd. destruct d as [cats items progs stat].
  split; [done|split; [done|]]. intros [Hcats Hitems].
  cbn [Db.categories Db.playlist_items] in Hcats, Hitems.
  split; [|split; [done|]].
  - split; [done|]. cbn [Db.set_playlist_items Db.playlist_items].
    apply upsert_Forall; [by rewrite Hsource|intros old Hold|done].
    by destruct (Hupd old) as [-> ->].
  - unfold other_items. cbn [Db.set_playlist_items Db.playlist_items].
    apply upsert_filter_other; [tauto|].
    intros old Hold Hconflict%bool_decide_eq_true.
    rewrite Forall_forall in Hitems. specialize (Hitems old Hold).
    rewrite Hconflict in Hitems.
    destruct (Hupd old) as [_ ->].
    pose proof (keyed_by_inj _ _ _ Hitems Hkeyed). tauto.
Qed.

Lemma filter_implies {T} (P Q : T -> Prop) `{forall x, Decision (P x)}
    `{forall x, Decision (Q x)} (l : list T) :
  (forall x, P x -> Q x) -> filter P (filter Q l) = filter P l.
Proof.
  intros HPQ. rewrite list_filter_filter. apply list_filter_iff.
  intros x. split; [tauto|]. intros HP. split; [done|by apply HPQ].
Qed.

Lemma find_filter {T} (f : T -> bool) (Q : T -> Prop)
    `{forall x, Decision (Q x)} (l : list T) :
  (forall x, f x = true -> Q x) -> find f (filter Q l) = find f l.
Proof.
  intros HfQ. induction l as [|x l IH]; [done|].
  rewrite filter_cons. destruct (decide (Q x)) as [HQ|HQ]; simpl.
  - by rewrite IH.
  - destruct (f x) eqn:E; [|done]. exfalso. by apply HQ, HfQ.
Qed.

Lemma isolated_category sid type cat d :
  isolated sid d (insertCategory sid type cat d).
Proof.
  destruct d as [cats items progs stat].
  split; [done|split; [done|]]. intros [Hcats Hitems].
  cbn [Db.categories Db.playlist_items] in Hcats, Hitems.
  split; [|split; [|done]].
  - split; [|done]. cbn.
    apply upsert_Forall; [apply keyed_by_composite|by intros old|done].
  - unfold other_categories. cbn.
    apply upsert_filter_other; [cbn; tauto|].
    intros old Hold Hconflict%bool_decide_eq_true.
    rewrite Forall_forall in Hcats. specialize (Hcats old Hold).
    rewrite Hconflict in Hcats. cbn in *.
    pose proof (keyed_by_inj _ _ _ Hcats (keyed_by_composite sid _)). tauto.
Qed.

Lemma isolated_stream sid type item d :
  isolated sid d (insertStream sid type item d).
Proof.
  apply isolated_item; [done|apply keyed_by_composite|by intros old].
Qed.

Lemma isolated_channel sid ch d :
  isolated sid d
    (Db.set_playlist_items
       (Db.upsert Db.item_conflict Db.channel_update (channel_row sid ch)) d).
Proof.
  apply isolated_item; [done|apply keyed_by_composite|by intros old].
Qed.

Lemma isolated_delete sid d : isolated sid d (deletePrograms sid d).
Proof.
  destruct d as [cats items progs stat]. split; [|by split].
  unfold other_programs. cbn. apply filter_idem.
Qed.

Lemma isolated_insert sid new d : isolated sid d (insertMany sid new d).
Proof.
  destruct d as [cats items progs stat]. split; [|by split].
  unfold other_programs. cbn. rewrite filter_app.
  rewrite (filter_none _ (map _ new)); [by rewrite app_nil_r|].
  apply Forall_forall. intros r (p & <- & _)%list_elem_of_In%in_map_iff.
  cbn. tauto.
Qed.

Lemma isolated_status sid type now status err d :
  isolated sid d
    (Db.set_sync_status
       (Db.upsert Db.status_conflict Db.status_update
          (Db.mkSyncStatus sid type now status err)) d).
Proof.
  destruct d as [cats items progs stat].
  split; [done|split; [|by intros ?]].
  unfold other_status. cbn.
  apply upsert_filter_other; [cbn; tauto|].
  intros old _ [Hold _]%andb_prop. apply bool_decide_eq_true in Hold.
  cbn in *. tauto.
Qed.

Ltac isolated_steps :=
  first
    [ apply isolated_refl
    | apply isolated_trans
    | intros; apply isolated_category
    | intros; apply isolated_stream
    | intros; apply isolated_channel
    | intros; apply isolated_delete
    | intros; apply isolated_insert
    | intros; apply isolated_status ].

Lemma isolated_syncSource env sid : respects (isolated sid) (syncSource env sid).
Proof.
  apply respects_syncSource; isolated_steps.
Qed.

Lemma isolated_resume env e st :
  (forall source, e = AwaitRoutine (exec_source e) source ->
     src_id source = exec_source e) ->
  isolated (exec_source e) (db st) (db (resume env e st).1).
Proof.
  intros Hsource.
  apply (respects_resume (isolated (exec_source e)) (exec_source e));
    first [done | isolated_steps].
Qed.

Lemma status_row_isolated sid other d d' :
  isolated sid d d' -> other <> sid -> status_row d' other = status_row d other.
Proof.
  intros (_ & Hstat & _) Hother. unfold status_row.
  rewrite <- (find_filter _ (fun r => Db.ss_source_id r <> sid)
                (Db.sync_status d')),
          <- (find_filter _ (fun r => Db.ss_source_id r <> sid)
                (Db.sync_status d)).
  - unfold other_status in Hstat. by rewrite Hstat.
  - intros r [Hr _]%andb_prop. apply bool_decide_eq_true in Hr. congruence.
  - intros r [Hr _]%andb_prop. apply bool_decide_eq_true in Hr. congruence.
Qed.

Lemma filter_others {T} (key : T -> Z) (f : T -> Prop)
    `{forall x, Decision (f x)} (sid other : Z) (l l' : list T) :
  other <> sid ->
  (forall r, f r -> key r = other) ->
  filter (fun r => key r <> sid) l' = filter (fun r => key r <> sid) l ->
  filter f l' = filter f l.
Proof.
  intros Hother Hf Heq.
  rewrite <- (filter_implies f (fun r => key r <> sid) l')
    by (intros r Hr%Hf; congruence).
  rewrite <- (filter_implies f (fun r => key r <> sid) l)
    by (intros r Hr%Hf; congruence).
  by rewrite Heq.
Qed.

(** X4. A sync of one source leaves the other sources alone. Whatever the
    provider answers and whether the sync fails or not, the programme rows
    and the sync status rows of every other source are as they were; and in
    a store where every catalog row is kept under a composite id of its own
    source (as every row the service writes is, and as the store then still
    is afterwards), so are their categories and playlist items. The read
    routes of another source therefore answer as they did before: its sync
    status, its streams, its categories, its M3U playlist and its guide. *)
Theorem sync_leaves_other_sources (env : Env) (sourceId other : Z) (st : State)
    (Hother : other <> sourceId) :
  let d := db st in
  let d' := db (syncSource env sourceId st).2 in
  isolated sourceId d d'
  /\ status_row d' other = status_row d other
  /\ programs_of d' other = programs_of d other
  /\ (well_keyed d ->
      (forall type categoryId includeHidden,
         getStreamsFromDb d' other type categoryId includeHidden
         = getStreamsFromDb d other type categoryId includeHidden)
      /\ (forall order type includeHidden,
            Catalog.getCategoriesFromDb order d' other type includeHidden
            = Catalog.getCategoriesFromDb order d other type includeHidden)
      /\ (forall order includeHidden,
            Catalog.m3u order d' other includeHidden
            = Catalog.m3u order d other includeHidden)
      /\ (forall toISOString now1 now2,
            epg toISOString d' other now1 now2
            = epg toISOString d other now1 now2)).
Proof.
  intros d d'.
  pose proof (isolated_syncSource env sourceId st) as Hiso.
  fold d d' in Hiso. split; [exact Hiso|].
  destruct Hiso as (Hprogs & Hstat & Hcatalog).
  split; [|split].
  - by apply (status_row_isolated sourceId).
  - unfold programs_of.
    by apply (filter_others Db.ep_source_id _ sourceId other).
  - intros Hkeyed. destruct (Hcatalog Hkeyed) as (_ & Hcats & Hitems).
    assert (forall type categoryId includeHidden,
              getStreamsFromDb d' other type categoryId includeHidden
              = getStreamsFromDb d other type categoryId includeHidden) as Hstreams.
    { intros type categoryId includeHidden. unfold getStreamsFromDb.
      f_equal. apply (filter_others Db.pi_source_id _ sourceId other);
        [done| |done].
      unfold selected.
      intros r [[[Hr _]%andb_prop_elim _]%andb_prop_elim _]%andb_prop_elim.
      by apply bool_decide_unpack in Hr. }
    assert (forall order type includeHidden,
              Catalog.getCategoriesFromDb order d' other type includeHidden
              = Catalog.getCategoriesFromDb order d other type includeHidden)
      as Hcategories.
    { intros order type includeHidden. unfold Catalog.getCategoriesFromDb.
      do 2 f_equal. apply (filter_others Db.cat_source_id _ sourceId other);
        [done| |done].
      unfold Catalog.category_selected.
      intros r [[Hr _]%andb_prop_elim _]%andb_prop_elim.
      by apply bool_decide_unpack in Hr. }
    split; [exact Hstreams|]. split; [exact Hcategories|]. split.
    + intros order includeHidden. unfold Catalog.m3u.
      by rewrite Hstreams, Hcategories.
    + intros toISOString now1 now2. unfold epg, window_programs.
      rewrite (filter_others Db.ep_source_id
                 (fun r => in_window other (now1 - DAY_MS) (now2 + DAY_MS) r)
                 sourceId other (Db.epg_programs d) (Db.epg_programs d'));
        [|done| |done].
      * rewrite (filter_others Db.pi_source_id
                   (fun r => bool_decide (Db.pi_source_id r = other)
                             && bool_decide (Db.pi_type r = lit "epg_channel"))
                   sourceId other (Db.playlist_items d) (Db.playlist_items d'));
          [done|done| |done].
        intros r [Hr _]%andb_prop_elim. by apply bool_decide_unpack in Hr.
      * unfold in_window.
        intros r [[Hr _]%andb_prop_elim _]%andb_prop_elim.
        by apply bool_decide_unpack in Hr.
Qed.

(** The live stream of the provider is served as before after the sync of
    the M3U playlist. *)
Lemma sync_leaves_other_sources_witness :
  getStreamsFromDb (db (syncSource Cases.env_m3u 3 Cases.synced).2)
    1 (lit "live") JUndefined false
  = getStreamsFromDb (db Cases.synced) 1 (lit "live") JUndefined false.
Proof.
  destruct (sync_leaves_other_sources Cases.env_m3u 3 1 Cases.synced
              ltac:(discriminate)) as (_ & _ & _ & Hread).
  destruct Hread as (Hstreams & _); [|apply Hstreams].
  split; [constructor|].
  constructor; [reflexivity|constructor].
Defined.

(** ** Categories, saved and read back *)

Lemma fold_insertCategory sid type cats d :
  fold_left (fun d cat => insertCategory sid type cat d) cats d
  = Db.set_categories
      (fun table =>
         fold_left
           (fun table cat =>
              Db.upsert Db.category_conflict Db.category_update
                (category_row sid type cat) table)
           cats table)
      d.
Proof.
  revert d. induction cats as [|a cats IH]; intros d; [by destruct d|].
  cbn [fold_left]. by rewrite IH.
Qed.

(** A store that holds nothing of a source yet. *)
Lemma first_sync_fresh_categories sid (d : Db.t) v old :
  well_keyed d -> other_categories sid d = Db.categories d ->
  old ∈ Db.categories d -> Db.cat_id old <> composite_id sid v.
Proof.
  intros [Hkeyed _] Hnone Hold Heq.
  rewrite Forall_forall in Hkeyed. specialize (Hkeyed old Hold).
  rewrite Heq in Hkeyed.
  pose proof (keyed_by_inj _ _ _ Hkeyed (keyed_by_composite sid v)) as Hsid.
  rewrite <- Hnone in Hold. unfold other_categories in Hold.
  by apply list_elem_of_filter in Hold as [Hne _].
Qed.

Lemma first_sync_fresh_items sid (d : Db.t) v old :
  well_keyed d -> other_items sid d = Db.playlist_items d ->
  old ∈ Db.playlist_items d -> Db.pi_id old <> composite_id sid v.
Proof.
  intros [_ Hkeyed] Hnone Hold Heq.
  rewrite Forall_forall in Hkeyed. specialize (Hkeyed old Hold).
  rewrite Heq in Hkeyed.
  pose proof (keyed_by_inj _ _ _ Hkeyed (keyed_by_composite sid v)) as Hsid.
  rewrite <- Hnone in Hold. unfold other_items in Hold.
  by apply list_elem_of_filter in Hold as [Hne _].
Qed.

Lemma category_ids_distinct sid type cats :
  NoDup ((fun cat => to_string (obj_get (lit "category_id") cat)) <$> cats) ->
  NoDup (Db.cat_id ∘ category_row sid type <$> cats).
Proof.
  induction cats as [|a cats IH]; [constructor|].
  rewrite !fmap_cons, !NoDup_cons. intros [Ha Hnd]. split; [|auto].
  intros (b & Heq & Hb)%list_elem_of_fmap. apply Ha.
  apply list_elem_of_fmap. exists b. split; [|done].
  by apply (composite_id_inj sid).
Qed.

(** What [saveCategories] leaves in [categories] when none of the
    categories is stored yet and their ids differ: one new row each, in
    order. *)
Lemma saveCategories_appends sid type cats st :
  NoDup ((fun cat => to_string (obj_get (lit "category_id") cat)) <$> cats) ->
  (forall old cat, old ∈ Db.categories (db st) -> cat ∈ cats ->
     Db.cat_id old <> composite_id sid (obj_get (lit "category_id") cat)) ->
  db (saveCategories sid type cats st).2
  = Db.set_categories (fun table => table ++ (category_row sid type <$> cats))
      (db st).
Proof.
  intros Hnd Hfresh. destruct cats as [|a cats].
  { destruct st as [active [cs items progs stat] now].
    unfold Db.set_categories. cbn [saveCategories mret M_ret snd db fmap list_fmap
      Db.categories Db.playlist_items Db.epg_programs Db.sync_status].
    by rewrite app_nil_r. }
  unfold saveCategories, modify_db. cbn [snd db].
  rewrite run_schedule_batches, schedule_concat, fold_insertCategory.
  destruct st as [active [cs items progs stat] now].
  unfold Db.set_categories.
  cbn [db Db.categories Db.playlist_items Db.epg_programs Db.sync_status] in *.
  f_equal.
  apply (upsert_all_fresh_key Db.cat_id _ _ category_conflict_key);
    [by apply category_ids_distinct|done].
Qed.

Lemma getCategoriesFromDb_app order (d d' : Db.t) sid type includeHidden rows :
  (forall l, order l ≡ₚ l) ->
  Db.categories d' = Db.categories d ++ rows ->
  Forall (fun r => Catalog.category_selected sid type includeHidden r = true) rows ->
  Catalog.getCategoriesFromDb order d' sid type includeHidden
  ≡ₚ Catalog.getCategoriesFromDb order d sid type includeHidden
     ++ map Catalog.category_object rows.
Proof.
  intros Horder Heq Hrows. unfold Catalog.getCategoriesFromDb.
  rewrite Heq, filter_app, <- map_app.
  apply Permutation_map. rewrite !Horder.
  rewrite (filter_all _ rows); [done|].
  eapply Forall_impl; [exact Hrows|]. intros r Hr. by rewrite Hr.
Qed.

(** X5. Categories saved are read back. When the category ids of a list
    differ and none is stored yet under its composite id, after
    [saveCategories] the category read path of that source and type
    returns, in the order of SQLite, what it returned before and one object
    for each category of the list, with [category_id] the text
    [String(category_id)] of the payload, [category_name] its
    [category_name] ([null] when missing) and [parent_id] its [parent_id],
    [null] when that is missing, [0] or empty. *)
Theorem saveCategories_read_back
    (order : list Db.category -> list Db.category) (sourceId : Z)
    (type : list N) (cats : list (list (list N * jsval))) (st : State)
    (includeHidden : bool)
    (Horder : forall l, order l ≡ₚ l)
    (Hdistinct :
       NoDup ((fun cat => to_string (obj_get (lit "category_id") cat)) <$> cats))
    (Hfresh : forall old cat,
        old ∈ Db.categories (db st) -> cat ∈ cats ->
        Db.cat_id old <> composite_id sourceId (obj_get (lit "category_id") cat)) :
  let d' := db (saveCategories sourceId type cats st).2 in
  let served cat :=
    [ (lit "category_id", JStr (to_string (obj_get (lit "category_id") cat)));
      (lit "category_name",
         match obj_get (lit "category_name") cat with
         | JUndefined => JNull
         | name => name
         end);
      (lit "parent_id",
         if truthy (obj_get (lit "parent_id") cat)
         then obj_get (lit "parent_id") cat else JNull) ] in
  Catalog.getCategoriesFromDb order d' sourceId type includeHidden
  ≡ₚ Catalog.getCategoriesFromDb order (db st) sourceId type includeHidden
     ++ map served cats.
Proof.
  intros d' served.
  assert (forall cat,
            Catalog.category_object (category_row sourceId type cat) = served cat)
    as Hserved.
  { intros cat. unfold Catalog.category_object, category_row, served, or_else.
    cbn [Db.cat_category_id Db.cat_name Db.cat_parent_id Db.read].
    repeat f_equal.
    - by destruct (obj_get (lit "category_name") cat).
    - destruct (truthy (obj_get (lit "parent_id") cat)) eqn:E; [|done].
      by destruct (obj_get (lit "parent_id") cat). }
  rewrite (getCategoriesFromDb_app order (db st) d' sourceId type includeHidden
             (category_row sourceId type <$> cats) Horder).
  - apply Permutation_app_head. rewrite <- list_fmap_compose.
    clear -Hserved. induction cats as [|cat cats IH]; [done|].
    cbn [fmap list_fmap map]. unfold compose at 1. by rewrite Hserved, IH.
  - subst d'. by rewrite saveCategories_appends.
  - apply Forall_fmap, Forall_forall. intros cat _.
    unfold Catalog.category_selected. cbn.
    rewrite !bool_decide_eq_true_2 by done. by rewrite orb_true_r.
Qed.

Lemma saveCategories_read_back_witness :
  Catalog.getCategoriesFromDb id
    (db (saveCategories 1 (lit "live") [Scenario.news] Scenario.idle).2)
    1 (lit "live") false
  ≡ₚ [ [ (lit "category_id", JStr (lit "1"));
         (lit "category_name", JStr (lit "News"));
         (lit "parent_id", JNull) ] ].
Proof.
  apply (saveCategories_read_back id 1 (lit "live") [Scenario.news]
           Scenario.idle false).
  - intros l. reflexivity.
  - apply NoDup_singleton.
  - intros old cat Hold. by apply elem_of_nil in Hold.
Defined.

(** ** Stream items, field by field *)

Lemma obj_get_absent k (o : list (list N * jsval)) :
  k ∉ o.*1 -> obj_get k o = JUndefined.
Proof.
  induction o as [|[k' v] o IH]; [done|].
  rewrite fmap_cons, not_elem_of_cons. intros [Hne Hk]. simpl.
  rewrite decide_False by done. by apply IH.
Qed.

Lemma json_roundtrip_keys k (o : list (list N * jsval)) :
  k ∉ o.*1 -> k ∉ (json_roundtrip o).*1.
Proof.
  intros Hk (kv & -> & [_ Hin]%list_elem_of_filter)%list_elem_of_fmap.
  apply Hk. apply list_elem_of_fmap. by exists kv.
Qed.

(** [JSON.stringify] drops the properties that are [undefined], which read
    as [undefined] anyway. *)
Lemma obj_get_json_roundtrip k (o : list (list N * jsval)) :
  NoDup o.*1 -> obj_get k (json_roundtrip o) = obj_get k o.
Proof.
  induction o as [|[k' v] o IH]; [done|].
  rewrite fmap_cons, NoDup_cons. intros [Hk' Hnd].
  unfold json_roundtrip. rewrite filter_cons. cbn [snd].
  destruct (decide (v <> JUndefined)) as [Hv|Hv].
  - simpl. destruct (decide (k' = k)); [done|by apply IH].
  - apply dec_stable in Hv. subst v. fold (json_roundtrip o). simpl.
    destruct (decide (k' = k)) as [<-|Hne]; [|by apply IH].
    by apply obj_get_absent, json_roundtrip_keys.
Qed.

(** The properties the read path overrides. *)
Lemma stream_object_other type r k :
  k ∉ [ lit "stream_id"; lit "series_id"; lit "name"; lit "stream_icon";
        lit "cover"; lit "added"; lit "rating"; lit "container_extension";
        lit "category_id" ] ->
  obj_get k (stream_object type r) = obj_get k (Db.pi_data r).
Proof.
  rewrite !not_elem_of_cons. intros (H1&H2&H3&H4&H5&H6&H7&H8&H9&_).
  unfold stream_object. cbn [fold_left fst snd].
  by rewrite !obj_get_set_ne by done.
Qed.

Lemma stream_object_all type r :
  let o := stream_object type r in
  obj_get (lit "stream_id") o = Db.read (Db.pi_item_id r)
  /\ obj_get (lit "series_id") o
     = (if decide (type = lit "series") then Db.read (Db.pi_item_id r)
        else JUndefined)
  /\ obj_get (lit "name") o = Db.read (Db.pi_name r)
  /\ obj_get (lit "stream_icon") o = Db.read (Db.pi_stream_icon r)
  /\ obj_get (lit "cover") o = Db.read (Db.pi_stream_icon r)
  /\ obj_get (lit "added") o = Db.read (Db.pi_added_at r)
  /\ obj_get (lit "rating") o = Db.read (Db.pi_rating r)
  /\ obj_get (lit "container_extension") o
     = Db.read (Db.pi_container_extension r)
  /\ obj_get (lit "category_id") o = Db.read (Db.pi_category_id r).
Proof. unfold stream_object. cbn [fold_left fst snd]. by obj_get. Qed.

(** X6. What the stream read path serves for an item saved for the first
    time, beyond its identifying fields. The object served has [series_id]
    equal to the text of the item id for a series and [undefined]
    otherwise; [stream_icon] and [cover] both the icon the mapping
    extracted ([stream_icon], or [cover] for a series); [added], [rating]
    and [container_extension] the values the mapping extracted, a missing
    one read back as [null]; and every other property of the payload as
    the provider sent it. So a live stream is served with [rating] and
    [container_extension] [null] whatever its payload carried, and a series
    with [added] its [last_modified]. *)
Theorem saveStreams_serves_fields (sourceId : Z) (type : list N)
    (items : list (list (list N * jsval))) (st : State)
    (item : list (list N * jsval))
    (Hdistinct : NoDup (item_id type <$> items))
    (Hfresh : forall old item',
        old ∈ Db.playlist_items (db st) -> item' ∈ items ->
        Db.pi_id old <> composite_id sourceId (m_itemId (map_fields type item')))
    (Hitem : item ∈ items)
    (Hobject : NoDup item.*1) :
  let d' := db (saveStreams sourceId type items st).2 in
  let m := map_fields type item in
  exists o,
    o ∈ getStreamsFromDb d' sourceId type JUndefined false
    /\ obj_get (lit "stream_id") o = JStr (to_string (m_itemId m))
    /\ obj_get (lit "series_id") o
       = (if decide (type = lit "series") then JStr (to_string (m_itemId m))
          else JUndefined)
    /\ obj_get (lit "stream_icon") o = Db.read (Db.bind (m_icon m))
    /\ obj_get (lit "cover") o = Db.read (Db.bind (m_icon m))
    /\ obj_get (lit "added") o = Db.read (Db.bind (m_added m))
    /\ obj_get (lit "rating") o = Db.read (Db.bind (m_rating m))
    /\ obj_get (lit "container_extension") o = Db.read (Db.bind (m_container m))
    /\ (forall k,
          k ∉ [ lit "stream_id"; lit "series_id"; lit "name"; lit "stream_icon";
                lit "cover"; lit "added"; lit "rating";
                lit "container_extension"; lit "category_id" ] ->
          obj_get k o = obj_get k item)
    /\ (type = lit "live" ->
        obj_get (lit "rating") o = JNull
        /\ obj_get (lit "container_extension") o = JNull
        /\ obj_get (lit "added") o
           = Db.read (Db.bind (obj_get (lit "added") item)))
    /\ (type = lit "series" ->
        obj_get (lit "series_id") o
        = JStr (to_string (obj_get (lit "series_id") item))
        /\ obj_get (lit "cover") o
           = Db.read (Db.bind (obj_get (lit "cover") item))
        /\ obj_get (lit "added") o
           = Db.read (Db.bind (obj_get (lit "last_modified") item))
        /\ obj_get (lit "container_extension") o = JNull).
Proof.
  intros d' m. exists (stream_object type (stream_row sourceId type item)).
  split.
  { subst d'. rewrite getStreamsFromDb_saveStreams
      by (by apply saveStreams_appends).
    apply elem_of_app. right.
    apply list_elem_of_fmap. by exists item. }
  destruct (stream_object_all type (stream_row sourceId type item))
    as (Hid & Hseries & _ & Hicon & Hcover & Hadded & Hrating & Hcont & _).
  cbn [stream_row Db.pi_item_id Db.pi_stream_icon Db.pi_added_at Db.pi_rating
       Db.pi_container_extension Db.read] in *. fold m in Hid, Hseries, Hicon,
    Hcover, Hadded, Hrating, Hcont.
  split; [exact Hid|]. split; [exact Hseries|]. split; [exact Hicon|].
  split; [exact Hcover|]. split; [exact Hadded|]. split; [exact Hrating|].
  split; [exact Hcont|]. split; [|split].
  - intros k Hk. rewrite stream_object_other by done.
    cbn [stream_row Db.pi_data]. by apply obj_get_json_roundtrip.
  - intros ->. rewrite Hrating, Hcont, Hadded. by subst m.
  - intros ->. rewrite Hseries, Hcover, Hadded, Hcont. by subst m.
Qed.

Lemma saveStreams_serves_fields_witness :
  exists o,
    o ∈ getStreamsFromDb
          (db (saveStreams 1 (lit "live") [Scenario.cnn] Scenario.idle).2)
          1 (lit "live") JUndefined false
    /\ obj_get (lit "rating") o = JNull
    /\ obj_get (lit "epg_channel_id") o
       = obj_get (lit "epg_channel_id") Scenario.cnn.
Proof.
  destruct (saveStreams_serves_fields 1 (lit "live") [Scenario.cnn]
              Scenario.idle Scenario.cnn)
    as (o & Hin & _ & _ & _ & _ & _ & _ & _ & Hother & Hlive & _).
  - apply NoDup_singleton.
  - intros old item' Hold. by apply elem_of_nil in Hold.
  - apply list_elem_of_here.
  - apply (bool_decide_unpack _). vm_compute. exact I.
  - exists o. split; [exact Hin|]. split; [by apply Hlive|].
    apply Hother. apply (bool_decide_unpack _). vm_compute. exact I.
Defined.

(** ** A second sync of the same item *)

(** X7. What a re-sync refreshes and what it keeps. When an item is saved
    whose composite id is already stored (in a table with a primary key,
    the item ids of the batch being different), the row stays the only one
    under that id; it takes the name, the category, the icon, the container
    extension and the payload of the new item, and keeps the source, item
    id, type, stream URL, rating, year, date added and hidden flag it had.
    So the read path goes on serving the rating and the date added of the
    first sync, and a row that was hidden is still not served. *)
Theorem saveStreams_resync (sourceId : Z) (type : list N)
    (items : list (list (list N * jsval))) (st : State)
    (item : list (list N * jsval)) (old : Db.playlist_item)
    (Hkey : NoDup (Db.pi_id <$> Db.playlist_items (db st)))
    (Hdistinct : NoDup (item_id type <$> items))
    (Hitem : item ∈ items)
    (Hold : old ∈ Db.playlist_items (db st))
    (Hid : Db.pi_id old
           = composite_id sourceId (m_itemId (map_fields type item))) :
  let d' := db (saveStreams sourceId type items st).2 in
  let new := stream_row sourceId type item in
  exists r,
    filter (fun r => Db.pi_id r = Db.pi_id old) (Db.playlist_items d') = [r]
    /\ Db.pi_name r = Db.pi_name new
    /\ Db.pi_category_id r = Db.pi_category_id new
    /\ Db.pi_stream_icon r = Db.pi_stream_icon new
    /\ Db.pi_container_extension r = Db.pi_container_extension new
    /\ Db.pi_data r = Db.pi_data new
    /\ Frame.same_item old r
    /\ (forall t, obj_get (lit "rating") (stream_object t r)
                  = Db.read (Db.pi_rating old))
    /\ (forall t, obj_get (lit "added") (stream_object t r)
                  = Db.read (Db.pi_added_at old))
    /\ (Db.pi_is_hidden old <> 0 ->
        forall s t categoryId, selected s t categoryId false r = false).
Proof.
  intros d' new. exists (Db.item_update old new).
  split.
  - pose proof (saveStreams_row sourceId type items st item Hkey Hdistinct Hitem)
      as Hrow.
    fold d' new in Hrow. change (Db.pi_id new) with
      (composite_id sourceId (m_itemId (map_fields type item))) in Hrow.
    rewrite <- Hid in Hrow.
    by rewrite (filter_key_singleton Db.pi_id (Db.playlist_items (db st)) old)
      in Hrow.
  - repeat split; try done.
    + intros t. by destruct (stream_object_all t (Db.item_update old new))
        as (_&_&_&_&_&_&->&_).
    + intros t. by destruct (stream_object_all t (Db.item_update old new))
        as (_&_&_&_&_&->&_).
    + intros Hhidden s t categoryId. unfold selected.
      cbn [Db.item_update Db.pi_is_hidden Db.pi_source_id Db.pi_type orb].
      apply Z.eqb_neq in Hhidden. rewrite Hhidden.
      by rewrite andb_false_r.
Qed.

Lemma saveStreams_resync_witness :
  exists r,
    filter (fun r => Db.pi_id r = lit "1:10")
      (Db.playlist_items
         (db (saveStreams 1 (lit "live") [Cases.cnn_renamed] Cases.synced).2))
    = [r]
    /\ Db.pi_name r = Db.SText (lit "CNN International")
    /\ Db.pi_added_at r = Db.SNull.
Proof.
  destruct (saveStreams_resync 1 (lit "live") [Cases.cnn_renamed] Cases.synced
              Cases.cnn_renamed (stream_row 1 (lit "live") Scenario.cnn))
    as (r & Hrow & Hname & _ & _ & _ & _ & Hsame & _).
  - apply (bool_decide_unpack _). vm_compute. exact I.
  - apply NoDup_singleton.
  - apply list_elem_of_here.
  - vm_compute. apply list_elem_of_here.
  - reflexivity.
  - exists r. split; [exact Hrow|]. split; [exact Hname|].
    destruct Hsame as (_&_&_&_&_&_&_&Hadded&_). exact Hadded.
Defined.

(** ** An M3U playlist, synced and served *)

Lemma pretty_N_go_nonempty x s : s <> ""%string -> pretty_N_go x s <> ""%string.
Proof.
  revert s. induction (N.lt_wf_0 x) as [x _ IH]; intros s Hs.
  assert (x = 0 \/ 0 < x)%N as [->|Hpos] by lia; [by rewrite pretty_N_go_0|].
  rewrite pretty_N_go_step by done. apply IH; [by apply N.div_lt|done].
Qed.

Lemma num_to_string_nonempty z : num_to_string z <> [].
Proof.
  assert (forall p : positive, pretty (N.pos p) <> ""%string) as Hpos.
  { intros p. unfold pretty, pretty_N. rewrite decide_False by done.
    rewrite pretty_N_go_step by done. by apply pretty_N_go_nonempty. }
  unfold num_to_string, lit. intros H.
  assert (pretty z = ""%string) as Hz.
  { destruct (pretty z); [done|discriminate]. }
  clear H. destruct z as [|p|p]; unfold pretty, pretty_Z in Hz.
  - discriminate.
  - by apply (Hpos p).
  - discriminate.
Qed.

(** The text of a truthy value is not empty. *)
Lemma to_string_truthy v : truthy v = true -> truthy (JStr (to_string v)) = true.
Proof.
  destruct v as [| |z|s]; cbn [truthy to_string]; try done.
  - intros _. pose proof (num_to_string_nonempty z).
    by destruct (num_to_string z).
Qed.

Ltac obj_lit :=
  cbn [obj_get];
  repeat first
    [ rewrite decide_True by reflexivity
    | rewrite decide_False by (vm_compute; discriminate) ].

Lemma map_fields_live item :
  map_fields (lit "live") item
  = mkMapped (obj_get (lit "stream_id") item) (obj_get (lit "name") item)
      (obj_get (lit "category_id") item) (obj_get (lit "stream_icon") item)
      JUndefined JNull JNull (obj_get (lit "added") item).
Proof. unfold map_fields. by rewrite decide_True. Qed.

Lemma channel_item_fields ch :
  obj_get (lit "stream_id") (channel_item ch) = obj_get (lit "id") ch
  /\ obj_get (lit "name") (channel_item ch) = obj_get (lit "name") ch
  /\ obj_get (lit "category_id") (channel_item ch)
     = or_else (obj_get (lit "groupTitle") ch) (JStr (lit "Uncategorized"))
  /\ obj_get (lit "stream_icon") (channel_item ch) = obj_get (lit "tvgLogo") ch
  /\ obj_get (lit "stream_url") (channel_item ch) = obj_get (lit "url") ch
  /\ obj_get (lit "url") (channel_item ch) = JUndefined
  /\ obj_get (lit "added") (channel_item ch) = JUndefined.
Proof. unfold channel_item. repeat split; by obj_lit. Qed.

Lemma channel_item_keys ch : NoDup (channel_item ch).*1.
Proof. apply (bool_decide_unpack _). vm_compute. exact I. Qed.

(** The channel object of [GET /m3u/:sourceId] for a channel of the
    playlist stored by a first sync. *)
Lemma m3u_channel_fields sid ch :
  let c := Catalog.m3u_channel
             (stream_object (lit "live")
                (stream_row sid (lit "live") (channel_item ch))) in
  obj_get (lit "id") c = JStr (to_string (obj_get (lit "id") ch))
  /\ obj_get (lit "name") c = Db.read (Db.bind (obj_get (lit "name") ch))
  /\ obj_get (lit "groupTitle") c
     = JStr (to_string
               (or_else (obj_get (lit "groupTitle") ch)
                  (JStr (lit "Uncategorized"))))
  /\ obj_get (lit "url") c
     = (if truthy (obj_get (lit "url") ch) then obj_get (lit "url") ch
        else JUndefined)
  /\ obj_get (lit "tvgLogo") c = Db.read (Db.bind (obj_get (lit "tvgLogo") ch)).
Proof.
  intros c. subst c.
  set (r := stream_row sid (lit "live") (channel_item ch)).
  destruct (stream_object_all (lit "live") r)
    as (Hid & _ & Hname & Hicon & _ & _ & _ & _ & Hcat).
  destruct (channel_item_fields ch) as (Fid & Fname & Fcat & Ficon & Furl & Fnone & _).
  assert (obj_get (lit "stream_url") (stream_object (lit "live") r)
          = obj_get (lit "url") ch) as Hurl.
  { rewrite stream_object_other
      by (apply (bool_decide_unpack _); vm_compute; exact I).
    subst r. cbn [stream_row Db.pi_data].
    by rewrite obj_get_json_roundtrip by apply channel_item_keys. }
  assert (obj_get (lit "url") (stream_object (lit "live") r) = JUndefined)
    as Hnone.
  { rewrite stream_object_other
      by (apply (bool_decide_unpack _); vm_compute; exact I).
    subst r. cbn [stream_row Db.pi_data].
    by rewrite obj_get_json_roundtrip by apply channel_item_keys. }
  subst r. cbn [stream_row Db.pi_item_id Db.pi_name Db.pi_stream_icon
                Db.pi_category_id Db.read] in Hid, Hname, Hicon, Hcat.
  rewrite map_fields_live in Hid, Hname, Hicon, Hcat.
  cbn [m_itemId m_name m_icon m_catId] in Hid, Hname, Hicon, Hcat.
  rewrite Fid in Hid. rewrite Fname in Hname. rewrite Ficon in Hicon.
  rewrite Fcat in Hcat.
  unfold Catalog.m3u_channel. cbn [fold_left fst snd].
  obj_get. rewrite Hid, Hname, Hicon, Hcat, Hurl, Hnone.
  split; [done|]. split; [done|]. split; [|split; [|done]].
  - unfold or_else at 1.
    rewrite to_string_truthy; [done|].
    unfold or_else. by destruct (truthy (obj_get (lit "groupTitle") ch)) eqn:E.
  - unfold or_else. by destruct (truthy (obj_get (lit "url") ch)).
Qed.

Lemma map_fmap {A B} (f : A -> B) (l : list A) : map f l = f <$> l.
Proof. reflexivity. Qed.

Lemma saveStreams_categories sid type items st :
  Db.categories (db (saveStreams sid type items st).2) = Db.categories (db st).
Proof.
  destruct items as [|a items]; [done|].
  unfold saveStreams, modify_db. cbn [snd db].
  by rewrite run_schedule_batches, schedule_concat, fold_insertStream.
Qed.

Lemma group_category_fields g :
  obj_get (lit "category_id") (group_category g) = obj_get (lit "name") g
  /\ obj_get (lit "category_name") (group_category g) = obj_get (lit "name") g
  /\ obj_get (lit "parent_id") (group_category g) = JNull.
Proof. unfold group_category. repeat split; by obj_lit. Qed.

(** The tables a first M3U sync leaves. *)
Lemma syncM3u_tables env source st channels groups :
  m3u_fetchAndParse env (src_url source) = Ok (channels, groups) ->
  NoDup ((fun ch => to_string (obj_get (lit "id") ch)) <$> channels) ->
  NoDup ((fun g => to_string (obj_get (lit "name") g)) <$> groups) ->
  well_keyed (db st) ->
  other_categories (src_id source) (db st) = Db.categories (db st) ->
  other_items (src_id source) (db st) = Db.playlist_items (db st) ->
  (syncM3u env source st).1 = Ok tt
  /\ Db.categories (db (syncM3u env source st).2)
     = Db.categories (db st)
       ++ (category_row (src_id source) (lit "live") ∘ group_category <$> groups)
  /\ Db.playlist_items (db (syncM3u env source st).2)
     = Db.playlist_items (db st)
       ++ (stream_row (src_id source) (lit "live") ∘ channel_item <$> channels).
Proof.
  intros Hparsed Hchannels Hgroups Hkeyed Hnc Hni.
  unfold syncM3u. rewrite Hparsed, bind_await_ok. cbn [fst snd].
  change (map group_category groups) with (group_category <$> groups).
  change (map channel_item channels) with (channel_item <$> channels).
  rewrite bind_ok by apply saveCategories_ok.
  set (sid := src_id source) in *.
  set (st1 := (saveCategories sid (lit "live") (group_category <$> groups) st).2).
  assert (db st1
          = Db.set_categories
              (fun table =>
                 table ++ (category_row sid (lit "live")
                             <$> (group_category <$> groups)))
              (db st)) as Hst1.
  { apply saveCategories_appends.
    - rewrite <- list_fmap_compose.
      erewrite list_fmap_ext; [exact Hgroups|].
      intros i g _. unfold compose.
      by destruct (group_category_fields g) as [-> _].
    - intros old cat Hold _.
      by apply (first_sync_fresh_categories sid (db st)). }
  split; [apply saveStreams_ok|]. split.
  - rewrite saveStreams_categories, Hst1. destruct (db st). cbn.
    by rewrite <- list_fmap_compose.
  - rewrite saveStreams_appends.
    + rewrite Hst1. destruct (db st). cbn.
      by rewrite <- list_fmap_compose.
    + rewrite <- list_fmap_compose.
      erewrite list_fmap_ext; [exact Hchannels|].
      intros i ch _. unfold item_id, compose. rewrite map_fields_live.
      cbn [m_itemId]. by destruct (channel_item_fields ch) as [-> _].
    + intros old item Hold _.
      apply (first_sync_fresh_items sid (db st)); [done|done|].
      rewrite Hst1 in Hold. by destruct (db st).
Qed.

Lemma other_items_none sid (d : Db.t) type categoryId includeHidden :
  other_items sid d = Db.playlist_items d ->
  filter (fun r => selected sid type categoryId includeHidden r)
    (Db.playlist_items d) = [].
Proof.
  intros <-. apply filter_none, Forall_forall.
  intros r [Hr _]%list_elem_of_filter. unfold selected.
  intros [[[H _]%andb_prop_elim _]%andb_prop_elim _]%andb_prop_elim.
  by apply bool_decide_unpack in H.
Qed.

Lemma other_categories_none sid (d : Db.t) type includeHidden :
  other_categories sid d = Db.categories d ->
  filter (fun r => Catalog.category_selected sid type includeHidden r)
    (Db.categories d) = [].
Proof.
  intros <-. apply filter_none, Forall_forall.
  intros r [Hr _]%list_elem_of_filter. unfold Catalog.category_selected.
  intros [[H _]%andb_prop_elim _]%andb_prop_elim.
  by apply bool_decide_unpack in H.
Qed.

(** X8. An M3U playlist synced for the first time is served back by
    [GET /m3u/:sourceId]. When the playlist parses into channels with
    different ids and groups with different names, and the store, well
    keyed, holds nothing of the source yet, [syncM3u] succeeds and the
    route answers with one channel object per channel of the playlist, in
    the order of the playlist, whose [id] is the text of the channel id,
    [name] the channel name, [groupTitle] the text of the group title or
    [Uncategorized] when the channel has none, [url] the channel URL (it
    travels in the stored payload; [undefined] when the channel has none)
    and [tvgLogo] the logo; and with one group object per group, [id] the
    text of the group name, [name] the group name and [channelCount] 0. *)
Theorem syncM3u_served (order : list Db.category -> list Db.category)
    (env : Env) (source : Source) (st : State)
    (channels groups : list (list (list N * jsval)))
    (includeHidden : option (list N))
    (Horder : forall l, order l ≡ₚ l)
    (Hparsed : m3u_fetchAndParse env (src_url source) = Ok (channels, groups))
    (Hchannels :
       NoDup ((fun ch => to_string (obj_get (lit "id") ch)) <$> channels))
    (Hgroups :
       NoDup ((fun g => to_string (obj_get (lit "name") g)) <$> groups))
    (Hkeyed : well_keyed (db st))
    (Hcategories :
       other_categories (src_id source) (db st) = Db.categories (db st))
    (Hitems : other_items (src_id source) (db st) = Db.playlist_items (db st)) :
  let after := syncM3u env source st in
  let served := Catalog.m3u order (db after.2) (src_id source) includeHidden in
  after.1 = Ok tt
  /\ Forall2
       (fun ch c =>
          obj_get (lit "id") c = JStr (to_string (obj_get (lit "id") ch))
          /\ obj_get (lit "name") c
             = Db.read (Db.bind (obj_get (lit "name") ch))
          /\ obj_get (lit "groupTitle") c
             = JStr (to_string
                       (or_else (obj_get (lit "groupTitle") ch)
                          (JStr (lit "Uncategorized"))))
          /\ obj_get (lit "url") c
             = (if truthy (obj_get (lit "url") ch) then obj_get (lit "url") ch
                else JUndefined)
          /\ obj_get (lit "tvgLogo") c
             = Db.read (Db.bind (obj_get (lit "tvgLogo") ch)))
       channels served.1
  /\ served.2
     ≡ₚ (fun g =>
           [ (lit "id", JStr (to_string (obj_get (lit "name") g)));
             (lit "name", Db.read (Db.bind (obj_get (lit "name") g)));
             (lit "channelCount", JNum 0) ]) <$> groups.
Proof.
  intros after served.
  destruct (syncM3u_tables env source st channels groups)
    as (Hok & Hcats & Hrows); [done..|].
  fold after in Hok, Hcats, Hrows. split; [exact Hok|].
  set (sid := src_id source) in *.
  set (h := bool_decide (includeHidden = Some (lit "true"))).
  split.
  - subst served. unfold Catalog.m3u. cbn [fst]. fold h.
    unfold getStreamsFromDb. rewrite Hrows, filter_app.
    rewrite other_items_none by done. rewrite app_nil_l.
    rewrite filter_all.
    + rewrite !map_fmap, <- !list_fmap_compose.
      apply Forall2_fmap_r, Forall_Forall2_diag, Forall_forall.
      intros ch _. apply (m3u_channel_fields sid ch).
    + apply Forall_fmap, Forall_forall. intros ch _.
      unfold selected, compose. cbn [stream_row Db.pi_source_id Db.pi_type
        Db.pi_is_hidden truthy]. rewrite !bool_decide_eq_true_2 by done.
      by rewrite orb_true_r.
  - subst served. unfold Catalog.m3u. cbn [snd]. fold h.
    unfold Catalog.getCategoriesFromDb. rewrite Hcats, filter_app.
    rewrite other_categories_none by done. rewrite app_nil_l.
    rewrite filter_all.
    + rewrite !map_fmap, Horder, <- !list_fmap_compose.
      erewrite list_fmap_ext; [done|].
      intros i g _. unfold compose, Catalog.m3u_group, Catalog.category_object.
      cbn [category_row Db.cat_category_id Db.cat_name Db.cat_parent_id].
      obj_lit. destruct (group_category_fields g) as (-> & -> & _).
      done.
    + apply Forall_fmap, Forall_forall. intros g _.
      unfold Catalog.category_selected, compose.
      cbn [category_row Db.cat_source_id Db.cat_type Db.cat_is_hidden].
      rewrite !bool_decide_eq_true_2 by done. by rewrite orb_true_r.
Qed.

Lemma syncM3u_served_witness :
  (syncM3u Cases.env_m3u Cases.playlist Scenario.idle).1 = Ok tt.
Proof.
  refine (proj1 (syncM3u_served id Cases.env_m3u Cases.playlist Scenario.idle
                   [Cases.one] [ [ (lit "name", JStr (lit "News")) ] ] None
                   _ eq_refl _ _ _ eq_refl eq_refl)).
  - intros l. reflexivity.
  - apply NoDup_singleton.
  - apply NoDup_singleton.
  - split; constructor.
Defined.

(** ** The guide, ingested and served *)

Lemma filter_fmap_gen {A B} (f : A -> B) (P : B -> Prop)
    `{forall x, Decision (P x)} (l : list A) :
  filter P (f <$> l) = f <$> filter (fun a => P (f a)) l.
Proof.
  induction l as [|a l IH]; [done|].
  rewrite fmap_cons, !filter_cons, IH.
  by destruct (decide (P (f a))).
Qed.

(** X9. The guide served after an ingest. When the feed of a source has
    been fetched and parsed, [GET /epg/:sourceId] serves exactly the
    programmes of that feed that overlap the window from 24 hours before
    to 24 hours after now, in the order of the feed, each with its channel
    id, title, start and stop time, and as [desc] its [description] or else
    its [desc]; a programme without a start or a stop time counts as
    starting or ending at time 0, so that, the clock being past the first
    day of 1970, a programme without a stop time is never served. *)
Theorem epg_serves_window (env : Env) (sourceId : Z) (url : list N)
    (st : State) (channels : list (list (list N * jsval)))
    (progs : list Db.programme) (toISOString : Z -> list N) (now1 now2 : Z)
    (Hparsed : epg_fetchAndParse env url = Ok (channels, progs)) :
  let d' := db (syncEpgFromUrl env sourceId url st).2 in
  let shown (p : Db.programme) :=
    (now1 - DAY_MS <? time_or_0 (Db.p_stop p))
    && (time_or_0 (Db.p_start p) <? now2 + DAY_MS) in
  let served (p : Db.programme) :=
    let f k := obj_get (lit k) (Db.p_props p) in
    [ (lit "channelId", Db.read (Db.bind (f "channelId")));
      (lit "start", JStr (toISOString (time_or_0 (Db.p_start p))));
      (lit "stop", JStr (toISOString (time_or_0 (Db.p_stop p))));
      (lit "title", Db.read (Db.bind (f "title")));
      (lit "desc", Db.read (Db.bind (or_else (f "description") (f "desc")))) ] in
  served_programmes (epg toISOString d' sourceId now1 now2)
  = served <$> filter (fun p => shown p) progs
  /\ (DAY_MS <= now1 ->
      forall p, Db.p_stop p = None -> shown p = false).
Proof.
  intros d' shown served. split.
  - unfold served_programmes, epg. cbn [payload]. unfold window_programs.
    subst d'. rewrite syncEpgFromUrl_programs, Hparsed. cbn [snd].
    unfold replaced. rewrite filter_app.
    rewrite (filter_none _ (filter _ _)).
    + rewrite app_nil_l, filter_fmap_gen, map_fmap, <- list_fmap_compose.
      f_equal. apply list_filter_iff. intros p.
      unfold in_window, shown.
      cbn [program_row Db.ep_source_id Db.ep_end_time Db.ep_start_time].
      by rewrite bool_decide_eq_true_2 by done.
    + apply Forall_forall. intros r [Hr _]%list_elem_of_filter.
      unfold in_window.
      intros [[H _]%andb_prop_elim _]%andb_prop_elim.
      by apply bool_decide_unpack in H.
  - intros Hnow p Hstop. unfold shown. rewrite Hstop. cbn [time_or_0 default].
    apply andb_false_intro1, Z.ltb_ge. lia.
Qed.

Lemma epg_serves_window_witness :
  length
    (served_programmes
       (epg (fun _ => [])
          (db (syncEpgFromUrl Cases.env_epg 4 (lit "http://g/epg.xml")
                 Scenario.idle).2)
          4 DAY_MS DAY_MS))
  = 1%nat.
Proof.
  rewrite (proj1 (epg_serves_window Cases.env_epg 4 (lit "http://g/epg.xml")
                    Scenario.idle [Cases.tv]
                    [Cases.bulletin; Cases.open_ended] (fun _ => [])
                    DAY_MS DAY_MS eq_refl)).
  reflexivity.
Defined.

Lemma unique_from_spec seen l :
  NoDup (unique_from seen l)
  /\ forall v, v ∈ unique_from seen l <-> v ∈ l /\ v ∉ seen.
Proof.
  revert seen. induction l as [|a l IH]; intros seen; cbn [unique_from].
  - split; [constructor|]. intros v. rewrite elem_of_nil. tauto.
  - destruct (decide (a ∈ seen)) as [Ha|Ha].
    + destruct (IH seen) as [Hnd Hiff]. split; [done|].
      intros v. rewrite Hiff, elem_of_cons. split; [tauto|].
      intros [[->|Hv] Hs]; tauto.
    + destruct (IH (a :: seen)) as [Hnd Hiff]. split.
      * apply NoDup_cons. split; [|done].
        rewrite Hiff, elem_of_cons. tauto.
      * intros v. rewrite !elem_of_cons, Hiff, elem_of_cons.
        destruct (decide (v = a)) as [->|Hne]; tauto.
Qed.

Lemma insertChannels_fresh sid channels (d : Db.t) :
  NoDup ((fun ch => to_string (obj_get (lit "id") ch)) <$> channels) ->
  (forall old ch, old ∈ Db.playlist_items d -> ch ∈ channels ->
     Db.pi_id old <> composite_id sid (obj_get (lit "id") ch)) ->
  Db.playlist_items (insertChannels sid channels d)
  = Db.playlist_items d ++ (channel_row sid <$> channels).
Proof.
  intros Hnd Hfresh. unfold insertChannels.
  cbn [Db.set_playlist_items Db.playlist_items].
  apply upsert_all_fresh; [|done].
  clear Hfresh. induction channels as [|a channels IH]; [constructor|].
  rewrite !fmap_cons, !NoDup_cons in *. destruct Hnd as [Ha Hnd].
  split; [|auto].
  intros (b & Heq & Hb)%list_elem_of_fmap. apply Ha.
  apply list_elem_of_fmap. exists b. split; [|done].
  by apply (composite_id_inj sid).
Qed.

(** X10. The channel list of the guide. After the first ingest of a feed
    whose channel ids differ and are not stored yet, the EPG channel rows
    of the source are the ones it had followed by one row per channel of
    the feed, in order, and when the feed has a channel [GET /epg/:sourceId]
    answers with these stored rows as its channels. When a source has no
    stored EPG channel, the route falls back to the channel ids of the
    programmes it serves: each of them once, and no other. *)
Theorem epg_guide_channels (env : Env) (sourceId : Z) (url : list N)
    (st : State) (channels : list (list (list N * jsval)))
    (progs : list Db.programme) (toISOString : Z -> list N) (now1 now2 : Z)
    (Hparsed : epg_fetchAndParse env url = Ok (channels, progs))
    (Hdistinct :
       NoDup ((fun ch => to_string (obj_get (lit "id") ch)) <$> channels))
    (Hfresh : forall old ch,
        old ∈ Db.playlist_items (db st) -> ch ∈ channels ->
        Db.pi_id old <> composite_id sourceId (obj_get (lit "id") ch)) :
  let d' := db (syncEpgFromUrl env sourceId url st).2 in
  let stored (d : Db.t) :=
    filter (fun r => bool_decide (Db.pi_source_id r = sourceId)
                     && bool_decide (Db.pi_type r = lit "epg_channel"))
      (Db.playlist_items d) in
  stored d' = stored (db st) ++ (channel_row sourceId <$> channels)
  /\ (channels <> [] ->
      payload (epg toISOString d' sourceId now1 now2)
      = JsonGuide (Stored (stored (db st) ++ (channel_row sourceId <$> channels)))
          (map (formatted_program toISOString)
             (window_programs d' sourceId now1 now2)))
  /\ (forall d, stored d = [] ->
      exists ids,
        payload (epg toISOString d sourceId now1 now2)
        = JsonGuide (Fallback ids)
            (map (formatted_program toISOString)
               (window_programs d sourceId now1 now2))
        /\ NoDup ids
        /\ forall v, v ∈ ids <->
             exists r, r ∈ window_programs d sourceId now1 now2
                       /\ Db.read (Db.ep_channel_id r) = v).
Proof.
  intros d' stored.
  assert (stored d' = stored (db st) ++ (channel_row sourceId <$> channels))
    as Hstored.
  { subst d' stored. cbv beta. unfold syncEpgFromUrl.
    rewrite Hparsed, bind_await_ok. cbn [fst snd].
    unfold mbind, M_bind, modify_db. cbn [fst snd db].
    unfold insertMany, deletePrograms, Db.set_epg_programs.
    cbn [Db.playlist_items].
    rewrite insertChannels_fresh by done. rewrite filter_app. f_equal.
    apply filter_all, Forall_fmap, Forall_forall. intros ch _.
    cbn. by rewrite !bool_decide_eq_true_2. }
  split; [exact Hstored|]. split.
  - intros Hsome. unfold epg. cbn [payload]. fold (stored d').
    rewrite Hstored.
    destruct (stored (db st) ++ (channel_row sourceId <$> channels)) eqn:E;
      [|done].
    apply app_eq_nil in E as [_ E]. apply fmap_nil_inv in E. done.
  - intros d Hnone.
    exists (unique_from []
              (map (fun r => Db.read (Db.ep_channel_id r))
                 (window_programs d sourceId now1 now2))).
    destruct (unique_from_spec []
                (map (fun r => Db.read (Db.ep_channel_id r))
                   (window_programs d sourceId now1 now2))) as [Hnd Hiff].
    split; [|split; [exact Hnd|]].
    + unfold epg. cbn [payload]. fold (stored d). by rewrite Hnone.
    + intros v. rewrite Hiff, map_fmap, list_elem_of_fmap.
      rewrite elem_of_nil. split.
      * intros [(r & -> & Hr) _]. by exists r.
      * intros (r & Hr & <-). split; [by exists r|tauto].
Qed.

Lemma epg_guide_channels_witness :
  filter (fun r => bool_decide (Db.pi_source_id r = 4)
                   && bool_decide (Db.pi_type r = lit "epg_channel"))
    (Db.playlist_items
       (db (syncEpgFromUrl Cases.env_epg 4 (lit "http://g/epg.xml")
              Scenario.idle).2))
  = [channel_row 4 Cases.tv].
Proof.
  refine (proj1 (epg_guide_channels Cases.env_epg 4 (lit "http://g/epg.xml")
                   Scenario.idle [Cases.tv]
                   [Cases.bulletin; Cases.open_ended] (fun _ => []) 0 0
                   eq_refl _ _)).
  - apply NoDup_singleton.
  - intros old ch Hold. by apply elem_of_nil in Hold.
Defined.

(** ** A channel of the guide under an id that is taken *)

Lemma upsert_all_row {A} (row : A -> Db.playlist_item)
    (update : Db.playlist_item -> Db.playlist_item -> Db.playlist_item)
    (news : list A) (table : list Db.playlist_item) (a : A) :
  (forall old new, Db.pi_id (update old new) = Db.pi_id old) ->
  NoDup (Db.pi_id <$> table) ->
  NoDup (Db.pi_id ∘ row <$> news) ->
  a ∈ news ->
  filter (fun r => Db.pi_id r = Db.pi_id (row a))
    (fold_left (fun table a => Db.upsert Db.item_conflict update (row a) table)
       news table)
  = [ match filter (fun r => Db.pi_id r = Db.pi_id (row a)) table with
      | old :: _ => update old (row a)
      | [] => row a
      end ].
Proof.
  intros Hupd Hkey Hids Ha.
  rewrite (upsert_all row update Hupd news table Hkey Hids).
  rewrite filter_app, !filter_fmap_key.
  destruct (decide (Db.pi_id (row a) ∈ Db.pi_id <$> table)) as [Hin|Hnotin].
  - apply list_elem_of_fmap in Hin as (old & Hold & Hin).
    rewrite (filter_ext_elem _ (fun r => Db.pi_id r = Db.pi_id old) table)
      by (intros r _; rewrite updated_by_id by apply Hupd; by rewrite Hold).
    rewrite (filter_key_singleton Db.pi_id table old) by done.
    rewrite (filter_none _ (fresh_of row news table)).
    + rewrite Hold, (filter_key_singleton Db.pi_id table old) by done.
      simpl. unfold updated_by.
      by rewrite (find_key row news a old) by done.
    + apply Forall_forall. intros b [Hb _]%list_elem_of_filter Heq.
      apply Hb. rewrite Heq, Hold. apply list_elem_of_fmap. by exists old.
  - rewrite (filter_none _ table).
    + simpl. rewrite (filter_key_absent Db.pi_id table) by done.
      rewrite (filter_key_singleton (Db.pi_id ∘ row) (fresh_of row news table) a).
      * done.
      * eapply sublist_NoDup; [exact Hids|].
        apply fmap_sublist, sublist_filter.
      * by apply list_elem_of_filter.
    + apply Forall_forall. intros r Hr Heq. apply Hnotin.
      rewrite <- Heq, updated_by_id by apply Hupd.
      apply list_elem_of_fmap. by exists r.
Qed.

Lemma channel_ids_distinct sid channels :
  NoDup ((fun ch => to_string (obj_get (lit "id") ch)) <$> channels) ->
  NoDup (Db.pi_id ∘ channel_row sid <$> channels).
Proof.
  induction channels as [|a channels IH]; [constructor|].
  rewrite !fmap_cons, !NoDup_cons. intros [Ha Hnd]. split; [|auto].
  intros (b & Heq & Hb)%list_elem_of_fmap. apply Ha.
  apply list_elem_of_fmap. exists b. split; [|done].
  by apply (composite_id_inj sid).
Qed.

Lemma syncEpgFromUrl_items env sid url st channels progs :
  epg_fetchAndParse env url = Ok (channels, progs) ->
  Db.playlist_items (db (syncEpgFromUrl env sid url st).2)
  = fold_left
      (fun table ch =>
         Db.upsert Db.item_conflict Db.channel_update (channel_row sid ch) table)
      channels (Db.playlist_items (db st)).
Proof.
  intros Hparsed. unfold syncEpgFromUrl. by rewrite Hparsed, bind_await_ok.
Qed.

(** X11. An EPG channel whose composite id is already stored. The channel
    ids of a feed being different and the table having a primary key, a
    channel of the feed whose composite id a stored row has (a channel of
    an earlier ingest, or a stream of the source with the same id) does not
    get a row of its own: the stored row stays the only one under that id,
    takes the name, the icon and the payload of the channel, and keeps its
    source, item id, type, category, stream URL, container extension,
    rating, year, date added and hidden flag. So a stream whose id a guide
    channel shares stays a stream, is selected by the stream read path as
    before and is served under the name of the guide channel, and the guide
    has no stored channel for it. *)
Theorem syncEpgFromUrl_channel_update (env : Env) (sourceId : Z)
    (url : list N) (st : State) (channels : list (list (list N * jsval)))
    (progs : list Db.programme) (ch : list (list N * jsval))
    (old : Db.playlist_item)
    (Hparsed : epg_fetchAndParse env url = Ok (channels, progs))
    (Hkey : NoDup (Db.pi_id <$> Db.playlist_items (db st)))
    (Hdistinct :
       NoDup ((fun ch => to_string (obj_get (lit "id") ch)) <$> channels))
    (Hch : ch ∈ channels)
    (Hold : old ∈ Db.playlist_items (db st))
    (Hid : Db.pi_id old = composite_id sourceId (obj_get (lit "id") ch)) :
  let d' := db (syncEpgFromUrl env sourceId url st).2 in
  exists r,
    filter (fun r => Db.pi_id r = Db.pi_id old) (Db.playlist_items d') = [r]
    /\ Db.pi_name r = Db.bind (obj_get (lit "name") ch)
    /\ Db.pi_stream_icon r = Db.bind (or_else (obj_get (lit "icon") ch) JNull)
    /\ Db.pi_data r = json_roundtrip ch
    /\ Frame.same_item old r
    /\ Db.pi_category_id r = Db.pi_category_id old
    /\ Db.pi_container_extension r = Db.pi_container_extension old
    /\ (forall s t categoryId includeHidden,
          selected s t categoryId includeHidden r
          = selected s t categoryId includeHidden old)
    /\ (forall t, obj_get (lit "name") (stream_object t r)
                  = Db.read (Db.bind (obj_get (lit "name") ch)))
    /\ (Db.pi_type old <> lit "epg_channel" ->
        forall r', r' ∈ Db.playlist_items d' ->
          Db.pi_type r' = lit "epg_channel" -> Db.pi_id r' <> Db.pi_id old).
Proof.
  intros d'. exists (Db.channel_update old (channel_row sourceId ch)).
  assert (filter (fun r => Db.pi_id r = Db.pi_id old) (Db.playlist_items d')
          = [Db.channel_update old (channel_row sourceId ch)]) as Hrow.
  { subst d'. rewrite (syncEpgFromUrl_items env sourceId url st channels progs)
      by done.
    pose proof (upsert_all_row (channel_row sourceId) Db.channel_update channels
                  (Db.playlist_items (db st)) ch channel_update_id Hkey
                  (channel_ids_distinct sourceId channels Hdistinct) Hch)
      as Hrow.
    change (Db.pi_id (channel_row sourceId ch))
      with (composite_id sourceId (obj_get (lit "id") ch)) in Hrow.
    rewrite <- Hid in Hrow.
    by rewrite (filter_key_singleton Db.pi_id (Db.playlist_items (db st)) old)
      in Hrow. }
  split; [exact Hrow|]. repeat split; try done.
  - intros t. by destruct (stream_object_all t
                             (Db.channel_update old (channel_row sourceId ch)))
      as (_&_&->&_).
  - intros Htype r' Hr' Htype' Hid'.
    assert (r' ∈ filter (fun r => Db.pi_id r = Db.pi_id old)
                   (Db.playlist_items d')) as Hin
      by (by apply list_elem_of_filter).
    rewrite Hrow in Hin. apply list_elem_of_singleton in Hin. subst r'.
    by apply Htype.
Qed.

Lemma syncEpgFromUrl_channel_update_witness :
  exists r,
    filter (fun r => Db.pi_id r = lit "1:10")
      (Db.playlist_items
         (db (syncEpgFromUrl Cases.env_clash 1 (lit "http://h:8080/xmltv.php")
                Cases.synced).2))
    = [r]
    /\ Db.pi_name r = Db.SText (lit "CNN HD")
    /\ Db.pi_type r = lit "live".
Proof.
  destruct (syncEpgFromUrl_channel_update Cases.env_clash 1
              (lit "http://h:8080/xmltv.php") Cases.synced [Cases.channel_10] []
              Cases.channel_10 (stream_row 1 (lit "live") Scenario.cnn))
    as (r & Hrow & Hname & _ & _ & Hsame & _).
  - reflexivity.
  - apply (bool_decide_unpack _). vm_compute. exact I.
  - apply NoDup_singleton.
  - apply list_elem_of_here.
  - vm_compute. apply list_elem_of_here.
  - reflexivity.
  - exists r. split; [exact Hrow|]. split; [exact Hname|].
    destruct Hsame as (_&_&_&Htype&_). exact Htype.
Defined.

(** ** Syncs that fetch nothing *)

Lemma dispatch_m3u env source :
  src_type source = lit "m3u" -> dispatch env source = syncM3u env source.
Proof.
  intros H. unfold dispatch. rewrite H.
  rewrite decide_False by (vm_compute; discriminate). by rewrite decide_True.
Qed.

Lemma dispatch_epg env source :
  src_type source = lit "epg" -> dispatch env source = syncEpg env source.
Proof.
  intros H. unfold dispatch. rewrite H.
  rewrite !decide_False by (vm_compute; discriminate). by rewrite decide_True.
Qed.

Lemma dispatch_other env source :
  src_type source ∉ [lit "xtream"; lit "m3u"; lit "epg"] ->
  dispatch env source = mret tt.
Proof.
  rewrite !not_elem_of_cons. intros (H1 & H2 & H3 & _).
  unfold dispatch. by rewrite !decide_False.
Qed.

(** A sync whose routine leaves the database alone writes the two status
    rows and nothing else. *)
Lemma syncSource_idle_routine env sid source st :
  sid ∉ activeSyncs st ->
  getById env sid = Some source ->
  src_enabled source = true ->
  (forall st0, db (dispatch env source st0).2 = db st0) ->
  let st' := (syncSource env sid st).2 in
  Db.categories (db st') = Db.categories (db st)
  /\ Db.playlist_items (db st') = Db.playlist_items (db st)
  /\ Db.epg_programs (db st') = Db.epg_programs (db st)
  /\ activeSyncs st' = activeSyncs st.
Proof.
  intros Hidle Hsource Henabled Hdb st'.
  split; [|split; [|split; [|by apply syncSource_releases]]];
    subst st'; rewrite (syncSource_run env sid source) by done;
    unfold guarded, finally, try_catch, run_routine, mbind, M_bind;
    set (st1 := (updateSyncStatus sid (lit "all") (lit "syncing") JNull
                   (add_active sid st)).2);
    specialize (Hdb st1);
    destruct (dispatch env source st1) as [[[]|e] st2]; cbn [fst snd] in *;
    unfold updateSyncStatus, modify_db; cbn [fst snd db];
    rewrite Hdb; subst st1; unfold updateSyncStatus, modify_db, delete_active,
      add_active; cbn [fst snd db]; by destruct (db st).
Qed.

(** X12. A playlist or a guide that cannot be fetched costs nothing that
    is stored. When the fetch of an enabled M3U source, or of an enabled
    EPG source, throws, [syncSource] returns normally, the categories, the
    playlist items and the programmes are exactly what they were (the old
    programmes are deleted only after a feed has been parsed), the status
    row of the source says [error] with the message thrown, and the active
    set is as before. *)
Theorem syncSource_fetch_failure (env : Env) (st : State) (sourceId : Z)
    (source : Source) (message : list N)
    (Hidle : sourceId ∉ activeSyncs st)
    (Hsource : getById env sourceId = Some source)
    (Henabled : src_enabled source = true)
    (Hfails :
       (src_type source = lit "m3u"
        /\ m3u_fetchAndParse env (src_url source) = Throw message)
       \/ (src_type source = lit "epg"
           /\ epg_fetchAndParse env (src_url source) = Throw message)) :
  let st' := (syncSource env sourceId st).2 in
  (syncSource env sourceId st).1 = Ok tt
  /\ Db.categories (db st') = Db.categories (db st)
  /\ Db.playlist_items (db st') = Db.playlist_items (db st)
  /\ Db.epg_programs (db st') = Db.epg_programs (db st)
  /\ status_row (db st') sourceId
     = Some (Db.mkSyncStatus sourceId (lit "all") (clock st) (lit "error")
               (Db.SText message))
  /\ activeSyncs st' = activeSyncs st.
Proof.
  intros st'.
  assert (forall st0, dispatch env source st0 = (Throw message, st0)) as Hthrow.
  { intros st0. destruct Hfails as [[Htype Hfetch]|[Htype Hfetch]].
    - rewrite dispatch_m3u by done. unfold syncM3u.
      by rewrite Hfetch, bind_await_throw.
    - rewrite dispatch_epg by done. unfold syncEpg, syncEpgFromUrl.
      by rewrite Hfetch, bind_await_throw. }
  split; [apply syncSource_ok|].
  destruct (syncSource_idle_routine env sourceId source st Hidle Hsource Henabled)
    as (Hc & Hi & Hp & Ha).
  { intros st0. by rewrite Hthrow. }
  fold st' in Hc, Hi, Hp, Ha.
  split; [exact Hc|]. split; [exact Hi|]. split; [exact Hp|].
  split; [|exact Ha].
  subst st'. rewrite (syncSource_status env sourceId source) by done.
  cbv zeta. by rewrite Hthrow.
Qed.

Lemma syncSource_fetch_failure_witness :
  status_row (db (syncSource Cases.env_m3u_down 3 Scenario.idle).2) 3
  = Some (Db.mkSyncStatus 3 (lit "all") 0 (lit "error")
            (Db.SText (lit "HTTP 404"))).
Proof.
  refine (proj1 (proj2 (proj2 (proj2 (proj2
            (syncSource_fetch_failure Cases.env_m3u_down Scenario.idle 3
               Cases.playlist (lit "HTTP 404") _ eq_refl eq_refl
               (or_introl (conj eq_refl eq_refl)))))))).
  apply not_elem_of_empty.
Defined.

(** X13. A source of a type the service does not know. A sync of an
    enabled source whose type is none of [xtream], [m3u] and [epg] fetches
    and stores nothing, and yet records the status [success]: the
    categories, the playlist items and the programmes are what they were,
    and the status row of the source says [success] without an error. *)
Theorem syncSource_unknown_type (env : Env) (st : State) (sourceId : Z)
    (source : Source)
    (Hidle : sourceId ∉ activeSyncs st)
    (Hsource : getById env sourceId = Some source)
    (Henabled : src_enabled source = true)
    (Htype : src_type source ∉ [lit "xtream"; lit "m3u"; lit "epg"]) :
  let st' := (syncSource env sourceId st).2 in
  Db.categories (db st') = Db.categories (db st)
  /\ Db.playlist_items (db st') = Db.playlist_items (db st)
  /\ Db.epg_programs (db st') = Db.epg_programs (db st)
  /\ status_row (db st') sourceId
     = Some (Db.mkSyncStatus sourceId (lit "all") (clock st) (lit "success")
               Db.SNull)
  /\ activeSyncs st' = activeSyncs st.
Proof.
  intros st'.
  destruct (syncSource_idle_routine env sourceId source st Hidle Hsource Henabled)
    as (Hc & Hi & Hp & Ha).
  { intros st0. by rewrite dispatch_other. }
  fold st' in Hc, Hi, Hp, Ha.
  split; [exact Hc|]. split; [exact Hi|]. split; [exact Hp|].
  split; [|exact Ha].
  subst st'. rewrite (syncSource_status env sourceId source) by done.
  cbv zeta. by rewrite dispatch_other.
Qed.

Lemma syncSource_unknown_type_witness :
  status_row (db (syncSource Cases.env_odd 5 Scenario.idle).2) 5
  = Some (Db.mkSyncStatus 5 (lit "all") 0 (lit "success") Db.SNull).
Proof.
  refine (proj1 (proj2 (proj2 (proj2
            (syncSource_unknown_type Cases.env_odd Scenario.idle 5 Cases.odd
               _ eq_refl eq_refl _))))).
  - apply not_elem_of_empty.
  - apply (bool_decide_unpack _). vm_compute. exact I.
Defined.

(** ** The status of a sync in flight *)

Lemma syncing_resume env st before e after :
  consistent (mkSys st (before ++ e :: after)) ->
  syncing env (mkSys st (before ++ e :: after)) ->
  syncing env
    (mkSys (resume env e st).1
       (before ++ option_list (resume env e st).2 ++ after)).
Proof.
  intros [Hnd _] Hsync sid source. cbn [sys_running sys_state] in *.
  assert (forall source', e = AwaitRoutine (exec_source e) source' ->
            src_id source' = exec_source e) as Hwf.
  { intros source' He.
    destruct (Hsync (exec_source e) source') as (Hget & _).
    - rewrite <- He. apply elem_of_app. right. apply list_elem_of_here.
    - by eapply getById_id. }
  pose proof (isolated_resume env e st Hwf) as Hiso.
  rewrite !elem_of_app. intros [Hin|[Hin|Hin]].
  - destruct (Hsync sid source) as (Hget & Hen & t & Hrow).
    { apply elem_of_app. by left. }
    split; [done|]. split; [done|]. exists t.
    rewrite (status_row_isolated (exec_source e) sid (db st)); [done|done|].
    intros ->. revert Hnd. rewrite fmap_app, fmap_cons, NoDup_app.
    intros (_ & Hdisj & _). apply (Hdisj (exec_source e)).
    + apply list_elem_of_fmap. by exists (AwaitRoutine (exec_source e) source).
    + apply list_elem_of_here.
  - destruct e as [s|s source']; cbv beta iota delta [resume] in Hin |- *.
    + destruct (getById env s) as [src|] eqn:Hget;
        [|by apply elem_of_nil in Hin].
      destruct (src_enabled src) eqn:Hen; cbn [negb fst snd option_list] in *;
        [|by apply elem_of_nil in Hin].
      apply list_elem_of_singleton in Hin. injection Hin as -> ->.
      split; [done|]. split; [done|]. exists (clock st).
      apply (status_row_updateSyncStatus s (lit "syncing") JNull st).
    + cbn [snd option_list] in Hin. by apply elem_of_nil in Hin.
  - destruct (Hsync sid source) as (Hget & Hen & t & Hrow).
    { apply elem_of_app. right. by apply list_elem_of_further. }
    split; [done|]. split; [done|]. exists t.
    rewrite (status_row_isolated (exec_source e) sid (db st)); [done|done|].
    intros ->. revert Hnd. rewrite fmap_app, fmap_cons, NoDup_app, NoDup_cons.
    intros (_ & _ & Hnotin & _). apply Hnotin.
    apply list_elem_of_fmap. by exists (AwaitRoutine (exec_source e) source).
Qed.

(** X14. A sync in flight is announced. In every state the service can
    reach, whatever calls arrive and however they interleave, an execution
    of [syncSource] that has found its source and has not finished yet
    belongs to an enabled source of the configuration, and the status row
    of that source says [syncing], without an error: no other execution
    writes it before this one ends. *)
Theorem in_flight_is_syncing (env : Env) (sys : Sys) (sourceId : Z)
    (source : Source)
    (Hreach : reachable env sys)
    (Hrunning : AwaitRoutine sourceId source ∈ sys_running sys) :
  getById env sourceId = Some source
  /\ src_enabled source = true
  /\ exists t,
       status_row (db (sys_state sys)) sourceId
       = Some (Db.mkSyncStatus sourceId (lit "all") t (lit "syncing") Db.SNull).
Proof.
  revert sourceId source Hrunning. change (syncing env sys).
  induction Hreach as [d now|sys sys' Hreach IH Hstep].
  - intros sid source Hin. by apply elem_of_nil in Hin.
  - pose proof (reachable_consistent env sys Hreach) as Hc.
    destruct Hstep as [s sys|st before e after|st running now].
    + unfold call, enter. case_decide; [done|].
      intros sid source. cbn [sys_running sys_state add_active db].
      intros [Hin|Hin%list_elem_of_singleton]%elem_of_app; [|done].
      by apply IH.
    + by apply syncing_resume.
    + exact IH.
Qed.

(** The first call on a fresh process, resumed once: its source is found
    and the routine is about to run. *)
Lemma in_flight_is_syncing_witness :
  exists t,
    status_row
      (db (resume Scenario.env (AwaitSource 1)
             (add_active 1 (mkState ∅ Db.empty 0))).1) 1
    = Some (Db.mkSyncStatus 1 (lit "all") t (lit "syncing") Db.SNull).
Proof.
  pose (st1 := add_active 1 (mkState ∅ Db.empty 0)).
  assert (reachable Scenario.env (mkSys st1 ([] ++ AwaitSource 1 :: [])))
    as Hreach1.
  { eapply reachable_step; [apply (reachable_initial _ Db.empty 0)|].
    apply (step_call Scenario.env 1 (initial Db.empty 0)). }
  pose proof (reachable_step Scenario.env _ _ Hreach1
                (step_resume Scenario.env st1 [] (AwaitSource 1) []))
    as Hreach2.
  refine (proj2 (proj2 (in_flight_is_syncing Scenario.env _ 1 Scenario.provider
                          Hreach2 _))).
  apply list_elem_of_here.
Defined.

(** ** Streams by category *)

(** X15. The category filter of the stream read path. After a first save
    of items with different ids, a read with a category (a non-empty
    [category_id] parameter) returns what it returned before followed by
    the objects of exactly those saved items whose [String(category_id)]
    is the text asked for, in the order they were saved (a numeric category
    id of the payload matches its decimal text); hidden rows included or
    not makes no difference for them. An empty [category_id] parameter
    filters nothing. *)
Theorem getStreamsFromDb_by_category (sourceId : Z) (type : list N)
    (items : list (list (list N * jsval))) (st : State)
    (category : list N) (includeHidden : bool)
    (Hdistinct : NoDup (item_id type <$> items))
    (Hfresh : forall old item,
        old ∈ Db.playlist_items (db st) -> item ∈ items ->
        Db.pi_id old <> composite_id sourceId (m_itemId (map_fields type item)))
    (Hcategory : category <> []) :
  let d' := db (saveStreams sourceId type items st).2 in
  getStreamsFromDb d' sourceId type (JStr category) includeHidden
  = getStreamsFromDb (db st) sourceId type (JStr category) includeHidden
    ++ ((fun item => stream_object type (stream_row sourceId type item))
          <$> filter
                (fun item => to_string (m_catId (map_fields type item)) = category)
                items)
  /\ forall d, getStreamsFromDb d sourceId type (JStr []) includeHidden
               = getStreamsFromDb d sourceId type JUndefined includeHidden.
Proof.
  intros d'. split; [|done].
  subst d'. unfold getStreamsFromDb.
  rewrite saveStreams_appends by done.
  rewrite filter_app, map_app. f_equal.
  rewrite filter_fmap_gen, map_fmap, <- list_fmap_compose. f_equal.
  apply list_filter_iff. intros item. unfold selected.
  cbn [stream_row Db.pi_source_id Db.pi_type Db.pi_is_hidden Db.pi_category_id
       Db.bind Db.sql_eq].
  rewrite !bool_decide_eq_true_2 by done.
  assert (truthy (JStr category) = true) as -> by (by destruct category).
  change (Db.is_hidden_default =? 0) with true. rewrite orb_true_r.
  cbn [andb]. by rewrite bool_decide_spec.
Qed.

Lemma getStreamsFromDb_by_category_witness :
  getStreamsFromDb
    (db (saveStreams 1 (lit "live") [Scenario.cnn] Scenario.idle).2)
    1 (lit "live") (JStr (lit "2")) false
  = [].
Proof.
  refine (proj1 (getStreamsFromDb_by_category 1 (lit "live") [Scenario.cnn]
                   Scenario.idle (lit "2") false _ _ _)).
  - apply NoDup_singleton.
  - intros old item Hold. by apply elem_of_nil in Hold.
  - discriminate.
Defined.

(** ** What a failed Xtream sync has saved *)

Lemma catalog_grows_category sid type cat d :
  catalog_grows d (insertCategory sid type cat d).
Proof.
  split; [|apply extends_refl, same_item_refl].
  apply extends_upsert; [apply same_category_refl|by intros old].
Qed.

Lemma catalog_grows_item update new d :
  (forall old, same_item old (update old new)) ->
  catalog_grows d
    (Db.set_playlist_items (Db.upsert Db.item_conflict update new) d).
Proof.
  intros Hupd. split; [apply extends_refl, same_category_refl|].
  apply extends_upsert; [apply same_item_refl|done].
Qed.

Lemma catalog_grows_same (d d' : Db.t) :
  Db.categories d' = Db.categories d ->
  Db.playlist_items d' = Db.playlist_items d ->
  catalog_grows d d'.
Proof.
  intros Hc Hi. unfold catalog_grows. rewrite Hc, Hi. apply catalog_grows_refl.
Qed.

Ltac grows :=
  repeat first
    [ apply (respects_ret catalog_grows catalog_grows_refl)
    | apply (respects_await catalog_grows catalog_grows_refl)
    | apply (respects_saveCategories catalog_grows _ catalog_grows_refl
               catalog_grows_trans); intros; apply catalog_grows_category
    | apply (respects_saveStreams catalog_grows _ catalog_grows_refl
               catalog_grows_trans); intros;
      apply catalog_grows_item; by intros ?
    | apply (respects_syncEpgFromUrl catalog_grows _ catalog_grows_refl
               catalog_grows_trans);
      [ intros; apply catalog_grows_item; by intros ?
      | intros; by apply catalog_grows_same
      | intros; by apply catalog_grows_same ]
    | apply (respects_try_catch catalog_grows catalog_grows_trans); [|intros ?]
    | apply (respects_bind catalog_grows catalog_grows_trans); [|intros ?] ].

Lemma extends_keys {T K} (key : T -> K) (same : T -> T -> Prop) t t' k :
  (forall old new, same old new -> key new = key old) ->
  extends same t t' -> k ∈ key <$> t -> k ∈ key <$> t'.
Proof.
  intros Hkey (kept & more & -> & Hkept) Hk.
  rewrite fmap_app. apply elem_of_app. left.
  induction Hkept as [|old new t kept Hsame _ IH]; [done|].
  rewrite fmap_cons, elem_of_cons in *. destruct Hk as [->|Hk].
  - left. symmetry. by apply Hkey.
  - right. by apply IH.
Qed.

Lemma stored_categories_grows sid cats d d' :
  catalog_grows d d' -> stored_categories sid cats d -> stored_categories sid cats d'.
Proof.
  intros [Hc _] Hstored cat Hcat.
  eapply (extends_keys Db.cat_id); [|exact Hc|by apply Hstored].
  by intros old new (-> & _).
Qed.

Lemma stored_streams_grows sid type items d d' :
  catalog_grows d d' ->
  stored_streams sid type items d -> stored_streams sid type items d'.
Proof.
  intros [_ Hi] Hstored item Hitem.
  eapply (extends_keys Db.pi_id); [|exact Hi|by apply Hstored].
  by intros old new (-> & _).
Qed.

Lemma saveCategories_stored sid type cats st :
  stored_categories sid cats (db (saveCategories sid type cats st).2).
Proof.
  intros cat Hcat. destruct cats as [|a cats]; [by apply elem_of_nil in Hcat|].
  unfold saveCategories, modify_db. cbn [snd db].
  rewrite run_schedule_batches, schedule_concat, fold_insertCategory.
  cbn [Db.set_categories Db.categories].
  apply (fold_upsert_keys_in Db.cat_id Db.category_conflict Db.category_update
           category_conflict_key (fun old new => eq_refl)
           (category_row sid type) (a :: cats) cat _ Hcat).
Qed.

Lemma saveStreams_stored sid type items st :
  stored_streams sid type items (db (saveStreams sid type items st).2).
Proof.
  intros item Hitem.
  destruct items as [|a items]; [by apply elem_of_nil in Hitem|].
  unfold saveStreams, modify_db. cbn [snd db].
  rewrite run_schedule_batches, schedule_concat, fold_insertStream.
  cbn [Db.set_playlist_items Db.playlist_items].
  apply (fold_upsert_keys_in Db.pi_id Db.item_conflict Db.item_update
           item_conflict_key (fun old new => eq_refl)
           (stream_row sid type) (a :: items) item _ Hitem).
Qed.

(** The catalog tables a sync leaves are those its routine leaves. *)
Lemma syncSource_catalog env sid source st :
  sid ∉ activeSyncs st ->
  getById env sid = Some source ->
  src_enabled source = true ->
  let st1 := (updateSyncStatus sid (lit "all") (lit "syncing") JNull
                (add_active sid st)).2 in
  Db.categories (db (syncSource env sid st).2)
  = Db.categories (db (dispatch env source st1).2)
  /\ Db.playlist_items (db (syncSource env sid st).2)
     = Db.playlist_items (db (dispatch env source st1).2).
Proof.
  intros Hidle Hsource Henabled st1.
  rewrite (syncSource_run env sid source) by done. fold st1.
  unfold guarded, finally, try_catch, run_routine, mbind, M_bind.
  destruct (dispatch env source st1) as [[[]|e] st2]; cbn [fst snd];
    unfold updateSyncStatus, modify_db, delete_active; cbn [fst snd db];
    by destruct (db st2).
Qed.

Lemma respects_apply {A} (m : M A) st :
  respects catalog_grows m -> catalog_grows (db st) (db (m st).2).
Proof. intros H. apply H. Qed.

Ltac progress_step r ok keeps stored :=
  destruct r as [?|?]; [|exact I];
  rewrite bind_await_ok; rewrite bind_ok by (apply ok);
  split; [eapply keeps; [apply respects_apply; grows|apply stored]|].

Lemma syncXtream_progress env source st :
  let d' := db (syncXtream env source st).2 in
  let sid := src_id source in
  match getLiveCategories env source with
  | Throw _ => True
  | Ok liveCats =>
  stored_categories sid liveCats d' /\
  match getLiveStreams env source with
  | Throw _ => True
  | Ok liveStreams =>
  stored_streams sid (lit "live") liveStreams d' /\
  match getVodCategories env source with
  | Throw _ => True
  | Ok vodCats =>
  stored_categories sid vodCats d' /\
  match getVodStreams env source with
  | Throw _ => True
  | Ok vodStreams =>
  stored_streams sid (lit "movie") vodStreams d' /\
  match getSeriesCategories env source with
  | Throw _ => True
  | Ok seriesCats =>
  stored_categories sid seriesCats d' /\
  match getSeries env source with
  | Throw _ => True
  | Ok series => stored_streams sid (lit "series") series d'
  end end end end end end.
Proof.
  intros d' sid. subst d'. unfold syncXtream. fold sid.
  progress_step (getLiveCategories env source) saveCategories_ok
    stored_categories_grows saveCategories_stored.
  progress_step (getLiveStreams env source) saveStreams_ok
    stored_streams_grows saveStreams_stored.
  progress_step (getVodCategories env source) saveCategories_ok
    stored_categories_grows saveCategories_stored.
  progress_step (getVodStreams env source) saveStreams_ok
    stored_streams_grows saveStreams_stored.
  progress_step (getSeriesCategories env source) saveCategories_ok
    stored_categories_grows saveCategories_stored.
  destruct (getSeries env source) as [series|e]; [|exact I].
  rewrite bind_await_ok. rewrite bind_ok by (apply saveStreams_ok).
  eapply stored_streams_grows; [apply respects_apply; grows|].
  apply saveStreams_stored.
Qed.

(** X16. A failed Xtream sync is not rolled back. After a sync of an
    enabled Xtream source, whether it succeeded or not, the payload of
    every catalog step that ran before the first failing one is saved:
    every category and every stream item of these payloads has a row under
    its composite id (live categories, live streams, VOD categories, VOD
    streams, series categories, series, in that order). *)
Theorem syncXtream_keeps_progress (env : Env) (st : State) (sourceId : Z)
    (source : Source)
    (Hidle : sourceId ∉ activeSyncs st)
    (Hsource : getById env sourceId = Some source)
    (Henabled : src_enabled source = true)
    (Hxtream : src_type source = lit "xtream") :
  let d' := db (syncSource env sourceId st).2 in
  match getLiveCategories env source with
  | Throw _ => True
  | Ok liveCats =>
  stored_categories sourceId liveCats d' /\
  match getLiveStreams env source with
  | Throw _ => True
  | Ok liveStreams =>
  stored_streams sourceId (lit "live") liveStreams d' /\
  match getVodCategories env source with
  | Throw _ => True
  | Ok vodCats =>
  stored_categories sourceId vodCats d' /\
  match getVodStreams env source with
  | Throw _ => True
  | Ok vodStreams =>
  stored_streams sourceId (lit "movie") vodStreams d' /\
  match getSeriesCategories env source with
  | Throw _ => True
  | Ok seriesCats =>
  stored_categories sourceId seriesCats d' /\
  match getSeries env source with
  | Throw _ => True
  | Ok series => stored_streams sourceId (lit "series") series d'
  end end end end end end.
Proof.
  intros d'.
  destruct (syncSource_catalog env sourceId source st Hidle Hsource Henabled)
    as [Hc Hi].
  rewrite dispatch_xtream in Hc, Hi by done. fold d' in Hc, Hi.
  set (st1 := (updateSyncStatus sourceId (lit "all") (lit "syncing") JNull
                 (add_active sourceId st)).2) in *.
  pose proof (syncXtream_progress env source st1) as H. cbv zeta in H.
  rewrite (getById_id env sourceId source Hsource) in H.
  unfold stored_categories, stored_streams in *. rewrite Hc, Hi. exact H.
Qed.

(** The provider whose VOD stream list cannot be fetched has its live
    stream saved. *)
Lemma syncXtream_keeps_progress_witness :
  stored_streams 1 (lit "live") [Scenario.cnn]
    (db (syncSource Scenario.env_vod_down 1 Scenario.idle).2).
Proof.
  pose proof (syncXtream_keeps_progress Scenario.env_vod_down Scenario.idle 1
                Scenario.provider (idle_is_idle 1) eq_refl eq_refl eq_refl)
    as H.
  exact (proj1 (proj2 H)).
Defined.

(** ** Saving the same items again *)

Lemma upsert_all_idempotent {A} (row : A -> Db.playlist_item)
    (update : Db.playlist_item -> Db.playlist_item -> Db.playlist_item)
    (news : list A) (table : list Db.playlist_item) :
  (forall old new, Db.pi_id (update old new) = Db.pi_id old) ->
  (forall r new, update (update r new) new = update r new) ->
  (forall r, update r r = r) ->
  NoDup (Db.pi_id <$> table) ->
  NoDup (Db.pi_id ∘ row <$> news) ->
  let upserts table :=
    fold_left (fun table a => Db.upsert Db.item_conflict update (row a) table)
      news table in
  upserts (upserts table) = upserts table.
Proof.
  intros Hid Htwice Hself Hkey Hnd upserts. subst upserts. cbv beta.
  rewrite (upsert_all row update Hid news table) by done.
  set (table' := (updated_by row update news <$> table)
                 ++ (row <$> fresh_of row news table)).
  assert (Db.pi_id <$> table'
          = (Db.pi_id <$> table)
            ++ (Db.pi_id ∘ row <$> fresh_of row news table)) as Hkeys.
  { subst table'. rewrite fmap_app, <- !list_fmap_compose. f_equal.
    apply list_fmap_ext. intros i r _. simpl. by apply updated_by_id. }
  assert (NoDup (Db.pi_id <$> table')) as Hkey'.
  { rewrite Hkeys. apply NoDup_app. split; [done|]. split.
    - intros k Hk (a & -> & [Ha _]%list_elem_of_filter)%list_elem_of_fmap.
      by apply Ha.
    - eapply sublist_NoDup; [exact Hnd|]. apply fmap_sublist, sublist_filter. }
  rewrite (upsert_all row update Hid news table') by done.
  assert (fresh_of row news table' = []) as ->.
  { apply filter_none, Forall_forall. intros a Ha Hfresh. apply Hfresh.
    rewrite Hkeys, elem_of_app.
    destruct (decide (Db.pi_id (row a) ∈ Db.pi_id <$> table)) as [Hin|Hnotin];
      [by left|right].
    apply list_elem_of_fmap. exists a. split; [done|].
    by apply list_elem_of_filter. }
  simpl. rewrite app_nil_r. subst table'. rewrite fmap_app. f_equal.
  - rewrite <- list_fmap_compose. apply list_fmap_ext. intros i r _. simpl.
    unfold updated_by.
    destruct (find (fun a => bool_decide (Db.pi_id (row a) = Db.pi_id r)) news)
      as [a|] eqn:E.
    + rewrite Hid, E. apply Htwice.
    + by rewrite E.
  - rewrite <- list_fmap_compose. apply list_fmap_ext. intros i a Ha. simpl.
    apply list_elem_of_lookup_2 in Ha. apply list_elem_of_filter in Ha as [_ Ha].
    unfold updated_by. rewrite (find_key row news a (row a)) by done.
    apply Hself.
Qed.

Lemma saveStreams_db sid type items st :
  db (saveStreams sid type items st).2
  = Db.set_playlist_items
      (fun table =>
         fold_left
           (fun table item =>
              Db.upsert Db.item_conflict Db.item_update
                (stream_row sid type item) table)
           items table)
      (db st).
Proof.
  destruct items as [|a items].
  { destruct st as [active [cats table progs stat] now]. reflexivity. }
  unfold saveStreams, modify_db. cbn [snd db].
  by rewrite run_schedule_batches, schedule_concat, fold_insertStream.
Qed.

(** X17. Saving an unchanged catalog again changes nothing. On a table
    with a primary key, for items with different ids, a second
    [saveStreams] of the same items under the same source and type leaves
    the whole state as the first left it: no row is added and no column
    changes. *)
Theorem saveStreams_idempotent (sourceId : Z) (type : list N)
    (items : list (list (list N * jsval))) (st : State)
    (Hkey : NoDup (Db.pi_id <$> Db.playlist_items (db st)))
    (Hdistinct : NoDup (item_id type <$> items)) :
  let once := (saveStreams sourceId type items st).2 in
  (saveStreams sourceId type items once).2 = once.
Proof.
  intros once.
  assert (db (saveStreams sourceId type items once).2 = db once) as Hdb.
  { rewrite saveStreams_db. subst once. rewrite saveStreams_db.
    destruct (db st) as [cats table progs stat].
    unfold Db.set_playlist_items.
    cbn [Db.playlist_items Db.categories Db.epg_programs Db.sync_status] in *.
    f_equal.
    apply (upsert_all_idempotent (stream_row sourceId type) Db.item_update
             items table);
      [done|done|by intros []|done|by apply stream_ids_distinct]. }
  destruct (keeps_frame_saveStreams sourceId type items once) as [Ha Hc].
  destruct (saveStreams sourceId type items once).2 as [a d c].
  destruct once as [a' d' c']. cbn in *. by subst.
Qed.

Lemma saveStreams_idempotent_witness :
  (saveStreams 1 (lit "live") [Scenario.cnn] Cases.synced).2 = Cases.synced.
Proof.
  refine (saveStreams_idempotent 1 (lit "live") [Scenario.cnn] Scenario.idle
            _ _).
  - constructor.
  - apply NoDup_singleton.
Defined.

(** ** A manifest that can be rewritten *)

Lemma encodeURIComponent_total s :
  no_surrogate s -> is_Some (encodeURIComponent s).
Proof.
  induction 1 as [|c s [Hhigh Hlow] _ IH]; [by eexists|].
  destruct IH as [out Hout]. cbn [encodeURIComponent].
  rewrite Hout, Hlow, Hhigh. by destruct (is_unreserved c); eexists.
Qed.

Lemma drop_while_Forall {A} (P : A -> Prop) p (l : list A) :
  Forall P l -> Forall P (drop_while p l).
Proof.
  induction 1 as [|a l Ha Hl IH]; [constructor|].
  simpl. destruct (p a); [done|by constructor].
Qed.

Lemma trim_no_surrogate s : no_surrogate s -> no_surrogate (trim s).
Proof.
  intros H. unfold trim, no_surrogate.
  by apply Forall_rev, drop_while_Forall, Forall_rev, drop_while_Forall.
Qed.

Lemma rewrite_match_total m3u8Base baseUrl line :
  no_surrogate m3u8Base -> no_surrogate line ->
  exists out, rewrite_match m3u8Base baseUrl line = Some out /\ out <> [].
Proof.
  intros Hbase Hline. unfold rewrite_match.
  set (chunkUrl := if startsWith (trim line) (lit "http") then trim line
                   else m3u8Base ++ trim line).
  assert (no_surrogate chunkUrl) as Hchunk.
  { subst chunkUrl. destruct (startsWith (trim line) (lit "http"));
      [by apply trim_no_surrogate|].
    apply Forall_app. split; [done|by apply trim_no_surrogate]. }
  destruct (encodeURIComponent_total chunkUrl Hchunk) as [encoded ->].
  eexists. split; [done|]. simpl. by destruct baseUrl.
Qed.

Lemma replace_lines_from_total f line content :
  (forall l, no_surrogate l -> exists out, f l = Some out /\ out <> []) ->
  no_surrogate line -> no_surrogate content ->
  exists out, replace_lines_from f line content = Some out
              /\ (line <> [] \/ content <> [] -> out <> []).
Proof.
  intros Hf Hline Hcontent. revert line Hline.
  assert (forall line, no_surrogate line ->
            exists out, replace_line f (rev line) = Some out
                        /\ (line <> [] -> out <> [])) as Hone.
  { intros line Hline. unfold replace_line.
    destruct (rev line) as [|c l] eqn:E.
    - exists []. split; [done|]. intros Hne. exfalso. apply Hne.
      apply (f_equal (@rev N)) in E. by rewrite rev_involutive in E.
    - destruct (N.eqb c 35); [by eexists|].
      destruct (Hf (c :: l)) as (out & -> & Hout);
        [rewrite <- E; by apply Forall_rev|].
      by exists out. }
  induction Hcontent as [|c content Hc Hcontent IH]; intros line Hline;
    cbn [replace_lines_from].
  - destruct (Hone line Hline) as (out & -> & Hout). exists out.
    split; [done|]. intros [H|H]; [by apply Hout|done].
  - destruct (is_line_terminator c).
    + destruct (Hone line Hline) as (out & -> & _).
      destruct (IH []) as (rest & -> & _); [constructor|].
      eexists. split; [done|]. intros _. by destruct out.
    + destruct (IH (c :: line)) as (out & -> & Hout); [by constructor|].
      exists out. split; [done|]. intros _. apply Hout. by left.
Qed.

(** X18. A manifest without surrogate code units is always rewritten.
    When the upstream answers the manifest request with a success status
    and neither the text nor the manifest URL holds a surrogate code unit,
    [rewriteM3u8] returns a text ([encodeURIComponent] cannot throw), not
    empty unless the manifest is; and [GET /stream] for a URL containing
    [.m3u8] then answers with status 200, that text as its body and the
    content type [application/vnd.apple.mpegurl; charset=utf-8] (the type
    the handler sets, with the charset [res.send] adds for a string),
    whatever the relay of the URL itself would have given. *)
Theorem stream_serves_manifest (protocol host url : list N)
    (response : fetched) (upstream : relay)
    (Hok : f_ok response = true)
    (Htext : no_surrogate (f_text response))
    (Hurl : no_surrogate url)
    (Hm3u8 : includes url (lit ".m3u8") = true) :
  let base := protocol ++ lit "://" ++ host ++ lit "/api/proxy/stream" in
  exists text,
    rewriteM3u8 (Ok response) url base = Some text
    /\ (f_text response <> [] -> text <> [])
    /\ (f_text response <> [] ->
        let answer := stream protocol host (Some url) (Ok response) upstream in
        status answer = 200
        /\ payload answer = Text text
        /\ (lit "Content-Type", lit "application/vnd.apple.mpegurl; charset=utf-8")
           ∈ headers answer).
Proof.
  intros base. unfold rewriteM3u8. rewrite Hok. cbn [negb].
  destruct (replace_lines_from_total
              (rewrite_match (substring0 url (lastIndexOf url 47 + 1)) base)
              [] (f_text response)) as (text & Htext' & Hne).
  - intros l Hl. apply rewrite_match_total; [|done].
    unfold substring0. by apply Forall_take.
  - constructor.
  - done.
  - exists text. split; [exact Htext'|]. split; [intros H; apply Hne; by right|].
    intros H. cbv zeta. unfold stream.
    destruct url as [|c0 url']; [done|].
    rewrite Hm3u8. unfold rewriteM3u8. rewrite Hok. cbn [negb].
    fold base. unfold replace_lines. rewrite Htext'.
    destruct text as [|c text].
    + exfalso. apply Hne; [by right|done].
    + cbn [status payload headers]. split; [done|]. split; [done|].
      apply list_elem_of_here.
Qed.

(** The one-line manifest [seg1.ts], asked for through the proxy. *)
Lemma stream_serves_manifest_witness :
  exists text,
    rewriteM3u8 (Ok (mkFetched true 200 (lit "seg1.ts")))
      (lit "http://h/path/live.m3u8")
      (lit "http" ++ lit "://" ++ lit "tv" ++ lit "/api/proxy/stream")
    = Some text
    /\ status
         (stream (lit "http") (lit "tv") (Some (lit "http://h/path/live.m3u8"))
            (Ok (mkFetched true 200 (lit "seg1.ts"))) GetThrows)
       = 200.
Proof.
  destruct (stream_serves_manifest (lit "http") (lit "tv")
              (lit "http://h/path/live.m3u8")
              (mkFetched true 200 (lit "seg1.ts")) GetThrows)
    as (text & Htext & _ & Hanswer).
  - reflexivity.
  - vm_compute. repeat constructor.
  - vm_compute. repeat constructor.
  - reflexivity.
  - exists text. split; [exact Htext|].
    apply Hanswer. discriminate.
Defined.

(** ** References the rewriter resolves *)

(** The definitions of resolution give the answers of RFC 3986, section
    5.4, for the base [http://a/b/c/d;p?q]. *)
Lemma resolve_rfc3986_examples :
  (fun r => Uri.resolve (lit "http://a/b/c/d;p?q") (lit r))
    <$> [ "g:h"; "g"; "./g"; "g/"; "/g"; "//g"; "?y"; "g?y"; "#s"; "g#s";
          "g?y#s"; ";x"; "g;x"; "g;x?y#s"; ""; "."; "./"; ".."; "../"; "../g";
          "../.."; "../../"; "../../g"; "../../../g"; "../../../../g";
          "/./g"; "/../g"; "g."; ".g"; "g.."; "..g"; "./../g"; "./g/.";
          "g/./h"; "g/../h"; "g;x=1/./y"; "g;x=1/../y"; "g?y/./x"; "g?y/../x";
          "g#s/./x"; "g#s/../x" ]%string
  = lit
      <$> [ "g:h"; "http://a/b/c/g"; "http://a/b/c/g"; "http://a/b/c/g/";
            "http://a/g"; "http://g"; "http://a/b/c/d;p?y"; "http://a/b/c/g?y";
            "http://a/b/c/d;p?q#s"; "http://a/b/c/g#s"; "http://a/b/c/g?y#s";
            "http://a/b/c/;x"; "http://a/b/c/g;x"; "http://a/b/c/g;x?y#s";
            "http://a/b/c/d;p?q"; "http://a/b/c/"; "http://a/b/c/";
            "http://a/b/"; "http://a/b/"; "http://a/b/g"; "http://a/";
            "http://a/"; "http://a/g"; "http://a/g"; "http://a/g"; "http://a/g";
            "http://a/g"; "http://a/b/c/g."; "http://a/b/c/.g";
            "http://a/b/c/g.."; "http://a/b/c/..g"; "http://a/b/g";
            "http://a/b/c/g/"; "http://a/b/c/g/h"; "http://a/b/c/h";
            "http://a/b/c/g;x=1/y"; "http://a/b/c/y"; "http://a/b/c/g?y/./x";
            "http://a/b/c/g?y/../x"; "http://a/b/c/g#s/./x";
            "http://a/b/c/g#s/../x" ]%string.
Proof. vm_compute. reflexivity. Qed.

Lemma span_until_app stop a c r :
  Forall (fun x => stop x = false) a -> stop c = true ->
  Uri.span_until stop (a ++ c :: r) = (a, c :: r).
Proof.
  intros Ha Hc. induction Ha as [|x a Hx _ IH]; simpl.
  - by rewrite Hc.
  - by rewrite Hx, IH.
Qed.

Lemma span_until_all stop a :
  Forall (fun x => stop x = false) a -> Uri.span_until stop a = (a, []).
Proof.
  induction 1 as [|x a Hx _ IH]; simpl; [done|]. by rewrite Hx, IH.
Qed.

Lemma split_scheme_app a scheme rest :
  Uri.is_alpha a = true ->
  Forall (fun c => Uri.is_scheme_char c = true) scheme ->
  Uri.split_scheme ((a :: scheme) ++ 58%N :: rest) = Some (a :: scheme, rest).
Proof.
  intros Ha Hscheme. unfold Uri.split_scheme.
  rewrite span_until_app.
  - by rewrite Ha.
  - constructor.
    + unfold Uri.is_scheme_char. by rewrite Ha.
    + eapply Forall_impl; [exact Hscheme|]. intros c Hc. by rewrite Hc.
  - reflexivity.
Qed.

Lemma join_app a b : Uri.join (a ++ b) = Uri.join a ++ Uri.join b.
Proof. unfold Uri.join. by rewrite map_app, concat_app. Qed.

Lemma join_head segments :
  Uri.join segments = [] \/ exists r, Uri.join segments = 47%N :: r.
Proof. destruct segments as [|s segments]; [by left|right]. by eexists. Qed.

Lemma join_chars (P : N -> Prop) segments :
  P 47%N ->
  Forall (Forall P) segments -> Forall P (Uri.join segments).
Proof.
  intros Hslash. induction 1 as [|s segments Hs _ IH]; [constructor|].
  unfold Uri.join. simpl. constructor; [done|]. by apply Forall_app.
Qed.

Lemma not_delimiter c :
  Uri.is_delimiter c = false -> c <> 47%N /\ c <> 63%N /\ c <> 35%N.
Proof.
  unfold Uri.is_delimiter. intros H.
  apply orb_false_elim in H as [H H35]. apply orb_false_elim in H as [H47 H63].
  by apply N.eqb_neq in H47, H63, H35.
Qed.

Lemma join_cons s segments :
  Uri.join (s :: segments) = 47%N :: s ++ Uri.join segments.
Proof. reflexivity. Qed.

Lemma span_until_segment s segments :
  Forall (fun c => Uri.is_delimiter c = false) s ->
  Uri.span_until (fun c => c =? 47)%N (s ++ Uri.join segments)
  = (s, Uri.join segments).
Proof.
  intros Hs.
  assert (Forall (fun c => (c =? 47)%N = false) s) as Hs'.
  { eapply Forall_impl; [exact Hs|]. intros c Hc.
    apply N.eqb_neq. by apply not_delimiter in Hc as [? _]. }
  destruct (join_head segments) as [->|[r ->]].
  - rewrite app_nil_r. by apply span_until_all.
  - by apply span_until_app.
Qed.

Lemma dot_step_segment s segments :
  Uri.segment s ->
  Uri.dot_step (47%N :: s ++ Uri.join segments) = None.
Proof.
  intros (Hs & Hdot & Hdots).
  assert (Uri.is_delimiter 47 = true) as Hslash by reflexivity.
  unfold Uri.dot_step.
  change (lit "../") with [46; 46; 47]%N.
  change (lit "./") with [46; 47]%N.
  change (lit "/./") with [47; 46; 47]%N.
  change (lit "/../") with [47; 46; 46; 47]%N.
  change (lit "/..") with [47; 46; 46]%N.
  change (lit "/.") with [47; 46]%N.
  change (lit "..") with [46; 46]%N in *.
  change (lit ".") with [46]%N in *.
  destruct (join_head segments) as [->|[r ->]];
    destruct s as [|x [|y [|z s]]];
    repeat match goal with
           | H : Forall _ (_ :: _) |- _ => apply Forall_cons in H as [? H]
           end;
    cbn [app startsWith drop];
    repeat match goal with
           | |- context [N.eqb ?a ?b] => destruct (N.eqb_spec a b); subst
           end;
    repeat case_bool_decide; try reflexivity; try congruence;
    repeat match goal with
           | H : _ \/ _ |- _ => destruct H
           end;
    try discriminate; try congruence.
Qed.

Lemma remove_dots_join segments : forall fuel output,
  Forall Uri.segment segments ->
  (length segments <= fuel)%nat ->
  Uri.remove_dots fuel (Uri.join segments) output = output ++ Uri.join segments.
Proof.
  induction segments as [|s segments IH]; intros fuel output Hsegments Hfuel.
  - destruct fuel; simpl; by rewrite app_nil_r.
  - apply Forall_cons in Hsegments as [Hs Hsegments].
    destruct fuel as [|fuel]; [simpl in Hfuel; lia|].
    rewrite join_cons. cbn [Uri.remove_dots].
    rewrite dot_step_segment by done.
    unfold Uri.first_segment. rewrite span_until_segment by apply Hs.
    rewrite IH by (done || simpl in Hfuel; lia).
    by rewrite <- app_assoc.
Qed.

Lemma length_join segments : (length segments <= length (Uri.join segments))%nat.
Proof.
  induction segments as [|s segments IH]; [done|].
  rewrite join_cons. simpl. rewrite length_app. lia.
Qed.

Lemma remove_dot_segments_join segments :
  Forall Uri.segment segments ->
  Uri.remove_dot_segments (Uri.join segments) = Uri.join segments.
Proof.
  intros H. unfold Uri.remove_dot_segments.
  by rewrite remove_dots_join by (done || apply length_join).
Qed.

Lemma drop_while_app {A} (p : A -> bool) a c r :
  Forall (fun x => p x = true) a -> p c = false ->
  drop_while p (a ++ c :: r) = c :: r.
Proof.
  intros Ha Hc. induction Ha as [|x a Hx _ IH]; simpl.
  - by rewrite Hc.
  - by rewrite Hx.
Qed.

Lemma directory_file p file :
  Forall (fun c => Uri.is_delimiter c = false) file ->
  Uri.directory (p ++ 47%N :: file) = p ++ [47%N].
Proof.
  intros Hfile. unfold Uri.directory.
  rewrite rev_app_distr. simpl. rewrite <- app_assoc. simpl.
  rewrite drop_while_app.
  - simpl. by rewrite rev_involutive.
  - apply Forall_rev. eapply Forall_impl; [exact Hfile|].
    intros c [Hc _]%not_delimiter. apply negb_true_iff. by apply N.eqb_neq.
  - reflexivity.
Qed.

Lemma lastIndexOf_from_absent c s : forall i,
  Forall (fun b => b <> c) s -> lastIndexOf_from i s c = -1.
Proof.
  induction s as [|b s IH]; intros i Hs; [done|].
  apply Forall_cons in Hs as [Hb Hs]. cbn [lastIndexOf_from].
  rewrite IH by done. change (0 <=? -1) with false. cbv iota.
  apply N.eqb_neq in Hb. by rewrite Hb.
Qed.

Lemma lastIndexOf_from_last c p file : forall i,
  0 <= i ->
  Forall (fun b => b <> c) file ->
  lastIndexOf_from i (p ++ c :: file) c = i + Z.of_nat (length p).
Proof.
  induction p as [|b p IH]; intros i Hi Hfile; cbn [app lastIndexOf_from].
  - rewrite lastIndexOf_from_absent by done. change (0 <=? -1) with false.
    cbv iota. rewrite N.eqb_refl. simpl. lia.
  - rewrite IH by (done || lia).
    destruct (Z.leb_spec 0 (i + 1 + Z.of_nat (length p))); [|lia].
    simpl length. lia.
Qed.

(** On a URL with no [/] after its last path separator, the text the
    rewriter puts in front of a line is the URL without its file. *)
Lemma m3u8Base_file p file :
  Forall (fun c => Uri.is_delimiter c = false) file ->
  substring0 (p ++ 47%N :: file) (lastIndexOf (p ++ 47%N :: file) 47 + 1)
  = p ++ [47%N].
Proof.
  intros Hfile. unfold substring0, lastIndexOf.
  rewrite lastIndexOf_from_last.
  - replace (Z.to_nat (0 + Z.of_nat (length p) + 1)) with (length (p ++ [47%N]))
      by (rewrite length_app; simpl; lia).
    change (p ++ 47%N :: file) with (p ++ [47%N] ++ file).
    rewrite app_assoc. by rewrite take_app_length.
  - lia.
  - eapply Forall_impl; [exact Hfile|]. by intros c [Hc _]%not_delimiter.
Qed.

Lemma segment_not_delimiter s :
  Uri.segment s -> Forall (fun c => Uri.is_delimiter c = false) s.
Proof. by intros [H _]. Qed.

Lemma not_delimiter_path c :
  Uri.is_delimiter c = false -> ((c =? 63) || (c =? 35))%N = false.
Proof.
  intros (_ & H63 & H35)%not_delimiter. apply orb_false_intro; by apply N.eqb_neq.
Qed.

Lemma startsWith_nil s : startsWith s [] = true.
Proof. by destruct s. Qed.

Lemma parse_plain_url a scheme authority dirs file :
  Uri.is_alpha a = true ->
  Forall (fun c => Uri.is_scheme_char c = true) scheme ->
  Forall (fun c => Uri.is_delimiter c = false) authority ->
  Forall Uri.segment dirs ->
  Forall (fun c => Uri.is_delimiter c = false) file ->
  Uri.parse
    ((a :: scheme) ++ lit "://" ++ authority ++ Uri.join dirs ++ lit "/" ++ file)
  = Uri.mk (Some (a :: scheme)) (Some authority)
      (Uri.join (dirs ++ [file])) None None.
Proof.
  intros Ha Hscheme Hauthority Hdirs Hfile. unfold Uri.parse.
  change (lit "://" ++ authority ++ Uri.join dirs ++ lit "/" ++ file)
    with (58%N :: 47%N :: 47%N :: authority ++ Uri.join dirs ++ lit "/" ++ file).
  rewrite split_scheme_app by done.
  unfold Uri.parse_hier. change (lit "//") with [47; 47]%N.
  cbn [startsWith drop]. rewrite !N.eqb_refl, startsWith_nil, drop_0.
  replace (Uri.join dirs ++ lit "/" ++ file) with (Uri.join (dirs ++ [file]))
    by (rewrite join_app; unfold Uri.join; simpl; by rewrite app_nil_r).
  assert (exists r, Uri.join (dirs ++ [file]) = 47%N :: r) as [r Hr].
  { destruct dirs; by eexists. }
  rewrite Hr, span_until_app by done. rewrite <- Hr.
  rewrite span_until_all; [done|].
  apply join_chars; [done|].
  apply Forall_app. split.
  - eapply Forall_impl; [exact Hdirs|]. intros s Hs%segment_not_delimiter.
    eapply Forall_impl; [exact Hs|]. apply not_delimiter_path.
  - constructor; [|constructor].
    eapply Forall_impl; [exact Hfile|]. apply not_delimiter_path.
Qed.

Lemma parse_plain_path first more :
  first <> [] ->
  Forall Uri.segment (first :: more) ->
  Uri.is_absolute (first ++ Uri.join more) = false ->
  Uri.parse (first ++ Uri.join more)
  = Uri.mk None None (first ++ Uri.join more) None None.
Proof.
  intros Hfirst Hsegments Habsolute.
  apply Forall_cons in Hsegments as [Hs Hmore].
  unfold Uri.parse. unfold Uri.is_absolute in Habsolute.
  destruct (Uri.split_scheme _); [done|].
  unfold Uri.parse_hier. change (lit "//") with [47; 47]%N.
  destruct first as [|c first]; [done|].
  pose proof (segment_not_delimiter _ Hs) as Hchars.
  apply Forall_cons in Hchars as [Hc%not_delimiter Hchars].
  cbn [app startsWith].
  destruct (N.eqb_spec 47 c) as [E|_]; [destruct Hc; congruence|].
  rewrite span_until_all; [done|].
  change (c :: first ++ Uri.join more) with ((c :: first) ++ Uri.join more).
  apply Forall_app. split.
  - eapply Forall_impl; [apply (segment_not_delimiter _ Hs)|].
    apply not_delimiter_path.
  - apply join_chars; [done|].
    eapply Forall_impl; [exact Hmore|]. intros s Hs'%segment_not_delimiter.
    eapply Forall_impl; [exact Hs'|]. apply not_delimiter_path.
Qed.

(** Resolving a relative path without dot segments against a plain URL puts
    the URL without its file in front of it. *)
Lemma resolve_plain_path a scheme authority dirs file first more :
  Uri.is_alpha a = true ->
  Forall (fun c => Uri.is_scheme_char c = true) scheme ->
  Forall (fun c => Uri.is_delimiter c = false) authority ->
  Forall Uri.segment dirs ->
  Forall (fun c => Uri.is_delimiter c = false) file ->
  first <> [] ->
  Forall Uri.segment (first :: more) ->
  Uri.is_absolute (first ++ Uri.join more) = false ->
  Uri.resolve
    ((a :: scheme) ++ lit "://" ++ authority ++ Uri.join dirs ++ lit "/" ++ file)
    (first ++ Uri.join more)
  = ((a :: scheme) ++ lit "://" ++ authority ++ Uri.join dirs ++ lit "/")
    ++ first ++ Uri.join more.
Proof.
  intros Ha Hscheme Hauthority Hdirs Hfile Hfirst Hsegments Habsolute.
  unfold Uri.resolve.
  rewrite parse_plain_url, parse_plain_path by done.
  unfold Uri.transform. cbn [Uri.scheme Uri.authority Uri.path Uri.query
                               Uri.fragment].
  destruct first as [|c first]; [done|]. cbn [app].
  pose proof Hsegments as [[[Hc%not_delimiter _]%Forall_cons _] _]%Forall_cons.
  destruct (N.eqb_spec c 47) as [E|_]; [destruct Hc; congruence|].
  unfold Uri.merge. cbn [Uri.authority Uri.path].
  assert (exists r, Uri.join (dirs ++ [file]) = 47%N :: r) as [r Hr].
  { destruct dirs; by eexists. }
  rewrite Hr. rewrite <- Hr.
  replace (Uri.join (dirs ++ [file])) with (Uri.join dirs ++ 47%N :: file)
    by (rewrite join_app; unfold Uri.join; simpl; by rewrite app_nil_r).
  rewrite directory_file by done.
  replace ((Uri.join dirs ++ [47%N]) ++ c :: first ++ Uri.join more)
    with (Uri.join (dirs ++ (c :: first) :: more))
    by (rewrite join_app, join_cons, <- app_assoc; done).
  rewrite remove_dot_segments_join by (apply Forall_app; done).
  unfold Uri.recompose. cbn [Uri.scheme Uri.authority Uri.path Uri.query
                               Uri.fragment].
  rewrite join_app, join_cons, app_nil_r.
  rewrite <- !app_assoc. reflexivity.
Qed.

Lemma replace_line_plain m3u8Url proxyBase line :
  Uri.plain_url m3u8Url ->
  Uri.plain_line line ->
  replace_line
    (rewrite_match (substring0 m3u8Url (lastIndexOf m3u8Url 47 + 1)) proxyBase)
    line
  = Uri.expected_line m3u8Url proxyBase line.
Proof.
  intros [a scheme authority dirs file Ha Hscheme Hauthority Hdirs Hfile] Hline.
  destruct Hline as [|l|l Hhttp Habsolute Htrim
                     |first more Hfirst Hsegments Habsolute Hhttp Htrim].
  - reflexivity.
  - reflexivity.
  - destruct l as [|c l]; [done|].
    assert (c = 104%N) as ->.
    { change (lit "http") with [104; 116; 116; 112]%N in Hhttp.
      cbn [startsWith] in Hhttp. by destruct (N.eqb_spec 104 c). }
    unfold replace_line, Uri.expected_line, rewrite_match, Uri.target.
    change (104 =? 35)%N with false. cbv iota.
    by rewrite Htrim, Hhttp, Habsolute.
  - pose proof (resolve_plain_path a scheme authority dirs file first more
                  Ha Hscheme Hauthority Hdirs Hfile Hfirst Hsegments Habsolute)
      as Hresolve.
    replace (substring0 _ _)
      with ((a :: scheme) ++ lit "://" ++ authority ++ Uri.join dirs ++ lit "/").
    2:{ replace ((a :: scheme) ++ lit "://" ++ authority ++ Uri.join dirs
                 ++ lit "/" ++ file)
          with (((a :: scheme) ++ lit "://" ++ authority ++ Uri.join dirs)
                ++ 47%N :: file) by (by rewrite <- !app_assoc).
        rewrite m3u8Base_file by done. by rewrite <- !app_assoc. }
    destruct first as [|c first]; [done|].
    pose proof Hsegments as [[[Hc%not_delimiter _]%Forall_cons _] _]%Forall_cons.
    unfold replace_line, Uri.expected_line, rewrite_match, Uri.target.
    cbn [app]. cbn [app] in Htrim, Hhttp, Habsolute, Hresolve.
    destruct (N.eqb_spec c 35) as [E|_]; [destruct Hc as (_ & _ & Hc); congruence|].
    by rewrite Htrim, Hhttp, Habsolute, Hresolve.
Qed.

Lemma mapM_Forall_ext {A B} (f g : A -> option B) l :
  Forall (fun x => f x = g x) l -> mapM f l = mapM g l.
Proof. induction 1 as [|x l Hx _ IH]; [done|]. simpl. by rewrite Hx, IH. Qed.

(** X19. On a manifest URL made of a scheme, an authority and a path
    without dot segments, query or fragment, and on a manifest whose lines
    are empty, comments, absolute references that start with [http], or
    relative paths that neither start with [/] or [http] nor hold a dot
    segment, a query or a fragment, with no white space around them, the
    rewriter does what resolution asks: a comment and an empty line stay,
    an absolute reference is passed, percent-encoded, to the proxy as it
    is, and a relative one is first resolved against the URL of the
    manifest as RFC 3986 resolves it. *)
Theorem rewriteM3u8_resolves_plain_references
    (response : fetched) (m3u8Url proxyBase first : jsstring)
    (rest : list (N * jsstring)) :
  f_ok response = true ->
  f_text response = manifest first rest ->
  Forall single_line (first :: rest.*2) ->
  Forall (fun t => is_line_terminator t = true) rest.*1 ->
  Uri.plain_url m3u8Url ->
  Forall Uri.plain_line (first :: rest.*2) ->
  rewriteM3u8 (Ok response) m3u8Url proxyBase
  = (first' ← Uri.expected_line m3u8Url proxyBase first;
     rest' ← mapM (fun tl =>
                     pair tl.1 <$> Uri.expected_line m3u8Url proxyBase tl.2)
               rest;
     Some (manifest first' rest')).
Proof.
  intros Hok Htext Hlines Hterminators Hurl Hplain.
  unfold rewriteM3u8. rewrite Hok, Htext. cbn [negb]. cbv zeta.
  rewrite replace_lines_manifest by done.
  apply Forall_cons in Hplain as [Hfirst Hrest].
  rewrite replace_line_plain by done.
  destruct (Uri.expected_line m3u8Url proxyBase first) as [first'|]; [|done].
  cbn [mbind option_bind].
  rewrite (mapM_Forall_ext _
             (fun tl => pair tl.1 <$> Uri.expected_line m3u8Url proxyBase tl.2));
    [done|].
  rewrite Forall_fmap in Hrest.
  eapply Forall_impl; [exact Hrest|].
  intros [t l] Hl. simpl in *. by rewrite replace_line_plain.
Qed.

(** A playlist of a comment, two relative paths, an absolute reference and
    an empty last line, under [http://h/path/live.m3u8]. *)
Lemma rewriteM3u8_resolves_plain_references_witness :
  rewriteM3u8
    (Ok (mkFetched true 200
           (manifest (lit "#EXTM3U")
              [ (10%N, lit "seg1.ts"); (10%N, lit "hd/seg2.ts");
                (10%N, lit "https://cdn/x.ts"); (10%N, []) ])))
    (lit "http://h/path/live.m3u8") (lit "/api/proxy/stream")
  = Some
      (manifest (lit "#EXTM3U")
         [ (10%N, lit "/api/proxy/stream?url=http%3A%2F%2Fh%2Fpath%2Fseg1.ts");
           (10%N,
            lit "/api/proxy/stream?url=http%3A%2F%2Fh%2Fpath%2Fhd%2Fseg2.ts");
           (10%N, lit "/api/proxy/stream?url=https%3A%2F%2Fcdn%2Fx.ts");
           (10%N, []) ]).
Proof.
  etrans.
  - apply (rewriteM3u8_resolves_plain_references
             (mkFetched true 200
                (manifest (lit "#EXTM3U")
                   [ (10%N, lit "seg1.ts"); (10%N, lit "hd/seg2.ts");
                     (10%N, lit "https://cdn/x.ts"); (10%N, []) ]))
             (lit "http://h/path/live.m3u8") (lit "/api/proxy/stream")
             (lit "#EXTM3U")
             [ (10%N, lit "seg1.ts"); (10%N, lit "hd/seg2.ts");
               (10%N, lit "https://cdn/x.ts"); (10%N, []) ]).
    + reflexivity.
    + reflexivity.
    + repeat constructor.
    + repeat constructor.
    + apply (Uri.plain_url_intro 104 (lit "ttp") (lit "h") [lit "path"]
               (lit "live.m3u8")); repeat constructor; discriminate.
    + repeat apply Forall_cons_2; [| | | | |apply Forall_nil_2].
      * apply Uri.plain_comment.
      * apply (Uri.plain_relative (lit "seg1.ts") []);
          [discriminate| |reflexivity..].
        repeat constructor; discriminate.
      * apply (Uri.plain_relative (lit "hd") [lit "seg2.ts"]);
          [discriminate| |reflexivity..].
        repeat constructor; discriminate.
      * apply Uri.plain_absolute; reflexivity.
      * apply Uri.plain_empty.
  - vm_compute. reflexivity.
Defined.

(** What resolution asks for where the rewriter goes its own way: a
    root-relative reference, a relative path that starts with the letters
    [http], an absolute reference with an upper-case scheme, and a manifest
    URL with a [/] in its query. *)
Lemma expected_line_beyond_plain_references (proxyBase : jsstring) :
  Uri.expected_line (lit "http://h/path/live.m3u8") proxyBase (lit "/seg1.ts")
  = Some (proxyBase ++ lit "?url=http%3A%2F%2Fh%2Fseg1.ts")
  /\ Uri.expected_line (lit "http://h/path/live.m3u8") proxyBase
       (lit "httpdocs/c.ts")
     = Some (proxyBase ++ lit "?url=http%3A%2F%2Fh%2Fpath%2Fhttpdocs%2Fc.ts")
  /\ Uri.expected_line (lit "http://h/path/live.m3u8") proxyBase
       (lit "HTTP://cdn/x.ts")
     = Some (proxyBase ++ lit "?url=HTTP%3A%2F%2Fcdn%2Fx.ts")
  /\ Uri.expected_line (lit "http://h/path/live.m3u8?token=a/b") proxyBase
       (lit "seg1.ts")
     = Some (proxyBase ++ lit "?url=http%3A%2F%2Fh%2Fpath%2Fseg1.ts").
Proof. repeat split; reflexivity. Qed.
